(** * Serac functional kernels: fixed-shape tensors, the [zero] sentinel,
    dual numbers and the boundary integral facade.

    A shallow embedding of [serac/numerics/functional/tensor.hpp] and
    [serac/numerics/functional/boundary_integral.hpp], and of the filter
    view of [boundary_condition_manager.hpp].

    Scalars.  The C++ code computes on [double].  The properties studied
    here are the exact-arithmetic ones, so [double] is modelled by the
    canonical rationals [Qc]: an exact ordered field with a decidable
    Leibniz equality, on which every definition below still computes.
    Rounding is outside this model.

    Fixed-size arrays.  [tensor<T, m, n...>] is an array of [m] tensors of
    shape [n...]; it is modelled by nested lists, the static extents being
    passed as explicit arguments where the code has template parameters.
    [A[i]] is a total lookup, [A[i] = v] a list insert; loops are folds
    over the index range, in the order of the source.

    Parameters.  Where a body assigns to one of its parameters, the
    declaration of the parameter decides whether the assignment is
    well-formed.  Such a body returns an [option]: an assignment through
    const has no result, and neither has the function. *)

From stdpp Require Import base numbers list.
From Stdlib Require Import QArith Qcanon Field Lia Lqa.

Local Open Scope Qc_scope.

(** ** Scalars *)

Abbreviation double := Qc.

Global Instance double_inhabited : Inhabited double := populate 0.

(** A decimal literal [a / b]. *)
Definition lit (a : Z) (b : positive) : double := Q2Qc (a # b).

(** [int] to [double] conversion, as in [trA / n]. *)
Definition of_nat (n : nat) : double := Qc_of_Z (Z.of_nat n).

(** [x < y], [x > y] and [x != y] on doubles, as booleans. *)
Definition ltb (x y : double) : bool := bool_decide (x < y).
Definition gtb (x y : double) : bool := bool_decide (y < x).
Definition neqb (x y : double) : bool := negb (bool_decide (x = y)).

(** [std::abs], and the local [abs] lambda of [inv] and [linear_solve]:
    [(x < 0) ? -x : x]. *)
Definition abs (x : double) : double := if ltb x 0 then - x else x.

(** ** Loops *)

(** [for (int i = lo; i < hi; i++) body] on a state [s]. *)
Definition for_ {S : Type} (lo hi : nat) (body : nat → S → S) (s : S) : S :=
  fold_left (λ s i, body i s) (seq lo (hi - lo)) s.

(** [for (int i = hi - 1; i >= lo; i--) body] on a state [s]. *)
Definition for_down {S : Type} (hi lo : nat) (body : nat → S → S) (s : S) : S :=
  fold_left (λ s i, body i s) (rev (seq lo (hi - lo))) s.

(** Modelled from the spec: [for_constexpr<n...>(f)] of
    [detail/metaprogramming.hpp], which is not part of the sources.  The
    seeding of section 4.2, one gradient slot for every element of the
    tensor, fixes what it does: [f(i...)] is called once for every
    multi-index of the box [n...]; here as nested loops, the last index
    running fastest. *)
Fixpoint for_constexpr {S : Type} (shape : list nat)
    (f : list nat → S → S) (s : S) : S :=
  match shape with
  | [] => f [] s
  | n :: ns => for_ 0 n (λ i, for_constexpr ns (λ I, f (i :: I))) s
  end.

(** ** Tensors *)

(** [tensor<T, n...>]: nested arrays. *)
Fixpoint tensor (T : Type) (shape : list nat) : Type :=
  match shape with
  | [] => T
  | _ :: ns => list (tensor T ns)
  end.

(** [tensor<T, n...>{}]: every entry value-initialized to [x]. *)
Fixpoint tfill {T : Type} (x : T) (shape : list nat) : tensor T shape :=
  match shape with
  | [] => x
  | n :: ns => replicate n (tfill x ns)
  end.

Definition tzero (shape : list nat) : tensor double shape := tfill 0 shape.

Global Instance tensor_inhabited {T : Type} `{Inhabited T} (shape : list nat) :
  Inhabited (tensor T shape) := populate (tfill inhabitant shape).

(** The static shape of a value: every level has its declared extent. *)
Fixpoint wf {T : Type} (shape : list nat) : tensor T shape → Prop :=
  match shape with
  | [] => λ _, True
  | n :: ns => λ t : list (tensor T ns), length t = n ∧ Forall (wf ns) t
  end.

(** A multi-index within the box [shape]. *)
Fixpoint in_range (shape I : list nat) : Prop :=
  match shape, I with
  | [], [] => True
  | n :: ns, i :: I' => (i < n)%nat ∧ in_range ns I'
  | _, _ => False
  end.

(** [A(i...)] as an rvalue. *)
Fixpoint tget {T : Type} `{Inhabited T} (shape : list nat) :
    tensor T shape → list nat → T :=
  match shape with
  | [] => λ t _, t
  | _ :: ns => λ (t : list (tensor T ns)) I,
      match I with
      | [] => inhabitant
      | i :: I' => tget ns (t !!! i) I'
      end
  end.

(** [A(i...)] as an lvalue: the entry at [I] is replaced by [f] of it. *)
Fixpoint talter {T : Type} (shape : list nat) (f : T → T) (I : list nat) :
    tensor T shape → tensor T shape :=
  match shape with
  | [] => λ t, f t
  | _ :: ns => λ t : list (tensor T ns),
      match I with
      | [] => t
      | i :: I' => alter (talter ns f I') i t
      end
  end.

Definition tset {T : Type} (shape : list nat) (I : list nat) (v : T) :
    tensor T shape → tensor T shape :=
  talter shape (λ _, v) I.

(** [g(i...) = v] where [g] has more indices than are given: the
    sub-tensor at the leading multi-index [I] is replaced by [v]. *)
Fixpoint tset_sub {T : Type} (n m : list nat) (I : list nat)
    (v : tensor T m) : tensor T (n ++ m) → tensor T (n ++ m) :=
  match n return tensor T (n ++ m) → tensor T (n ++ m) with
  | [] => λ _, v
  | _ :: ns => λ t : list (tensor T (ns ++ m)),
      match I with
      | [] => t
      | i :: I' => alter (tset_sub ns m I' v) i t
      end
  end.

Abbreviation vec := (list double).
Abbreviation mat := (list (list double)).

(** Entry [(r, c)] of a matrix. *)
Definition entry (A : mat) (r c : nat) : double := (A !!! r) !!! c.

(** An [m] by [n] matrix. *)
Definition is_mat (m n : nat) (A : mat) : Prop :=
  length A = m ∧ Forall (λ row, length row = n) A.

(** The sum [f 0 + f 1 + ... + f (n - 1)], accumulated from [0] upwards. *)
Fixpoint sum_n (n : nat) (f : nat → double) : double :=
  match n with
  | O => 0
  | S k => sum_n k f + f k
  end.

(** [A[r][c] = v]. *)
Definition set_entry (r c : nat) (v : double) (A : mat) : mat :=
  <[r := <[c := v]> (A !!! r)]> A.

(** ** The [zero] sentinel *)

(** [struct zero]: a unit type. *)
Inductive zero : Type := Zero.

(** [zero::operator double()] and [zero::operator tensor<T, n...>()]. *)
Definition zero_to_double (_ : zero) : double := 0.
Definition zero_to_tensor (shape : list nat) (_ : zero) : tensor double shape :=
  tzero shape.

(** [operator+(zero, zero)], [operator+(zero, T other)] and
    [operator+(T other, zero)]. *)
Definition zero_add_zero (_ _ : zero) : zero := Zero.
Definition zero_add_l {T : Type} (_ : zero) (other : T) : T := other.
Definition zero_add_r {T : Type} (other : T) (_ : zero) : T := other.

(** [operator*(zero, zero)], [operator*(zero, T)] and [operator*(T, zero)]. *)
Definition zero_mul_zero (_ _ : zero) : zero := Zero.
Definition zero_mul_l {T : Type} (_ : zero) (_ : T) : zero := Zero.
Definition zero_mul_r {T : Type} (_ : T) (_ : zero) : zero := Zero.

(** [operator/(zero, T)]. *)
Definition zero_div_l {T : Type} (_ : zero) (_ : T) : zero := Zero.

(** ** Elementwise tensor arithmetic *)

(** [operator+(const tensor<S, m, n...>&, const tensor<T, m, n...>&)]. *)
Fixpoint tensor_add (shape : list nat) :
    tensor double shape → tensor double shape → tensor double shape :=
  match shape with
  | [] => λ a b, a + b
  | m :: ns => λ A B : list (tensor double ns),
      for_ 0 m (λ i (C : list (tensor double ns)),
                  <[i := tensor_add ns (A !!! i) (B !!! i)]> C)
           (tzero (m :: ns))
  end.

(** [operator*(S scale, const tensor<T, m, n...>&)]. *)
Fixpoint scale_l (shape : list nat) (scale : double) :
    tensor double shape → tensor double shape :=
  match shape with
  | [] => λ a, scale * a
  | m :: ns => λ A : list (tensor double ns),
      for_ 0 m (λ i (C : list (tensor double ns)),
                  <[i := scale_l ns scale (A !!! i)]> C)
           (tzero (m :: ns))
  end.

(** [operator*(const tensor<T, m, n...>&, S scale)]. *)
Fixpoint scale_r (shape : list nat) (scale : double) :
    tensor double shape → tensor double shape :=
  match shape with
  | [] => λ a, a * scale
  | m :: ns => λ A : list (tensor double ns),
      for_ 0 m (λ i (C : list (tensor double ns)),
                  <[i := scale_r ns scale (A !!! i)]> C)
           (tzero (m :: ns))
  end.

(** [operator/(const tensor<T, m, n...>&, S scale)]. *)
Fixpoint div_r (shape : list nat) (scale : double) :
    tensor double shape → tensor double shape :=
  match shape with
  | [] => λ a, a / scale
  | m :: ns => λ A : list (tensor double ns),
      for_ 0 m (λ i (C : list (tensor double ns)),
                  <[i := div_r ns scale (A !!! i)]> C)
           (tzero (m :: ns))
  end.

(** [operator+=(tensor<S, m, n...>&, const tensor<T, m, n...>&)]. *)
Fixpoint add_assign (shape : list nat) :
    tensor double shape → tensor double shape → tensor double shape :=
  match shape with
  | [] => λ a b, a + b
  | m :: ns => λ A B : list (tensor double ns),
      for_ 0 m (λ i (A : list (tensor double ns)),
                  <[i := add_assign ns (A !!! i) (B !!! i)]> A) A
  end.

(** [operator-=(tensor<S, m, n...>&, const tensor<T, m, n...>&)]. *)
Fixpoint sub_assign (shape : list nat) :
    tensor double shape → tensor double shape → tensor double shape :=
  match shape with
  | [] => λ a b, a - b
  | m :: ns => λ A B : list (tensor double ns),
      for_ 0 m (λ i (A : list (tensor double ns)),
                  <[i := sub_assign ns (A !!! i) (B !!! i)]> A) A
  end.

(** ** Trace and deviator *)

(** [tr(const tensor<T, n, n>&)]. *)
Definition tr (n : nat) (A : mat) : double :=
  for_ 0 n (λ i trA, trA + entry A i i) 0.

(** [dev(const tensor<T, n, n>&)]. *)
Definition dev (n : nat) (A : mat) : mat :=
  let devA := A in
  let trA := tr n A in
  for_ 0 n (λ i devA, set_entry i i (entry devA i i - trA / of_nat n) devA) devA.

(** ** Division of a scalar by a tensor *)

(** What a loop that fills a freshly declared result fixes about it: the
    shape the result is declared with, and the leading indices [i] of
    the stores [C[i] = ...] the loop performs. *)
Record footprint : Type :=
  { result_shape : list nat; stores : list nat }.

(** [operator/(S scale, const tensor<T, m, n...>& A)]: the result is
    declared as [tensor<decltype(S{} * T{}), n...> C{}], and the loop
    [for (int i = 0; i < m; i++)] stores [C[i] = scale / A[i]]. *)
Definition div_scalar_tensor_footprint (m : nat) (ns : list nat) : footprint :=
  {| result_shape := ns; stores := seq 0 m |}.

(** [operator/(const tensor<T, m, n...>& A, S scale)]: the result is
    declared as [tensor<decltype(T{} * S{}), m, n...> C{}], and the loop
    stores [C[i] = A[i] / scale] for [i] in [0, m). *)
Definition div_tensor_scalar_footprint (m : nat) (ns : list nat) : footprint :=
  {| result_shape := m :: ns; stores := seq 0 m |}.

(** Every store of the loop lands inside the leading extent of the
    declared result. *)
Definition stores_in_bounds (fp : footprint) : Prop :=
  match result_shape fp with
  | [] => stores fp = []
  | e :: _ => Forall (λ i, (i < e)%nat) (stores fp)
  end.

Global Instance stores_in_bounds_dec fp : Decision (stores_in_bounds fp).
Proof. unfold stores_in_bounds. destruct (result_shape fp); apply _. Defined.

(** ** Contractions *)

(** [dot(const tensor<S, m, n>&, const tensor<T, n, p>&)]: matrix . matrix. *)
Definition dot_mm (m n p : nat) (A B : mat) : mat :=
  for_ 0 m (λ i, for_ 0 p (λ j, for_ 0 n (λ k AB,
    set_entry i j (entry AB i j + entry A i k * entry B k j) AB)))
    (tzero [m; p]).

(** [dot(const tensor<S, m>&, const tensor<T, m>&)]: vector . vector. *)
Definition dot_vv (m : nat) (A B : vec) : double :=
  for_ 0 m (λ i AB, AB + A !!! i * B !!! i) 0.

(** [dot(const tensor<S, m>&, const tensor<T, m, n>&)]: vector . matrix. *)
Definition dot_vm (m n : nat) (A : vec) (B : mat) : vec :=
  for_ 0 n (λ i, for_ 0 m (λ j (AB : vec),
    <[i := AB !!! i + A !!! j * entry B j i]> AB))
    (tzero [n]).

(** [dot(const tensor<S, m>&, const tensor<T, m, n, p>&)]: vector . tensor3D. *)
Definition dot_vt3 (m n p : nat) (A : vec) (B : list mat) : mat :=
  for_ 0 m (λ j AB, tensor_add [n; p] AB (scale_l [n; p] (A !!! j) (B !!! j)))
    (tzero [n; p]).

(** [dot(const tensor<S, m>&, const tensor<T, m, n, p, q>&)]: vector . tensor4D. *)
Definition dot_vt4 (m n p q : nat) (A : vec) (B : list (list mat)) : list mat :=
  for_ 0 m (λ j AB,
    tensor_add [n; p; q] AB (scale_l [n; p; q] (A !!! j) (B !!! j)))
    (tzero [n; p; q]).

(** [dot(const tensor<S, m, n>&, const tensor<T, n>&)]: matrix . vector. *)
Definition dot_mv (m n : nat) (A : mat) (B : vec) : vec :=
  for_ 0 m (λ i, for_ 0 n (λ j (AB : vec),
    <[i := AB !!! i + entry A i j * B !!! j]> AB))
    (tzero [m]).

(** [dot(const tensor<S, m, n, p>&, const tensor<T, p>&)]:
    3rd-order-tensor . vector. *)
Definition dot_t3v (m n p : nat) (A : list mat) (B : vec) : mat :=
  for_ 0 m (λ i, for_ 0 n (λ j, for_ 0 p (λ k AB,
    set_entry i j (entry AB i j + entry (A !!! i) j k * B !!! k) AB)))
    (tzero [m; n]).

(** ** Identity, determinant, symmetry *)

(** [DenseIdentity<dim>()]: [I[i][j] = (i == j)]. *)
Definition DenseIdentity (dim : nat) : mat :=
  for_ 0 dim (λ i, for_ 0 dim (λ j I,
    set_entry i j (if bool_decide (i = j) then 1 else 0) I))
    (tzero [dim; dim]).

(** [make_tensor<n1, n2>(f)]. *)
Definition make_tensor2 (n1 n2 : nat) (f : nat → nat → double) : mat :=
  for_ 0 n1 (λ i, for_ 0 n2 (λ j A, set_entry i j (f i j) A)) (tzero [n1; n2]).

(** [det(const tensor<T, 2, 2>&)]. *)
Definition det2 (A : mat) : double :=
  entry A 0 0 * entry A 1 1 - entry A 0 1 * entry A 1 0.

(** [det(const tensor<T, 3, 3>&)]. *)
Definition det3 (A : mat) : double :=
  entry A 0 0 * entry A 1 1 * entry A 2 2 + entry A 0 1 * entry A 1 2 * entry A 2 0
  + entry A 0 2 * entry A 1 0 * entry A 2 1 - entry A 0 0 * entry A 1 2 * entry A 2 1
  - entry A 0 1 * entry A 1 0 * entry A 2 2 - entry A 0 2 * entry A 1 1 * entry A 2 0.

(** The default [tolerance = 1.0e-8] of [is_symmetric]. *)
Definition default_tolerance : double := lit 1 100000000.

(** A loop body that may [return]: the state is [None] while the loop
    runs and [Some b] once [return b] was executed. *)
Definition return_if (cond : bool) (b : bool) (st : option bool) : option bool :=
  match st with
  | Some r => Some r
  | None => if cond then Some b else None
  end.

(** [is_symmetric(tensor<double, n, n> A, double tolerance = 1.0e-8)]. *)
Definition is_symmetric (n : nat) (A : mat) (tolerance : double) : bool :=
  let st :=
    for_ 0 n (λ i, for_ (i + 1) n (λ j,
      return_if (gtb (abs (entry A i j - entry A j i)) tolerance) false)) None in
  match st with
  | Some r => r
  | None => true
  end.

(** [is_symmetric_and_positive_definite(tensor<double, 2, 2> A)]. *)
Definition is_symmetric_and_positive_definite_2 (A : mat) : bool :=
  if negb (is_symmetric 2 A default_tolerance) then false
  else if ltb (entry A 0 0) 0 then false
  else if ltb (det2 A) 0 then false
  else true.

(** [is_symmetric_and_positive_definite(tensor<double, 3, 3> A)]. *)
Definition is_symmetric_and_positive_definite_3 (A : mat) : bool :=
  if negb (is_symmetric 3 A default_tolerance) then false
  else if ltb (det3 A) 0 then false
  else
    let subtensor := make_tensor2 2 2 (λ i j, entry A i j) in
    if negb (is_symmetric_and_positive_definite_2 subtensor) then false
    else true.

(** The criterion the documentation of
    [is_symmetric_and_positive_definite] names: the matrix is symmetric
    within the tolerance, and each upper left subtensor has a determinant
    greater than zero. *)
Definition symmetric_within (n : nat) (A : mat) (tolerance : double) : Prop :=
  ∀ i j, (i < n)%nat → (j < n)%nat → abs (entry A i j - entry A j i) ≤ tolerance.

Definition sylvester_2 (A : mat) : Prop :=
  symmetric_within 2 A default_tolerance ∧ 0 < entry A 0 0 ∧ 0 < det2 A.

Definition sylvester_3 (A : mat) : Prop :=
  symmetric_within 3 A default_tolerance
  ∧ 0 < entry A 0 0 ∧ 0 < det2 A ∧ 0 < det3 A.

(** ** Matrix inverse *)

(** [inv(const tensor<double, 2, 2>&)]. *)
Definition inv2 (A : mat) : mat :=
  let inv_detA := 1 / det2 A in
  let invA := tzero [2%nat; 2%nat] in
  let invA := set_entry 0 0 (entry A 1 1 * inv_detA) invA in
  let invA := set_entry 0 1 (- entry A 0 1 * inv_detA) invA in
  let invA := set_entry 1 0 (- entry A 1 0 * inv_detA) invA in
  let invA := set_entry 1 1 (entry A 0 0 * inv_detA) invA in
  invA.

(** [inv(const tensor<double, 3, 3>&)]. *)
Definition inv3 (A : mat) : mat :=
  let inv_detA := 1 / det3 A in
  let invA := tzero [3%nat; 3%nat] in
  let invA := set_entry 0 0
    ((entry A 1 1 * entry A 2 2 - entry A 1 2 * entry A 2 1) * inv_detA) invA in
  let invA := set_entry 0 1
    ((entry A 0 2 * entry A 2 1 - entry A 0 1 * entry A 2 2) * inv_detA) invA in
  let invA := set_entry 0 2
    ((entry A 0 1 * entry A 1 2 - entry A 0 2 * entry A 1 1) * inv_detA) invA in
  let invA := set_entry 1 0
    ((entry A 1 2 * entry A 2 0 - entry A 1 0 * entry A 2 2) * inv_detA) invA in
  let invA := set_entry 1 1
    ((entry A 0 0 * entry A 2 2 - entry A 0 2 * entry A 2 0) * inv_detA) invA in
  let invA := set_entry 1 2
    ((entry A 0 2 * entry A 1 0 - entry A 0 0 * entry A 1 2) * inv_detA) invA in
  let invA := set_entry 2 0
    ((entry A 1 0 * entry A 2 1 - entry A 1 1 * entry A 2 0) * inv_detA) invA in
  let invA := set_entry 2 1
    ((entry A 0 1 * entry A 2 0 - entry A 0 0 * entry A 2 1) * inv_detA) invA in
  let invA := set_entry 2 2
    ((entry A 0 0 * entry A 1 1 - entry A 0 1 * entry A 1 0) * inv_detA) invA in
  invA.

(** [swap(x, y)] on two rows of one matrix: [tmp = x; x = y; y = tmp]. *)
Definition swap_rows (r1 r2 : nat) (M : mat) : mat :=
  let tmp := M !!! r1 in
  let M := <[r1 := M !!! r2]> M in
  <[r2 := tmp]> M.

(** The search for the maximum in column [i], from row [i] down. *)
Definition find_pivot (n i : nat) (A : mat) : double * nat :=
  let max_val := abs (entry A i i) in
  let max_row := i in
  for_ (i + 1) n (λ j '(max_val, max_row),
    if gtb (abs (entry A j i)) max_val
    then (abs (entry A j i), j)
    else (max_val, max_row)) (max_val, max_row).

(** One iteration of the upper triangular solve: only rows of the
    local [B] are assigned to. *)
Definition backward_step (n i : nat) (A : mat) (B : mat) : mat :=
  let B := <[i := div_r [n] (entry A i i) (B !!! i)]> B in
  for_down i 0 (λ j B,
    if neqb (entry A j i) 0
    then <[j := sub_assign [n] (B !!! j) (scale_l [n] (entry A j i) (B !!! i))]> B
    else B) B.

(** ** Parameters and const *)

(** How a function declares a parameter: by value
    ([tensor<T, n, n> A]), by value and const ([const tensor<T, n> b]),
    or as a reference to const ([const tensor<T, n, n>& A]). *)
Inductive declared : Type := by_value | const_by_value | by_const_reference.

(** Whether the body may assign to the parameter.  Of each pair of
    subscript operators of [tensor], the one selected on a const tensor
    returns a reference to const, so the rows and the entries of a
    parameter are assignable exactly when the parameter is. *)
Definition assignable (d : declared) : bool :=
  match d with
  | by_value => true
  | const_by_value | by_const_reference => false
  end.

(** An assignment ([=], [+=], [-=], or the two assignments of the local
    [swap]) to a parameter declared [d], or to one of its rows or
    entries: the new contents of the parameter, and no result when the
    parameter is not assignable, as the statement is then ill-formed. *)
Definition assign {T : Type} (d : declared) (new : T) : option T :=
  if assignable d then Some new else None.

(** [for (int i = lo; i < hi; i++) body], for a body that may have no
    result: the loop has none from the first such iteration on. *)
Definition for_opt {S : Type} (lo hi : nat) (body : nat → S → option S)
    (s : S) : option S :=
  for_ lo hi (λ i s, s ≫= body i) (Some s).

(** [for (int i = hi - 1; i >= lo; i--) body], likewise. *)
Definition for_down_opt {S : Type} (hi lo : nat) (body : nat → S → option S)
    (s : S) : option S :=
  for_down hi lo (λ i s, s ≫= body i) (Some s).

(** ** The general overload of [inv] *)

(** The loop that zeroes the entries below the diagonal in column [i],
    for a parameter [A] declared [dA]; [B] is a local. *)
Definition checked_eliminate_below (dA : declared) (n i : nat)
    (AB : mat * mat) : option (mat * mat) :=
  for_opt (i + 1) n (λ j '(A, B),
    if neqb (entry A j i) 0 then
      let c := - entry A j i / entry A i i in
      A ← assign dA
            (<[j := add_assign [n] (A !!! j) (scale_l [n] c (A !!! i))]> A);
      let B := <[j := add_assign [n] (B !!! j) (scale_l [n] c (B !!! i))]> B in
      A ← assign dA (set_entry j i 0 A);
      Some (A, B)
    else Some (A, B)) AB.

(** One iteration of the elimination loop: the search for the pivot,
    [swap(B[max_row], B[i])], [swap(A[max_row], A[i])], and the loop over
    the rows below. *)
Definition checked_forward_step (dA : declared) (n i : nat)
    (AB : mat * mat) : option (mat * mat) :=
  let '(A, B) := AB in
  let '(_, max_row) := find_pivot n i A in
  let B := swap_rows max_row i B in
  A ← assign dA (swap_rows max_row i A);
  checked_eliminate_below dA n i (A, B).

(** The body of the general overload of [inv], Gauss elimination with
    partial pivoting, for a parameter [A] declared [dA]. *)
Definition inv_body (dA : declared) (n : nat) (A : mat) : option mat :=
  let B := DenseIdentity n in
  '(A, B) ← for_opt 0 n (checked_forward_step dA n) (A, B);
  let B := for_down n 0 (λ i, backward_step n i A) B in
  Some B.

(** [inv(const tensor<T, n, n>& A)]: the parameter is a reference to
    const. *)
Definition inv_general (n : nat) (A : mat) : option mat :=
  inv_body by_const_reference n A.

(** Overload resolution of [inv] on a [tensor<double, n, n>]: the two
    non-template overloads are preferred for [n = 2] and [n = 3]. *)
Definition inv (n : nat) (A : mat) : option mat :=
  match n with
  | 2%nat => Some (inv2 A)
  | 3%nat => Some (inv3 A)
  | _ => inv_general n A
  end.

(** [A] has a two-sided inverse. *)
Definition invertible (n : nat) (A : mat) : Prop :=
  ∃ A' : mat, is_mat n n A'
    ∧ dot_mm n n n A A' = DenseIdentity n
    ∧ dot_mm n n n A' A = DenseIdentity n.

(** ** The elimination on a matrix passed by value *)

(** The loop that zeroes the entries below the diagonal in column [i],
    on matrices that are both assignable. *)
Definition eliminate_below (n i : nat) (AB : mat * mat) : mat * mat :=
  for_ (i + 1) n (λ j '(A, B),
    if neqb (entry A j i) 0 then
      let c := - entry A j i / entry A i i in
      let A := <[j := add_assign [n] (A !!! j) (scale_l [n] c (A !!! i))]> A in
      let B := <[j := add_assign [n] (B !!! j) (scale_l [n] c (B !!! i))]> B in
      let A := set_entry j i 0 A in
      (A, B)
    else (A, B)) AB.

(** One iteration of the elimination loop, likewise. *)
Definition forward_step (n i : nat) (AB : mat * mat) : mat * mat :=
  let '(A, B) := AB in
  let '(_, max_row) := find_pivot n i A in
  let B := swap_rows max_row i B in
  let A := swap_rows max_row i A in
  eliminate_below n i (A, B).

(** What the statements of the general overload compute when [A] is
    passed by value, as [linear_solve] declares its [A]. *)
Definition inv_general_by_value (n : nat) (A : mat) : mat :=
  let B := DenseIdentity n in
  let '(A, B) := for_ 0 n (forward_step n) (A, B) in
  let B := for_down n 0 (λ i, backward_step n i A) B in
  B.

(** ** Vocabulary of the proofs about inverses *)

(** The Kronecker symbol: the entries of the identity. *)
Definition delta (i j : nat) : double := if bool_decide (i = j) then 1 else 0.

(** The row that [swap_rows r1 r2] leaves at position [r]. *)
Definition transp (r1 r2 r : nat) : nat :=
  if bool_decide (r = r2) then r1 else if bool_decide (r = r1) then r2 else r.

(** Entry [(i, j)] of the product of two [n] by [n] matrices. *)
Definition mmul (n : nat) (A B : mat) (i j : nat) : double :=
  sum_n n (λ k, entry A i k * entry B k j).

(** [A] has a trivial kernel: [A v = 0] only for [v = 0]. *)
Definition injective (n : nat) (A : mat) : Prop :=
  ∀ v : nat → double,
    (∀ r, (r < n)%nat → sum_n n (λ c, entry A r c * v c) = 0) →
    ∀ c, (c < n)%nat → v c = 0.

(** The first [i] columns of [A] are zero below the diagonal, with
    nonzero diagonal entries. *)
Definition reduced (n i : nat) (A : mat) : Prop :=
  (∀ r c, (c < i)%nat → (c < r < n)%nat → entry A r c = 0)
  ∧ (∀ c, (c < i)%nat → entry A c c ≠ 0).

(** The invariant of the elimination loop on [(A, B)], started from
    [(A0, I)]: [B A0 = A], [A] is still injective, and its first [i]
    columns are reduced. *)
Definition elimination_inv (n : nat) (A0 : mat) (i : nat) (AB : mat * mat) :
    Prop :=
  is_mat n n AB.1 ∧ is_mat n n AB.2
  ∧ (∀ r c, (r < n)%nat → (c < n)%nat → mmul n AB.2 A0 r c = entry AB.1 r c)
  ∧ injective n AB.1
  ∧ reduced n i AB.1.

(** The invariant of the upper triangular solve on [B], started from
    [B1], when the rows [i, ..., n - 1] are done. *)
Definition solve_inv (n : nat) (U B1 : mat) (i : nat) (B : mat) : Prop :=
  is_mat n n B
  ∧ ∀ r c, (r < n)%nat → (c < n)%nat →
      (if bool_decide (r < i)%nat then entry B r c else 0)
      + sum_n n (λ k, if bool_decide (i ≤ k)%nat
                      then entry U r k * entry B k c else 0)
      = entry B1 r c.

(** ** Dual numbers *)

(** Modelled from the spec: [dual<gradient_type>] of [dual.hpp], which is
    not part of the sources.  Section 3: a primal value paired with its
    derivative; [value] and [gradient] are the two fields [tensor.hpp]
    reads and writes. *)
Record dual (G : Type) : Type := mk_dual { value : double; gradient : G }.

Arguments mk_dual {G} _ _.
Arguments value {G} _.
Arguments gradient {G} _.

Global Instance dual_inhabited {G : Type} `{Inhabited G} : Inhabited (dual G) :=
  populate (mk_dual 0 inhabitant).

(** [make_dual(const tensor<double, n...>& A)]. *)
Definition make_dual (shape : list nat) (A : tensor double shape) :
    tensor (dual (tensor double shape)) shape :=
  let A_dual := tfill (mk_dual 0 (tzero shape)) shape in
  for_constexpr shape (λ I A_dual,
    let A_dual :=
      talter shape (λ d, mk_dual (tget shape A I) (gradient d)) I A_dual in
    talter shape (λ d, mk_dual (value d) (tset shape I 1 (gradient d))) I A_dual)
    A_dual.

(** [get_value(const tensor<dual<T>, n...>& arg)]. *)
Definition get_value {G : Type} `{Inhabited G} (shape : list nat)
    (arg : tensor (dual G) shape) : tensor double shape :=
  for_constexpr shape (λ I v, tset shape I (value (tget shape arg I)) v)
    (tzero shape).

(** [get_gradient(const tensor<dual<double>, n...>& arg)]. *)
Definition get_gradient_scalar (shape : list nat)
    (arg : tensor (dual double) shape) : tensor double shape :=
  for_constexpr shape (λ I g, tset shape I (gradient (tget shape arg I)) g)
    (tzero shape).

(** [get_gradient(const tensor<dual<tensor<double, m...>>, n...>& arg)]. *)
Definition get_gradient (n m : list nat)
    (arg : tensor (dual (tensor double m)) n) : tensor double (n ++ m) :=
  for_constexpr n (λ I g, tset_sub n m I (gradient (tget n arg I)) g)
    (tzero (n ++ m)).

(** ** Chain rule *)

(** [chain_rule(const tensor<double, n...>& df_dx,
    const tensor<double, n...>& dx)]: the inner product. *)
Definition chain_rule (shape : list nat) (df_dx dx : tensor double shape) :
    double :=
  for_constexpr shape
    (λ I total, total + tget shape df_dx I * tget shape dx I) 0.

(** ** Quadrature functions *)

(** Modelled from the spec: the arithmetic of [dual.hpp], which is not
    part of the sources.  Section 4.2: for every arithmetic operator on
    dual numbers the value of the result is the ordinary operator applied
    to the values, and its gradient is the analytic partial derivative
    applied to the gradients of the operands (product rule, quotient
    rule).  A number met during an evaluation is a plain [double] or a
    dual number whose gradient is a vector. *)
Inductive num : Type :=
  | NDouble (x : double)
  | NDual (d : dual vec).

(** Modelled from the spec: sums, differences and multiples of
    gradients, as the rules of section 4.2 combine them. *)
Definition vadd (g h : vec) : vec := zip_with Qcplus g h.
Definition vsub (g h : vec) : vec := zip_with Qcminus g h.
Definition vscale (c : double) (g : vec) : vec := Qcmult c <$> g.

(** Modelled from the spec: the operators [-x], [x + y], [x - y],
    [x * y] and [x / y] of [dual.hpp] on plain and dual operands: the
    value is the ordinary operator on the values, the gradient follows
    the sum, product and quotient rules. *)
Definition num_neg (a : num) : num :=
  match a with
  | NDouble x => NDouble (- x)
  | NDual d => NDual (mk_dual (- value d) (vscale (-1) (gradient d)))
  end.

Definition num_add (a b : num) : num :=
  match a, b with
  | NDouble x, NDouble y => NDouble (x + y)
  | NDual d, NDouble y => NDual (mk_dual (value d + y) (gradient d))
  | NDouble x, NDual e => NDual (mk_dual (x + value e) (gradient e))
  | NDual d, NDual e =>
      NDual (mk_dual (value d + value e) (vadd (gradient d) (gradient e)))
  end.

Definition num_sub (a b : num) : num :=
  match a, b with
  | NDouble x, NDouble y => NDouble (x - y)
  | NDual d, NDouble y => NDual (mk_dual (value d - y) (gradient d))
  | NDouble x, NDual e =>
      NDual (mk_dual (x - value e) (vscale (-1) (gradient e)))
  | NDual d, NDual e =>
      NDual (mk_dual (value d - value e) (vsub (gradient d) (gradient e)))
  end.

Definition num_mul (a b : num) : num :=
  match a, b with
  | NDouble x, NDouble y => NDouble (x * y)
  | NDual d, NDouble y => NDual (mk_dual (value d * y) (vscale y (gradient d)))
  | NDouble x, NDual e => NDual (mk_dual (x * value e) (vscale x (gradient e)))
  | NDual d, NDual e =>
      NDual (mk_dual (value d * value e)
               (vadd (vscale (value e) (gradient d))
                     (vscale (value d) (gradient e))))
  end.

Definition num_div (a b : num) : num :=
  match a, b with
  | NDouble x, NDouble y => NDouble (x / y)
  | NDual d, NDouble y =>
      NDual (mk_dual (value d / y) (vscale (1 / y) (gradient d)))
  | NDouble x, NDual e =>
      NDual (mk_dual (x / value e)
               (vscale (- (x / (value e * value e))) (gradient e)))
  | NDual d, NDual e =>
      NDual (mk_dual (value d / value e)
               (vsub (vscale (1 / value e) (gradient d))
                     (vscale (value d / (value e * value e)) (gradient e))))
  end.

(** Modelled from the spec: [get_value] and [get_gradient] of a number
    (section 4.2: the primal and the derivative part); the gradient of a
    plain [double] is [zero], as in [get_gradient(double)], here
    converted to the zero vector of [d] components. *)
Definition num_value (a : num) : double :=
  match a with
  | NDouble x => x
  | NDual d => value d
  end.

Definition num_gradient (d : nat) (a : num) : vec :=
  match a with
  | NDouble _ => zero_to_tensor [d] Zero
  | NDual e => gradient e
  end.

(** Modelled from the spec: the q-function.  Section 6: a pure function
    of the position, the normal and the field values, implemented only
    in terms of the supported operators, so that it can be invoked with
    plain or with dual arguments.  It is given by the expression it
    computes. *)
Inductive qexpr : Type :=
  | QConst (c : double)
  | QPosition (k : nat)
  | QNormal (k : nat)
  | QArg (field k : nat)
  | QNeg (e : qexpr)
  | QAdd (e1 e2 : qexpr)
  | QSub (e1 e2 : qexpr)
  | QMul (e1 e2 : qexpr)
  | QDiv (e1 e2 : qexpr).

(** Modelled from the spec: the value of a q-function at a position
    [x], a normal [n] and the arguments [args] of the trial fields. *)
Fixpoint qeval (x n : vec) (args : nat → nat → num) (e : qexpr) : num :=
  match e with
  | QConst c => NDouble c
  | QPosition k => NDouble (x !!! k)
  | QNormal k => NDouble (n !!! k)
  | QArg field k => args field k
  | QNeg e => num_neg (qeval x n args e)
  | QAdd e1 e2 => num_add (qeval x n args e1) (qeval x n args e2)
  | QSub e1 e2 => num_sub (qeval x n args e1) (qeval x n args e2)
  | QMul e1 e2 => num_mul (qeval x n args e1) (qeval x n args e2)
  | QDiv e1 e2 => num_div (qeval x n args e1) (qeval x n args e2)
  end.

(** ** Kernels *)

(** Modelled from the spec: the finite element spaces, which are not
    part of the sources.  Section 4.3 only fixes that the field values
    at a quadrature point are obtained from the degrees of freedom of
    the element, and that the weighted integrand values of an element
    are turned into its residual, or into its dense Jacobian block. *)
Record finite_element : Type :=
  { trial_dim : nat → nat;
    interpolate : nat → vec → nat → nat → double;
    integrate : list double → vec;
    assemble : nat → list vec → mat }.

(** Modelled from the spec: the argument of the q-function for one
    trial field at one quadrature point, a vector of [trial_dim]
    components. *)
Definition trial_arg (fe : finite_element) (field : nat) (dofs : vec) (q : nat) :
    vec :=
  interpolate fe field dofs q <$> seq 0 (trial_dim fe field).

(** The derivative cache [qf_derivatives] of one trial field:
    an array indexed by element and quadrature point. *)
Abbreviation cache := (list (list vec)).

(** The arrays allocated by the constructor, one per trial field. *)
Abbreviation store := (list cache).

(** The data every kernel of one integral is instantiated with. *)
Record kernel_config : Type :=
  { fe_of : finite_element;
    num_elements : nat;
    quadrature_points_per_element : nat;
    J_of : list (list double);
    X_of : list (list vec);
    N_of : list (list vec);
    qf_of : qexpr }.

(** Modelled from the spec: the q-function at quadrature point [q] of
    element [e], on the arguments [args]. *)
Definition qf_at (cfg : kernel_config) (e q : nat) (args : nat → nat → num) :
    num :=
  qeval ((X_of cfg !!! e) !!! q) ((N_of cfg !!! e) !!! q) args (qf_of cfg).

(** Modelled from the spec: plain arguments, the values of every trial
    field. *)
Definition plain_args (cfg : kernel_config) (U : list (list vec)) (e q : nat) :
    nat → nat → num :=
  λ field k, NDouble (trial_arg (fe_of cfg) field ((U !!! field) !!! e) q !!! k).

(** Modelled from the spec: arguments for the derivative with respect
    to trial field [i]; the argument of field [i] is wrapped by
    [make_dual], the others stay plain. *)
Definition dual_args (cfg : kernel_config) (i : nat) (U : list (list vec))
    (e q : nat) : nat → nat → num :=
  λ field k,
    let u := trial_arg (fe_of cfg) field ((U !!! field) !!! e) q in
    if bool_decide (field = i)
    then NDual (make_dual [trial_dim (fe_of cfg) i] u !!! k)
    else NDouble (u !!! k).

(** Modelled from the spec: [EvaluationKernel{eval_config, J, X, N,
    num_elements, qf}] of [boundary_integral_kernels.hpp], which is not
    part of the sources.  Section 4.3, plain evaluation: the integrand is
    applied at every element and quadrature point on primal values, and
    the element residuals are produced from the values weighted by the
    geometric factor. *)
Definition evaluation_kernel (cfg : kernel_config) (U : list (list vec)) :
    list vec :=
  (λ e, integrate (fe_of cfg)
     ((λ q, entry (J_of cfg) e q * num_value (qf_at cfg e q (plain_args cfg U e q)))
      <$> seq 0 (quadrature_points_per_element cfg)))
  <$> seq 0 (num_elements cfg).

(** Modelled from the spec: [EvaluationKernel{DerivativeWRT<i>{},
    eval_config, qf_derivatives, J, X, N, num_elements, qf}].  Section
    4.3, AD-evaluation: identical, but the input of the selected trial
    field is wrapped via [make_dual]; the primal part produces the
    residual and the gradient part is written into the derivative cache
    of that trial field. *)
Definition evaluation_kernel_AD (cfg : kernel_config) (i : nat)
    (U : list (list vec)) : list vec * cache :=
  let out e q := qf_at cfg e q (dual_args cfg i U e q) in
  ((λ e, integrate (fe_of cfg)
      ((λ q, entry (J_of cfg) e q * num_value (out e q))
       <$> seq 0 (quadrature_points_per_element cfg)))
   <$> seq 0 (num_elements cfg),
   (λ e, (λ q, num_gradient (trial_dim (fe_of cfg) i) (out e q))
         <$> seq 0 (quadrature_points_per_element cfg))
   <$> seq 0 (num_elements cfg)).

(** Modelled from the spec: the Jacobian-vector products at the
    quadrature points of element [e], by [chain_rule] from the cached
    derivatives. *)
Definition jvp_at (cfg : kernel_config) (i : nat) (qf_derivatives : cache)
    (dU : list vec) (e : nat) : list double :=
  (λ q, entry (J_of cfg) e q
        * chain_rule [trial_dim (fe_of cfg) i] ((qf_derivatives !!! e) !!! q)
            (trial_arg (fe_of cfg) i (dU !!! e) q))
  <$> seq 0 (quadrature_points_per_element cfg).

(** Modelled from the spec: [action_of_gradient_kernel].  Section 4.3:
    reads the derivative cache and, for a direction, computes the
    Jacobian-vector product at each quadrature point, assembled into an
    output of the shape of the residual. *)
Definition action_of_gradient_kernel (cfg : kernel_config) (i : nat)
    (qf_derivatives : cache) (dU : list vec) : list vec :=
  (λ e, integrate (fe_of cfg) (jvp_at cfg i qf_derivatives dU e))
  <$> seq 0 (num_elements cfg).

(** Modelled from the spec: [element_gradient_kernel].  Section 4.3:
    reads the derivative cache and assembles, for each element, the dense
    local Jacobian block. *)
Definition element_gradient_kernel (cfg : kernel_config) (i : nat)
    (qf_derivatives : cache) : list mat :=
  (λ e, assemble (fe_of cfg) i
     ((λ q, vscale (entry (J_of cfg) e q) ((qf_derivatives !!! e) !!! q))
      <$> seq 0 (quadrature_points_per_element cfg)))
  <$> seq 0 (num_elements cfg).

(** Modelled from the spec: [accelerator::make_shared_array], which is
    not part of the sources.  Section 4.4: before any AD-evaluation pass
    the derivative data is zero-initialized. *)
Definition make_shared_array (d n : nat) : list vec := replicate n (tzero [d]).

(** [ArrayView<derivative_type, 2, exec> qf_derivatives(ptr.get(),
    num_elements, quadrature_points_per_element)] on a fresh array. *)
Definition fresh_cache (d num_elements qpts : nat) : cache :=
  (λ e, take qpts (drop (e * qpts) (make_shared_array d (num_elements * qpts))))
  <$> seq 0 num_elements.

(** A derivative that holds zeros only, as read from a fresh cache. *)
Definition zero_derivative (g : vec) : Prop := ∀ k, g !!! k = 0.

(** ** The boundary integral *)

(** The type-erased handles.  A [std::function] over the arrays of the
    integral: it is given the arrays and returns them with its output. *)
Abbreviation evaluation_fn := (list (list vec) → store → list vec * store).
Abbreviation gradient_fn := (list vec → store → list vec * store).
Abbreviation element_gradient_fn := (store → list mat * store).

(** A data member that holds handles: one [std::function], or an array
    [std::function<...> m[num_trial_spaces]] of them. *)
Inductive member (K : Type) : Type :=
  | Single (k : K)
  | Array (ks : list K).

Arguments Single {K} _.
Arguments Array {K} _.

(** [m(args...)]: only a [std::function] has a call operator. *)
Definition call {K : Type} (m : member K) : option K :=
  match m with
  | Single k => Some k
  | Array _ => None
  end.

(** [m[which]]: only an array has a subscript, and only within its
    bounds. *)
Definition subscript {K : Type} (m : member K) (which : Z) : option K :=
  match m with
  | Single _ => None
  | Array ks => if bool_decide (0 ≤ which)%Z then ks !! Z.to_nat which else None
  end.

(** [class BoundaryIntegral<test(trials...), exec>]. *)
Record BoundaryIntegral : Type :=
  { num_trial_spaces : nat;
    J_ : list (list double);
    X_ : list (list vec);
    normals_ : list (list vec);
    evaluation_ : member evaluation_fn;
    evaluation_with_AD_ : member evaluation_fn;
    action_of_gradient_ : member gradient_fn;
    element_gradient_ : member element_gradient_fn }.

(** The configuration the constructor instantiates its kernels with:
    [quadrature_points_per_element = (dim == 2) ? Q * Q : Q * Q * Q]. *)
Definition make_config (fe : finite_element) (elements dim Q : nat)
    (J : list (list double)) (X N : list (list vec)) (qf : qexpr) :
    kernel_config :=
  {| fe_of := fe; num_elements := elements;
     quadrature_points_per_element :=
       if bool_decide (dim = 2%nat) then (Q * Q)%nat else (Q * Q * Q)%nat;
     J_of := J; X_of := X; N_of := N; qf_of := qf |}.

(** [evaluation_with_AD_[i]]: the AD kernel, writing into the array of
    trial field [i]. *)
Definition evaluation_with_AD_fn (cfg : kernel_config) (i : nat) : evaluation_fn :=
  λ U st,
    let '(R, qf_derivatives) := evaluation_kernel_AD cfg i U in
    (R, <[i := qf_derivatives]> st).

(** [action_of_gradient_[i]] and [element_gradient_[i]]: the gradient
    kernels, reading the array of trial field [i]. *)
Definition action_of_gradient_fn (cfg : kernel_config) (i : nat) : gradient_fn :=
  λ dU st, (action_of_gradient_kernel cfg i (st !!! i) dU, st).

Definition element_gradient_fn_of (cfg : kernel_config) (i : nat) :
    element_gradient_fn :=
  λ st, (element_gradient_kernel cfg i (st !!! i), st).

(** The constructor, for [exec == ExecutionSpace::CPU]; [Q] stands for
    [std::max({test::order, trials::order...}) + 1].  It returns the
    integral together with the arrays it allocated: array [i] is the
    derivative cache of trial field [i]. *)
Definition configure (fe : finite_element) (trials : nat) (elements : nat)
    (dim Q : nat) (J : list (list double)) (X N : list (list vec))
    (qf : qexpr) : BoundaryIntegral * store :=
  let cfg := make_config fe elements dim Q J X N qf in
  ({| num_trial_spaces := trials;
      J_ := J; X_ := X; normals_ := N;
      evaluation_ := Single (λ U st, (evaluation_kernel cfg U, st));
      evaluation_with_AD_ := Array (evaluation_with_AD_fn cfg <$> seq 0 trials);
      action_of_gradient_ := Array (action_of_gradient_fn cfg <$> seq 0 trials);
      element_gradient_ := Array (element_gradient_fn_of cfg <$> seq 0 trials) |},
   (λ i, fresh_cache (trial_dim fe i) elements
           (quadrature_points_per_element cfg)) <$> seq 0 trials).

(** The call expression [Mult] evaluates. *)
Inductive callee : Type :=
  | call_evaluation
  | call_evaluation_with_AD (which : Z).

(** [Mult]: [if (which == -1) evaluation_(...) else
    evaluation_with_AD_[which](...)]. *)
Definition Mult_callee (which : Z) : callee :=
  if bool_decide (which = -1)%Z then call_evaluation
  else call_evaluation_with_AD which.

Definition resolve (I : BoundaryIntegral) (c : callee) : option evaluation_fn :=
  match c with
  | call_evaluation => call (evaluation_ I)
  | call_evaluation_with_AD which => subscript (evaluation_with_AD_ I) which
  end.

(** [BoundaryIntegral::Mult(input_E, output_E, which)]; [None] when the
    call expression has no meaning. *)
Definition Mult (I : BoundaryIntegral) (input_E : list (list vec)) (which : Z)
    (st : store) : option (list vec * store) :=
  match resolve I (Mult_callee which) with
  | Some k => Some (k input_E st)
  | None => None
  end.

(** [BoundaryIntegral::GradientMult(input_E, output_E, which)]:
    [action_of_gradient_[which](input_E, output_E)]. *)
Definition GradientMult (I : BoundaryIntegral) (input_E : list vec) (which : nat)
    (st : store) : option (list vec * store) :=
  match subscript (action_of_gradient_ I) (Z.of_nat which) with
  | Some k => Some (k input_E st)
  | None => None
  end.

(** [BoundaryIntegral::ComputeElementGradients(K_b)]:
    [element_gradient_(K_b)], the call operator applied to the member
    [element_gradient_] itself. *)
Definition ComputeElementGradients (I : BoundaryIntegral) (st : store) :
    option (list mat * store) :=
  match call (element_gradient_ I) with
  | Some k => Some (k st)
  | None => None
  end.

(** ** A one element example *)

(** One quadrilateral with a single quadrature point, one scalar trial
    field read at the point, and the q-function [f(u) = u * u]. *)
Definition example_fe : finite_element :=
  {| trial_dim := λ _, 1%nat;
     interpolate := λ _ dofs q _, dofs !!! q;
     integrate := λ values, values;
     assemble := λ _ derivatives, derivatives |}.

Definition example_qf : qexpr := QMul (QArg 0 0) (QArg 0 0).

Definition example_integral : BoundaryIntegral * store :=
  configure example_fe 1 1 2 1 [[1]] [[[0; 0]]] [[[0; 1]]] example_qf.

Definition example_input : list (list vec) := [[[lit 3 1]]].

(** ** A 4 by 4 example *)

Definition example_matrix : mat :=
  [[lit 2 1; lit 1 1; lit (-1) 1; lit 1 1];
   [lit (-3) 1; lit (-1) 1; lit 2 1; lit 8 1];
   [lit (-2) 1; lit 4 1; lit 1 1; lit 6 1];
   [lit 1 1; lit 1 1; lit 7 1; lit 2 1]].

(** ** A 3 by 3 example *)

Definition example_matrix3 : mat :=
  [[lit 2 1; lit 1 1; 0];
   [lit 1 1; lit 3 1; lit 1 1];
   [0; lit 1 1; lit 2 1]].

(** ** Builders *)

(** [make_tensor<n1>(f)]. *)
Definition make_tensor1 (n1 : nat) (f : nat → double) : vec :=
  for_ 0 n1 (λ i (A : vec), <[i := f i]> A) (tzero [n1]).

(** [make_tensor<n1, n2, n3>(f)]. *)
Definition make_tensor3 (n1 n2 n3 : nat) (f : nat → nat → nat → double) :
    tensor double [n1; n2; n3] :=
  for_ 0 n1 (λ i, for_ 0 n2 (λ j, for_ 0 n3 (λ k A,
    tset [n1; n2; n3] [i; j; k] (f i j k) A)))
    (tzero [n1; n2; n3]).

(** [make_tensor<n1, n2, n3, n4>(f)]. *)
Definition make_tensor4 (n1 n2 n3 n4 : nat)
    (f : nat → nat → nat → nat → double) : tensor double [n1; n2; n3; n4] :=
  for_ 0 n1 (λ i, for_ 0 n2 (λ j, for_ 0 n3 (λ k, for_ 0 n4 (λ l A,
    tset [n1; n2; n3; n4] [i; j; k; l] (f i j k l) A))))
    (tzero [n1; n2; n3; n4]).

(** [make_tensor<n1, n2>(f)] at an element type [T] other than [double]:
    [tensor<T, n1, n2> A{}] holds the value-initialized [T]. *)
Definition make_tensor2_of {T : Type} `{Inhabited T} (n1 n2 : nat)
    (f : nat → nat → T) : list (list T) :=
  for_ 0 n1 (λ i, for_ 0 n2 (λ j (A : list (list T)),
    <[i := <[j := f i j]> (A !!! i)]> A))
    (replicate n1 (replicate n2 inhabitant)).

(** ** Negation and difference *)

(** [operator-(const tensor<T, m, n...>& A)]. *)
Fixpoint tensor_neg (shape : list nat) :
    tensor double shape → tensor double shape :=
  match shape with
  | [] => λ a, - a
  | m :: ns => λ A : list (tensor double ns),
      for_ 0 m (λ i (B : list (tensor double ns)),
                  <[i := tensor_neg ns (A !!! i)]> B)
           (tzero (m :: ns))
  end.

(** [operator-(const tensor<S, m, n...>& A, const tensor<T, m, n...>& B)]. *)
Fixpoint tensor_sub (shape : list nat) :
    tensor double shape → tensor double shape → tensor double shape :=
  match shape with
  | [] => λ a b, a - b
  | m :: ns => λ A B : list (tensor double ns),
      for_ 0 m (λ i (C : list (tensor double ns)),
                  <[i := tensor_sub ns (A !!! i) (B !!! i)]> C)
           (tzero (m :: ns))
  end.

(** ** More of the [zero] sentinel *)

(** The unary minus of the operand type, which [operator-(zero, T other)]
    calls as [-other]. *)
Class Negate (T : Type) := negate : T → T.

Global Instance double_negate : Negate double := Qcopp.
Global Instance tensor_negate (shape : list nat) : Negate (tensor double shape) :=
  tensor_neg shape.

(** [operator-(zero)], [operator-(zero, zero)], [operator-(zero, T other)]
    and [operator-(T other, zero)]. *)
Definition zero_neg (_ : zero) : zero := Zero.
Definition zero_sub_zero (_ _ : zero) : zero := Zero.
Definition zero_sub_l {T : Type} `{Negate T} (_ : zero) (other : T) : T :=
  negate other.
Definition zero_sub_r {T : Type} (other : T) (_ : zero) : T := other.

(** [operator+=(tensor<T, n...>& A, zero)] and
    [operator-=(tensor<T, n...>& A, zero)]. *)
Definition add_assign_zero {T : Type} (A : T) (_ : zero) : T := A.
Definition sub_assign_zero {T : Type} (A : T) (_ : zero) : T := A.

(** [dot(const T&, zero)] and [dot(zero, const T&)]. *)
Definition dot_zero_r {T : Type} (_ : T) (_ : zero) : zero := Zero.
Definition dot_zero_l {T : Type} (_ : zero) (_ : T) : zero := Zero.

(** [outer(zero, const tensor<T, n>&)] and [outer(const tensor<T, n>&, zero)]. *)
Definition outer_zero_l {T : Type} (_ : zero) (_ : T) : zero := Zero.
Definition outer_zero_r {T : Type} (_ : T) (_ : zero) : zero := Zero.

(** [chain_rule(zero, zero)], [chain_rule(zero, T)] and
    [chain_rule(T, zero)]. *)
Definition chain_rule_zero_zero (_ _ : zero) : zero := Zero.
Definition chain_rule_zero_l {T : Type} (_ : zero) (_ : T) : zero := Zero.
Definition chain_rule_zero_r {T : Type} (_ : T) (_ : zero) : zero := Zero.

(** ** Outer and inner products *)

(** [outer(double A, tensor<T, n> B)]. *)
Definition outer_sv (n : nat) (A : double) (B : vec) : vec :=
  for_ 0 n (λ i (AB : vec), <[i := A * B !!! i]> AB) (tzero [n]).

(** [outer(const tensor<T, m>& A, double B)]. *)
Definition outer_vs (m : nat) (A : vec) (B : double) : vec :=
  for_ 0 m (λ i (AB : vec), <[i := A !!! i * B]> AB) (tzero [m]).

(** [outer(const tensor<S, m>& A, const tensor<T, n>& B)]. *)
Definition outer_vv (m n : nat) (A B : vec) : mat :=
  for_ 0 m (λ i, for_ 0 n (λ j AB, set_entry i j (A !!! i * B !!! j) AB))
    (tzero [m; n]).

(** [inner(const tensor<S, m, n>& A, const tensor<T, m, n>& B)]. *)
Definition inner (m n : nat) (A B : mat) : double :=
  for_ 0 m (λ i, for_ 0 n (λ j sum, sum + entry A i j * entry B i j)) 0.

(** [dot(const tensor<S, m>& u, const tensor<T, m, n>& A,
    const tensor<U, n>& v)]: vector . matrix . vector. *)
Definition dot_vmv (m n : nat) (u : vec) (A : mat) (v : vec) : double :=
  for_ 0 m (λ i, for_ 0 n (λ j uAv, uAv + u !!! i * entry A i j * v !!! j)) 0.

(** [ddot(const tensor<S, m, n, p, q>& A, const tensor<T, p, q>& B)]. *)
Definition ddot_42 (m n p q : nat) (A : list (list mat)) (B : mat) : mat :=
  for_ 0 m (λ i, for_ 0 n (λ j, for_ 0 p (λ k, for_ 0 q (λ l AB,
    set_entry i j
      (entry AB i j + entry ((A !!! i) !!! j) k l * entry B k l) AB))))
    (tzero [m; n]).

(** [ddot(const tensor<S, m, n, p>& A, const tensor<T, n, p>& B)]. *)
Definition ddot_32 (m n p : nat) (A : list mat) (B : mat) : vec :=
  for_ 0 m (λ i, for_ 0 n (λ j, for_ 0 p (λ k (AB : vec),
    <[i := AB !!! i + entry (A !!! i) j k * entry B j k]> AB)))
    (tzero [m]).

(** [ddot(const tensor<S, m, n>& A, const tensor<T, m, n>& B)]. *)
Definition ddot_22 (m n : nat) (A B : mat) : double :=
  for_ 0 m (λ i, for_ 0 n (λ j AB, AB + entry A i j * entry B i j)) 0.

(** ** Squared norm *)

(** [sqnorm(const tensor<T, m>& A)]. *)
Definition sqnorm_v (m : nat) (A : vec) : double :=
  for_ 0 m (λ i total, total + A !!! i * A !!! i) 0.

(** [sqnorm(const tensor<T, m, n>& A)]. *)
Definition sqnorm_m (m n : nat) (A : mat) : double :=
  for_ 0 m (λ i, for_ 0 n (λ j total, total + entry A i j * entry A i j)) 0.

(** [sqnorm(const tensor<T, n...>& A)]: the overload for the other
    shapes, over [for_constexpr<n...>]. *)
Definition sqnorm_t (shape : list nat) (A : tensor double shape) : double :=
  for_constexpr shape (λ I total, total + tget shape A I * tget shape A I) 0.

(** ** Symmetric part, antisymmetric part, transpose *)

(** [sym(const tensor<T, n, n>& A)]. *)
Definition sym (n : nat) (A : mat) : mat :=
  for_ 0 n (λ i, for_ 0 n (λ j symA,
    set_entry i j (lit 1 2 * (entry A i j + entry A j i)) symA))
    (tzero [n; n]).

(** [antisym(const tensor<T, n, n>& A)]. *)
Definition antisym (n : nat) (A : mat) : mat :=
  for_ 0 n (λ i, for_ 0 n (λ j antisymA,
    set_entry i j (lit 1 2 * (entry A i j - entry A j i)) antisymA))
    (tzero [n; n]).

(** [transpose(const tensor<T, m, n>& A)]. *)
Definition transpose (m n : nat) (A : mat) : mat :=
  for_ 0 n (λ i, for_ 0 m (λ j AT, set_entry i j (entry A j i) AT))
    (tzero [n; m]).

(** ** Linear solve *)

(** [swap(x, y)] on two entries of one vector. *)
Definition swap_entries (r1 r2 : nat) (b : vec) : vec :=
  let tmp := b !!! r1 in
  let b := <[r1 := b !!! r2]> b in
  <[r2 := tmp]> b.

(** The loop of [linear_solve] that zeroes the entries below the
    diagonal in column [i], for parameters [A] and [b] declared [dA] and
    [db]. *)
Definition checked_eliminate_below_rhs (dA db : declared) (n i : nat)
    (Ab : mat * vec) : option (mat * vec) :=
  for_opt (i + 1) n (λ j '(A, b),
    let c := - entry A j i / entry A i i in
    A ← assign dA
          (<[j := add_assign [n] (A !!! j) (scale_l [n] c (A !!! i))]> A);
    b ← assign db (<[j := b !!! j + c * b !!! i]> b);
    A ← assign dA (set_entry j i 0 A);
    Some (A, b)) Ab.

(** One iteration of the elimination loop of [linear_solve]: the search
    for the pivot, [swap(b[max_row], b[i])], [swap(A[max_row], A[i])],
    and the loop over the rows below. *)
Definition checked_forward_step_rhs (dA db : declared) (n i : nat)
    (Ab : mat * vec) : option (mat * vec) :=
  let '(A, b) := Ab in
  let '(_, max_row) := find_pivot n i A in
  b ← assign db (swap_entries max_row i b);
  A ← assign dA (swap_rows max_row i A);
  checked_eliminate_below_rhs dA db n i (A, b).

(** One iteration of the upper triangular solve of [linear_solve]; [x]
    is a local. *)
Definition checked_backward_step_rhs (db : declared) (i : nat) (A : mat)
    (bx : vec * vec) : option (vec * vec) :=
  let '(b, x) := bx in
  let x := <[i := b !!! i / entry A i i]> x in
  b ← for_down_opt i 0 (λ j (b : vec),
         assign db (<[j := b !!! j - entry A j i * x !!! i]> b)) b;
  Some (b, x).

(** The body of [linear_solve], Gauss elimination with partial pivoting,
    for parameters [A] and [b] declared [dA] and [db]. *)
Definition linear_solve_body (dA db : declared) (n : nat) (A : mat)
    (b : vec) : option vec :=
  let x := tzero [n] in
  '(A, b) ← for_opt 0 n (checked_forward_step_rhs dA db n) (A, b);
  '(_, x) ← for_down_opt n 0 (λ i, checked_backward_step_rhs db i A) (b, x);
  Some x.

(** [linear_solve(tensor<T, n, n> A, const tensor<T, n> b)]: [A] is
    passed by value, [b] by value and const.  The note of the source
    says that [A] and [b] are by-value as they are mutated as part of
    the elimination. *)
Definition linear_solve (n : nat) (A : mat) (b : vec) : option vec :=
  linear_solve_body by_value const_by_value n A b.

(** *** The elimination on a right-hand side passed by value *)

(** The loop that zeroes the entries below the diagonal in column [i],
    on a matrix and a right-hand side that are both assignable. *)
Definition eliminate_below_rhs (n i : nat) (Ab : mat * vec) : mat * vec :=
  for_ (i + 1) n (λ j '(A, b),
    let c := - entry A j i / entry A i i in
    let A := <[j := add_assign [n] (A !!! j) (scale_l [n] c (A !!! i))]> A in
    let b := <[j := b !!! j + c * b !!! i]> b in
    let A := set_entry j i 0 A in
    (A, b)) Ab.

(** One iteration of the elimination loop, likewise. *)
Definition forward_step_rhs (n i : nat) (Ab : mat * vec) : mat * vec :=
  let '(A, b) := Ab in
  let '(_, max_row) := find_pivot n i A in
  let b := swap_entries max_row i b in
  let A := swap_rows max_row i A in
  eliminate_below_rhs n i (A, b).

(** One iteration of the upper triangular solve, likewise. *)
Definition backward_step_rhs (i : nat) (A : mat) (bx : vec * vec) : vec * vec :=
  let '(b, x) := bx in
  let x := <[i := b !!! i / entry A i i]> x in
  let b := for_down i 0 (λ j (b : vec),
             <[j := b !!! j - entry A j i * x !!! i]> b) b in
  (b, x).

(** What the statements of [linear_solve] compute when [b] is passed by
    value and not const. *)
Definition linear_solve_by_value (n : nat) (A : mat) (b : vec) : vec :=
  let x := tzero [n] in
  let '(A, b) := for_ 0 n (forward_step_rhs n) (A, b) in
  let '(_, x) := for_down n 0 (λ i, backward_step_rhs i A) (b, x) in
  x.

(** ** Inverse of a matrix of dual numbers *)

(** The tensor that [inv] builds on a matrix of dual numbers once it
    has the inverse [invA] of the values:
    [make_tensor<n, n>([&](int i, int j) { ... })]. *)
Definition inv_dual_result (n : nat) (gs : list nat) (invA : mat)
    (A : list (list (dual (tensor double gs)))) :
    list (list (dual (tensor double gs))) :=
  make_tensor2_of n n (λ i j,
    let value := entry invA i j in
    let grad := tzero gs in
    let grad :=
      for_ 0 n (λ k, for_ 0 n (λ l grad,
        sub_assign gs grad
          (scale_r gs (entry invA l j)
             (scale_l gs (entry invA i k) (gradient ((A !!! k) !!! l))))))
        grad in
    mk_dual value grad).

(** [inv(tensor<dual<gradient_type>, n, n> A)], with [gradient_type] a
    [tensor<double, gs...>] (or [double], for the empty [gs]); the call
    [inv(get_value(A))] selects an overload on [tensor<double, n, n>]. *)
Definition inv_dual (n : nat) (gs : list nat)
    (A : list (list (dual (tensor double gs)))) :
    option (list (list (dual (tensor double gs)))) :=
  invA ← inv n (get_value [n; n] A);
  Some (inv_dual_result n gs invA A).

(** ** Norm *)

(** [norm(const tensor<T, n...>& A)]: [sqrt(sqnorm(A))].  [std::sqrt]
    has no counterpart on the rationals, so the square root is a
    parameter [sqrt_] of the model.  Which overload of [sqnorm] is
    selected depends on the order of [A]; they are the same sum. *)
Definition norm (sqrt_ : double → double) (shape : list nat)
    (A : tensor double shape) : double :=
  sqrt_ (sqnorm_t shape A).

(** [normalize(const tensor<T, n...>& A)]: [A / norm(A)]. *)
Definition normalize (sqrt_ : double → double) (shape : list nat)
    (A : tensor double shape) : tensor double shape :=
  div_r shape (norm sqrt_ shape A) A.

(** ** Chopping small entries *)

(** The bound [1.0e-20] of [chop]. *)
Definition chop_bound : double := lit 1 100000000000000000000.

(** The bound [1.0e-10] that the documentation of [chop] names:
    entries with [|x| < 1.0e-10] are replaced by zero. *)
Definition chop_tolerance : double := lit 1 10000000000.

(** [chop(const tensor<double, n>& A)]. *)
Definition chop_v (n : nat) (A : vec) : vec :=
  let copy := A in
  for_ 0 n (λ i (copy : vec),
    if ltb (copy !!! i * copy !!! i) chop_bound then <[i := 0]> copy else copy)
    copy.

(** [chop(const tensor<double, m, n>& A)]. *)
Definition chop_m (m n : nat) (A : mat) : mat :=
  let copy := A in
  for_ 0 m (λ i, for_ 0 n (λ j copy,
    if ltb (entry copy i j * entry copy i j) chop_bound
    then set_entry i j 0 copy else copy))
    copy.

(** ** The other overloads of the chain rule *)

(** [chain_rule(const double df_dx, const double dx)]. *)
Definition chain_rule_dd (df_dx dx : double) : double := df_dx * dx.

(** [chain_rule(const tensor<double, n...>& df_dx, const double dx)]. *)
Definition chain_rule_td (shape : list nat) (df_dx : tensor double shape)
    (dx : double) : tensor double shape :=
  scale_r shape dx df_dx.

(** [chain_rule(const tensor<double, m, n...>& df_dx,
    const tensor<double, n...>& dx)]: a vector-valued function. *)
Definition chain_rule_vec (m : nat) (ns : list nat)
    (df_dx : list (tensor double ns)) (dx : tensor double ns) : vec :=
  for_ 0 m (λ i (total : vec), <[i := chain_rule ns (df_dx !!! i) dx]> total)
    (tzero [m]).

(** [chain_rule(const tensor<double, m, n, p...>& df_dx,
    const tensor<double, p...>& dx)]: a matrix-valued function. *)
Definition chain_rule_mat (m n : nat) (ps : list nat)
    (df_dx : list (list (tensor double ps))) (dx : tensor double ps) : mat :=
  for_ 0 m (λ i, for_ 0 n (λ j total,
    set_entry i j (chain_rule ps ((df_dx !!! i) !!! j) dx) total))
    (tzero [m; n]).

(** ** Filter views *)

(** [FilterView<Iter, Pred>] of [boundary_condition_manager.hpp], over a
    container [c].  An iterator is a position in [c]; it can be
    dereferenced inside the container only, so reading [*it] at another
    position has no result. *)
Section filter_view.
Context {T : Type} (pred_ : T → bool).

(** [*curr_]. *)
Definition deref (c : list T) (curr : nat) : option T := c !! curr.

(** The loop [while] [curr != end] [&&] [!pred] of [*curr], with body
    [++curr], of the constructor and of [operator++].  [rest] holds
    the elements of the container from [curr] on; every turn of the
    loop consumes one of them, which is why the loop ends. *)
Fixpoint skip_from (rest : list T) (curr end_ : nat) : option nat :=
  if bool_decide (curr ≠ end_) then
    match rest with
    | [] => None
    | x :: rest =>
        if negb (pred_ x) then skip_from rest (S curr) end_ else Some curr
    end
  else Some curr.

Definition skip (c : list T) (curr end_ : nat) : option nat :=
  skip_from (drop curr c) curr end_.

(** [FilterViewIterator]: the fields [curr_] and [end_]. *)
Record FilterViewIterator : Type :=
  { curr_ : nat; it_end_ : nat }.

(** [FilterView]: the fields [begin_] and [end_]. *)
Record FilterView : Type :=
  { begin_ : nat; end_ : nat }.

(** The constructor [FilterView(Iter begin, Iter end, Pred&& pred)]. *)
Definition make_FilterView (c : list T) (begin end' : nat) :
    option FilterView :=
  match skip c begin end' with
  | Some b => Some {| begin_ := b; end_ := end' |}
  | None => None
  end.

(** [FilterView::begin()] and [FilterView::end()]. *)
Definition view_begin (v : FilterView) : FilterViewIterator :=
  {| curr_ := begin_ v; it_end_ := end_ v |}.
Definition view_end (v : FilterView) : FilterViewIterator :=
  {| curr_ := end_ v; it_end_ := end_ v |}.

(** [FilterViewIterator::operator++()]. *)
Definition incr (c : list T) (it : FilterViewIterator) :
    option FilterViewIterator :=
  match skip c (S (curr_ it)) (it_end_ it) with
  | Some p => Some {| curr_ := p; it_end_ := it_end_ it |}
  | None => None
  end.

(** [FilterViewIterator::operator*()]. *)
Definition star (c : list T) (it : FilterViewIterator) : option T :=
  deref c (curr_ it).

(** [FilterViewIterator::operator!=(other)]. *)
Definition it_ne (it other : FilterViewIterator) : bool :=
  bool_decide (curr_ it ≠ curr_ other).

(** The range-based loop [for (auto& x : view) out.push_back(x);]:
    [it = view.begin()], and while [it != view.end()], [*it] is read
    and [++it] is applied.  [fuel] bounds the number of turns; the
    result is [None] when it runs out or when a position outside the
    container is read. *)
Fixpoint visit (fuel : nat) (c : list T) (it last : FilterViewIterator) :
    option (list T) :=
  match fuel with
  | O => None
  | S fuel =>
      if it_ne it last then
        match star c it with
        | None => None
        | Some x =>
            match incr c it with
            | None => None
            | Some it' =>
                match visit fuel c it' last with
                | Some xs => Some (x :: xs)
                | None => None
                end
            end
        end
      else Some []
  end.

Definition elements_of (fuel : nat) (c : list T) (v : FilterView) :
    option (list T) :=
  visit fuel c (view_begin v) (view_end v).
End filter_view.

(** ** Vocabulary of the contraction proofs *)

(** The sum of [g] over the multi-indices of the box [shape], in the
    order of [for_constexpr]. *)
Fixpoint sum_box (shape : list nat) (g : list nat → double) : double :=
  match shape with
  | [] => g []
  | n :: ns => sum_n n (λ i, sum_box ns (λ I, g (i :: I)))
  end.

(** ** A square root for the examples *)

(** The integer square roots of the numerator and of the denominator:
    exact on the squares of rationals. *)
Definition example_sqrt (x : double) : double :=
  Q2Qc (Z.sqrt (Qnum x) # Pos.sqrt (Qden x)).

(** ** A 2 by 2 example with derivatives *)

(** The matrix [[2, 1], [1, 1]], with the derivatives [1] and [3] on
    its diagonal. *)
Definition example_dual_matrix : list (list (dual (tensor double []))) :=
  [[mk_dual (lit 2 1) (lit 1 1); mk_dual (lit 1 1) 0];
   [mk_dual (lit 1 1) 0; mk_dual (lit 1 1) (lit 3 1)]].

(** ** Vocabulary of the proofs about the statements of [linear_solve] *)

(** The right-hand side [b] is the product of [B] with the original
    right-hand side [b0]. *)
Definition rhs_of (n : nat) (B : mat) (b0 b : vec) : Prop :=
  length b = n
  ∧ ∀ r, (r < n)%nat → b !!! r = sum_n n (λ k, entry B r k * b0 !!! k).

(** The elimination of [linear_solve] on [(A, b)] runs in step with the
    elimination of [inv] on [(A, B)]: the matrices [A] are the same, and
    [b] is [B b0]. *)
Definition forward_sim (n : nat) (b0 : vec) (AB : mat * mat)
    (Ab : mat * vec) : Prop :=
  Ab.1 = AB.1 ∧ is_mat n n AB.1 ∧ is_mat n n AB.2 ∧ rhs_of n AB.2 b0 Ab.2.

(** The upper triangular solves run in step, when the rows
    [i, ..., n - 1] are done: the entries of [x] that are set, and the
    entries of [b] that are still to be used, are those of [B b0]. *)
Definition backward_sim (n : nat) (b0 : vec) (i : nat) (B : mat)
    (bx : vec * vec) : Prop :=
  is_mat n n B ∧ length bx.1 = n ∧ length bx.2 = n
  ∧ (∀ r, (i ≤ r < n)%nat →
       bx.2 !!! r = sum_n n (λ k, entry B r k * b0 !!! k))
  ∧ (∀ r, (r < i)%nat →
       bx.1 !!! r = sum_n n (λ k, entry B r k * b0 !!! k)).

(** * Properties *)

(** ** Order on scalars *)

(** Linear arithmetic on [Qc], through the rationals it is made of. *)
Ltac qc_lra :=
  unfold Qcle, Qclt, Qcminus, Qcplus, Qcopp, Qcmult, Q2Qc in *; cbn [this] in *;
  rewrite ?Qred_correct in *; lra.

Lemma ltb_spec (x y : double) : ltb x y = true ↔ x < y.
Proof. unfold ltb. apply bool_decide_eq_true. Qed.

Lemma ltb_false (x y : double) : ltb x y = false ↔ y ≤ x.
Proof. unfold ltb. rewrite bool_decide_eq_false. symmetry. apply Qcle_ngt. Qed.

Lemma gtb_spec (x y : double) : gtb x y = true ↔ y < x.
Proof. unfold gtb. apply bool_decide_eq_true. Qed.

Lemma gtb_false (x y : double) : gtb x y = false ↔ x ≤ y.
Proof. unfold gtb. rewrite bool_decide_eq_false. symmetry. apply Qcle_ngt. Qed.

Lemma neqb_spec (x y : double) : neqb x y = true ↔ x ≠ y.
Proof.
  unfold neqb. rewrite negb_true_iff, bool_decide_eq_false. done.
Qed.

Lemma neqb_false (x y : double) : neqb x y = false ↔ x = y.
Proof.
  unfold neqb. rewrite negb_false_iff, bool_decide_eq_true. done.
Qed.

Lemma abs_0 : abs 0 = 0.
Proof. by apply Qc_is_canon. Qed.

Lemma abs_opp (x : double) : abs (- x) = abs x.
Proof.
  unfold abs, ltb. repeat case_bool_decide; try done; try ring.
  - exfalso. qc_lra.
  - apply Qcle_antisym; qc_lra.
Qed.

Lemma abs_minus_sym (x y : double) : abs (x - y) = abs (y - x).
Proof. rewrite <- abs_opp. f_equal. ring. Qed.

Lemma abs_nonneg (x : double) : 0 ≤ abs x.
Proof. unfold abs, ltb. case_bool_decide; qc_lra. Qed.

Lemma abs_le_0 (x : double) : abs x ≤ 0 → x = 0.
Proof.
  unfold abs, ltb. case_bool_decide; intros Hle; apply Qcle_antisym; qc_lra.
Qed.

(** ** Loops *)

Lemma for_nil {S : Type} (lo hi : nat) (body : nat → S → S) (s : S) :
  (hi ≤ lo)%nat → for_ lo hi body s = s.
Proof.
  intros Hle. unfold for_. by replace (hi - lo)%nat with 0%nat by lia.
Qed.

Lemma for_S {S : Type} (lo hi : nat) (body : nat → S → S) (s : S) :
  (lo ≤ hi)%nat → for_ lo (Datatypes.S hi) body s = body hi (for_ lo hi body s).
Proof.
  intros Hle. unfold for_.
  replace (Datatypes.S hi - lo)%nat with (Datatypes.S (hi - lo)) by lia.
  rewrite seq_S, fold_left_app. simpl. by replace (lo + (hi - lo))%nat with hi by lia.
Qed.

(** The invariant rule of an upward loop. *)
Lemma for_ind {S : Type} (P : nat → S → Prop) (lo hi : nat)
    (body : nat → S → S) (s : S) :
  (lo ≤ hi)%nat →
  P lo s →
  (∀ i s, (lo ≤ i < hi)%nat → P i s → P (Datatypes.S i) (body i s)) →
  P hi (for_ lo hi body s).
Proof.
  intros Hle H0 Hstep. induction hi as [|hi IH].
  - rewrite for_nil by lia. by replace 0%nat with lo by lia.
  - destruct (decide (lo = Datatypes.S hi)) as [->|Hne].
    + by rewrite for_nil by lia.
    + rewrite for_S by lia. apply Hstep; [lia|]. apply IH; [lia|].
      intros i s' Hi. apply Hstep. lia.
Qed.

(** The same rule with a consequence step. *)
Lemma for_inv {S : Type} (P : nat → S → Prop) (Q : S → Prop) (lo hi : nat)
    (body : nat → S → S) (s : S) :
  (lo ≤ hi)%nat →
  P lo s →
  (∀ i s, (lo ≤ i < hi)%nat → P i s → P (Datatypes.S i) (body i s)) →
  (∀ s, P hi s → Q s) →
  Q (for_ lo hi body s).
Proof. intros Hle H0 Hstep Hpost. by apply Hpost, for_ind. Qed.

Lemma for_ext {S : Type} (lo hi : nat) (f g : nat → S → S) (s : S) :
  (∀ i s, (lo ≤ i < hi)%nat → f i s = g i s) →
  for_ lo hi f s = for_ lo hi g s.
Proof.
  intros Hfg. destruct (decide (lo ≤ hi)%nat) as [Hle|Hgt].
  - induction hi as [|hi IH].
    + by rewrite !for_nil by lia.
    + destruct (decide (lo = Datatypes.S hi)) as [->|Hne].
      * by rewrite !for_nil by lia.
      * rewrite !for_S by lia. rewrite IH; [|intros; apply Hfg; lia|lia].
        apply Hfg. lia.
  - by rewrite !for_nil by lia.
Qed.

Lemma for_down_nil {S : Type} (hi lo : nat) (body : nat → S → S) (s : S) :
  (hi ≤ lo)%nat → for_down hi lo body s = s.
Proof.
  intros Hle. unfold for_down. by replace (hi - lo)%nat with 0%nat by lia.
Qed.

Lemma for_down_S {S : Type} (hi lo : nat) (body : nat → S → S) (s : S) :
  (lo ≤ hi)%nat →
  for_down (Datatypes.S hi) lo body s = for_down hi lo body (body hi s).
Proof.
  intros Hle. unfold for_down.
  replace (Datatypes.S hi - lo)%nat with (Datatypes.S (hi - lo)) by lia.
  rewrite seq_S, rev_app_distr. simpl.
  by replace (lo + (hi - lo))%nat with hi by lia.
Qed.

(** The invariant rule of a downward loop: [P i] holds when the
    iterations [hi - 1, ..., i] are done. *)
Lemma for_down_ind {S : Type} (P : nat → S → Prop) (hi lo : nat)
    (body : nat → S → S) (s : S) :
  (lo ≤ hi)%nat →
  P hi s →
  (∀ i s, (lo ≤ i < hi)%nat → P (Datatypes.S i) s → P i (body i s)) →
  P lo (for_down hi lo body s).
Proof.
  intros Hle. revert s. induction hi as [|hi IH]; intros s H0 Hstep.
  - rewrite for_down_nil by lia. by replace lo with 0%nat by lia.
  - destruct (decide (lo = Datatypes.S hi)) as [->|Hne].
    + by rewrite for_down_nil by lia.
    + rewrite for_down_S by lia. apply IH; [lia| |].
      * apply Hstep; [lia|done].
      * intros i s' Hi. apply Hstep. lia.
Qed.

Lemma for_down_inv {S : Type} (P : nat → S → Prop) (Q : S → Prop) (hi lo : nat)
    (body : nat → S → S) (s : S) :
  (lo ≤ hi)%nat →
  P hi s →
  (∀ i s, (lo ≤ i < hi)%nat → P (Datatypes.S i) s → P i (body i s)) →
  (∀ s, P lo s → Q s) →
  Q (for_down hi lo body s).
Proof. intros Hle H0 Hstep Hpost. by apply Hpost, for_down_ind. Qed.

(** [loop_inv P]: reason on the loop of the goal with the invariant [P].
    The subgoals are: the bounds, the invariant on entry, its
    preservation by the body, and the goal from the invariant on exit. *)
Ltac loop_inv P :=
  lazymatch goal with
  | |- context [for_ ?lo ?hi ?body ?s] =>
      pattern (for_ lo hi body s); apply (for_inv P)
  | |- context [for_down ?hi ?lo ?body ?s] =>
      pattern (for_down hi lo body s); apply (for_down_inv P)
  end.

(** ** Loops whose body may have no result *)

(** A loop whose iterations all have a result runs as the plain loop. *)
Lemma for_opt_Some {S : Type} (lo hi : nat) (f : nat → S → option S)
    (g : nat → S → S) (s : S) :
  (∀ i s, (lo ≤ i < hi)%nat → f i s = Some (g i s)) →
  for_opt lo hi f s = Some (for_ lo hi g s).
Proof.
  intros Hfg. unfold for_opt. destruct (decide (lo ≤ hi)%nat) as [Hle|Hgt].
  - induction hi as [|hi IH].
    + by rewrite !for_nil by lia.
    + destruct (decide (lo = Datatypes.S hi)) as [->|Hne].
      * by rewrite !for_nil by lia.
      * rewrite !for_S by lia. rewrite IH; [|intros; apply Hfg; lia|lia].
        simpl. apply Hfg. lia.
  - by rewrite !for_nil by lia.
Qed.

Lemma for_down_opt_Some {S : Type} (hi lo : nat) (f : nat → S → option S)
    (g : nat → S → S) (s : S) :
  (∀ i s, (lo ≤ i < hi)%nat → f i s = Some (g i s)) →
  for_down_opt hi lo f s = Some (for_down hi lo g s).
Proof.
  intros Hfg. unfold for_down_opt.
  destruct (decide (lo ≤ hi)%nat) as [Hle|Hgt].
  - revert s. induction hi as [|hi IH]; intros s.
    + by rewrite !for_down_nil by lia.
    + destruct (decide (lo = Datatypes.S hi)) as [->|Hne].
      * by rewrite !for_down_nil by lia.
      * rewrite !for_down_S by lia. simpl. rewrite Hfg by lia.
        apply IH; [intros; apply Hfg; lia|lia].
  - by rewrite !for_down_nil by lia.
Qed.

(** Once an iteration has no result, neither has the loop. *)
Lemma for_opt_first {S : Type} (lo hi : nat) (f : nat → S → option S) (s : S) :
  (lo < hi)%nat → f lo s = None → for_opt lo hi f s = None.
Proof.
  intros Hlt Hf. unfold for_opt, for_.
  replace (hi - lo)%nat with (Datatypes.S (hi - lo - 1)) by lia.
  simpl. rewrite Hf. generalize (seq (Datatypes.S lo) (hi - lo - 1)).
  intros l. by induction l.
Qed.

(** ** Sums *)

Lemma sum_n_ext (n : nat) (f g : nat → double) :
  (∀ i, (i < n)%nat → f i = g i) → sum_n n f = sum_n n g.
Proof.
  induction n as [|n IH]; intros Hfg; simpl; [done|].
  rewrite IH by (intros; apply Hfg; lia). by rewrite Hfg by lia.
Qed.

Lemma sum_n_zero (n : nat) (f : nat → double) :
  (∀ i, (i < n)%nat → f i = 0) → sum_n n f = 0.
Proof.
  induction n as [|n IH]; intros Hf; simpl; [done|].
  rewrite IH by (intros; apply Hf; lia). rewrite Hf by lia. ring.
Qed.

Lemma sum_n_plus (n : nat) (f g : nat → double) :
  sum_n n (λ i, f i + g i) = sum_n n f + sum_n n g.
Proof. induction n as [|n IH]; simpl; [ring|]. rewrite IH. ring. Qed.

Lemma sum_n_minus (n : nat) (f g : nat → double) :
  sum_n n (λ i, f i - g i) = sum_n n f - sum_n n g.
Proof. induction n as [|n IH]; simpl; [ring|]. rewrite IH. ring. Qed.

Lemma sum_n_scale_l (n : nat) (c : double) (f : nat → double) :
  sum_n n (λ i, c * f i) = c * sum_n n f.
Proof. induction n as [|n IH]; simpl; [ring|]. rewrite IH. ring. Qed.

Lemma sum_n_scale_r (n : nat) (c : double) (f : nat → double) :
  sum_n n (λ i, f i * c) = sum_n n f * c.
Proof. induction n as [|n IH]; simpl; [ring|]. rewrite IH. ring. Qed.

Lemma of_nat_0 : of_nat 0 = 0.
Proof. by apply Qc_is_canon. Qed.

Lemma of_nat_S (n : nat) : of_nat (Datatypes.S n) = of_nat n + 1.
Proof.
  unfold of_nat. apply Qc_is_canon. unfold Qc_of_Z. simpl.
  rewrite Qred_correct. unfold Qeq; simpl. lia.
Qed.

Lemma of_nat_nonzero (n : nat) : (0 < n)%nat → of_nat n ≠ 0.
Proof.
  intros Hn Heq. apply (f_equal this) in Heq. unfold of_nat, Qc_of_Z in Heq.
  simpl in Heq. injection Heq. lia.
Qed.

Lemma sum_n_const (n : nat) (c : double) : sum_n n (λ _, c) = of_nat n * c.
Proof.
  induction n as [|n IH]; simpl.
  - rewrite of_nat_0. ring.
  - rewrite IH, of_nat_S. ring.
Qed.

(** A sum with one nonzero term. *)
Lemma sum_n_single (n k : nat) (f : nat → double) :
  (k < n)%nat → (∀ i, (i < n)%nat → i ≠ k → f i = 0) → sum_n n f = f k.
Proof.
  induction n as [|n IH]; intros Hk Hf; [lia|]. simpl.
  destruct (decide (k = n)) as [->|Hne].
  - rewrite sum_n_zero; [ring|]. intros i Hi. apply Hf; lia.
  - rewrite IH by (try lia; intros; apply Hf; lia).
    rewrite (Hf n) by lia. ring.
Qed.

Lemma sum_n_exchange (m n : nat) (f : nat → nat → double) :
  sum_n m (λ i, sum_n n (λ j, f i j)) = sum_n n (λ j, sum_n m (λ i, f i j)).
Proof.
  induction m as [|m IH]; simpl.
  - symmetry. by apply sum_n_zero.
  - rewrite IH, <- sum_n_plus. done.
Qed.

(** An accumulation loop computes the sum of its terms. *)
Lemma for_sum (n : nat) (f : nat → double) (a : double) :
  for_ 0 n (λ i acc, acc + f i) a = a + sum_n n f.
Proof.
  induction n as [|n IH]; simpl.
  - rewrite for_nil by lia. ring.
  - rewrite for_S by lia. rewrite IH. ring.
Qed.

(** ** Matrices as nested arrays *)

Lemma is_mat_tzero (m n : nat) : is_mat m n (tzero [m; n]).
Proof.
  split; simpl.
  - apply length_replicate.
  - apply Forall_replicate, length_replicate.
Qed.

Lemma is_mat_row (m n : nat) (A : mat) (r : nat) :
  is_mat m n A → (r < m)%nat → length (A !!! r) = n.
Proof.
  intros [Hlen Hrows] Hr.
  rewrite Forall_lookup in Hrows. apply (Hrows r).
  apply list_lookup_lookup_total_lt. lia.
Qed.

Lemma is_mat_insert (m n : nat) (A : mat) (r : nat) (row : vec) :
  is_mat m n A → length row = n → is_mat m n (<[r := row]> A).
Proof.
  intros [Hlen Hrows] Hrow. split.
  - by rewrite length_insert.
  - by apply Forall_insert.
Qed.

Lemma is_mat_set_entry (m n : nat) (A : mat) (r c : nat) (v : double) :
  is_mat m n A → is_mat m n (set_entry r c v A).
Proof.
  intros HA. unfold set_entry.
  destruct (decide (r < m)%nat) as [Hr|Hr].
  - apply is_mat_insert; [done|]. rewrite length_insert. by eapply is_mat_row.
  - rewrite list_insert_ge; [done|]. destruct HA. lia.
Qed.

Lemma entry_tzero (m n r c : nat) : entry (tzero [m; n]) r c = 0.
Proof.
  unfold entry. change (tzero [m; n]) with (replicate m (replicate n (0 : double))).
  destruct (decide (r < m)%nat) as [Hr|Hr].
  - rewrite lookup_total_replicate_2 by done.
    destruct (decide (c < n)%nat) as [Hc|Hc].
    + by rewrite lookup_total_replicate_2.
    + rewrite list_lookup_total_alt, (proj1 (lookup_replicate_None _ _ _)); [done|lia].
  - rewrite (list_lookup_total_alt (replicate m _)).
    rewrite (proj1 (lookup_replicate_None _ _ _)); [done|lia].
Qed.

Lemma entry_set_entry_eq (m n : nat) (A : mat) (r c : nat) (v : double) :
  is_mat m n A → (r < m)%nat → (c < n)%nat → entry (set_entry r c v A) r c = v.
Proof.
  intros HA Hr Hc. unfold entry, set_entry.
  rewrite list_lookup_total_insert_eq by (destruct HA; lia).
  rewrite list_lookup_total_insert_eq; [done|].
  rewrite (is_mat_row m n) by done. lia.
Qed.

Lemma entry_set_entry_ne (A : mat) (r c r' c' : nat) (v : double) :
  r' ≠ r ∨ c' ≠ c → entry (set_entry r c v A) r' c' = entry A r' c'.
Proof.
  intros Hne. unfold entry, set_entry.
  destruct (decide (r' = r)) as [->|Hr].
  - destruct (decide (r < length A)%nat) as [Hlt|Hge].
    + rewrite list_lookup_total_insert_eq by done.
      rewrite list_lookup_total_insert_ne; [done|]. intros ->. by destruct Hne.
    + by rewrite list_insert_ge by lia.
  - by rewrite list_lookup_total_insert_ne.
Qed.

Lemma entry_set_entry (m n : nat) (A : mat) (r c r' c' : nat) (v : double) :
  is_mat m n A → (r < m)%nat → (c < n)%nat →
  entry (set_entry r c v A) r' c'
  = if bool_decide (r' = r ∧ c' = c) then v else entry A r' c'.
Proof.
  intros HA Hr Hc. case_bool_decide as Heq.
  - destruct Heq as [-> ->]. by eapply entry_set_entry_eq.
  - apply entry_set_entry_ne.
    destruct (decide (r' = r)); destruct (decide (c' = c)); naive_solver.
Qed.

(** Two matrices of one shape with the same entries are equal. *)
Lemma mat_ext (m n : nat) (A B : mat) :
  is_mat m n A → is_mat m n B →
  (∀ r c, (r < m)%nat → (c < n)%nat → entry A r c = entry B r c) → A = B.
Proof.
  intros HA HB Heq.
  apply (list_eq_same_length _ _ m); [by destruct HB|by destruct HA|].
  intros r x y Hr Hx Hy.
  apply list_lookup_total_correct in Hx as Hx'.
  apply list_lookup_total_correct in Hy as Hy'.
  assert (length x = n) as Hlx by (subst x; by eapply is_mat_row).
  assert (length y = n) as Hly by (subst y; by eapply is_mat_row).
  apply (list_eq_same_length _ _ n); [done..|].
  intros c a b Hc Ha Hb.
  apply list_lookup_total_correct in Ha, Hb.
  specialize (Heq r c Hr Hc). unfold entry in Heq. congruence.
Qed.

(** A doubly nested loop of entry stores, each entry stored once, builds
    the matrix of the stored values. *)
Lemma for_for_set_entry (m n : nat) (f : nat → nat → double) (A : mat) :
  is_mat m n A →
  let R := for_ 0 m (λ i, for_ 0 n (λ j A, set_entry i j (f i j) A)) A in
  is_mat m n R
  ∧ ∀ r c, (r < m)%nat → (c < n)%nat → entry R r c = f r c.
Proof.
  intros HA R. subst R.
  apply (for_ind (λ i R, is_mat m n R
    ∧ ∀ r c, (r < i)%nat → (c < n)%nat → entry R r c = f r c)); [lia| |].
  - split; [done|]. intros; lia.
  - intros i R Hi [HR Hdone].
    loop_inv (λ j R, is_mat m n R
      ∧ (∀ r c, (r < i)%nat → (c < n)%nat → entry R r c = f r c)
      ∧ (∀ c, (c < j)%nat → entry R i c = f i c)); [lia| | |].
    + split; [done|]. split; [done|]. intros; lia.
    + intros j R' Hj (HR' & Hrows & Hrow). split; [by apply is_mat_set_entry|].
      split.
      * intros r c Hr Hc. rewrite entry_set_entry_ne by lia. by apply Hrows.
      * intros c Hc. rewrite (entry_set_entry m n) by (done || lia).
        case_bool_decide as Heq; [by destruct Heq as [_ ->]|].
        apply Hrow. destruct (decide (c = j)); [naive_solver|lia].
    + intros R' (HR' & Hrows & Hrow). split; [done|].
      intros r c Hr Hc. destruct (decide (r = i)) as [->|Hne].
      * by apply Hrow.
      * apply Hrows; lia.
Qed.

Lemma is_mat_DenseIdentity (n : nat) : is_mat n n (DenseIdentity n).
Proof. apply (for_for_set_entry n n), is_mat_tzero. Qed.

Lemma entry_DenseIdentity (n r c : nat) :
  (r < n)%nat → (c < n)%nat →
  entry (DenseIdentity n) r c = if bool_decide (r = c) then 1 else 0.
Proof.
  intros Hr Hc.
  by apply (for_for_set_entry n n
    (λ i j, if bool_decide (i = j) then 1 else 0) _ (is_mat_tzero n n)).
Qed.

Lemma is_mat_make_tensor2 (n1 n2 : nat) (f : nat → nat → double) :
  is_mat n1 n2 (make_tensor2 n1 n2 f).
Proof. apply (for_for_set_entry n1 n2), is_mat_tzero. Qed.

Lemma entry_make_tensor2 (n1 n2 : nat) (f : nat → nat → double) (r c : nat) :
  (r < n1)%nat → (c < n2)%nat → entry (make_tensor2 n1 n2 f) r c = f r c.
Proof.
  intros Hr Hc. by apply (for_for_set_entry n1 n2 f _ (is_mat_tzero n1 n2)).
Qed.

(** ** Trace and deviator *)

Lemma tr_sum (n : nat) (A : mat) : tr n A = sum_n n (λ i, entry A i i).
Proof. unfold tr. rewrite for_sum. ring. Qed.

Lemma dev_spec (n : nat) (A : mat) :
  is_mat n n A →
  is_mat n n (dev n A)
  ∧ ∀ r c, (r < n)%nat → (c < n)%nat →
      entry (dev n A) r c
      = if bool_decide (r = c) then entry A r c - tr n A / of_nat n
        else entry A r c.
Proof.
  intros HA. unfold dev.
  loop_inv (λ i D, is_mat n n D ∧ ∀ r c, (r < n)%nat → (c < n)%nat →
    entry D r c = if bool_decide (r = c ∧ (r < i)%nat)
                  then entry A r c - tr n A / of_nat n
                  else entry A r c); [lia| | |].
  - split; [done|]. intros r c _ _. case_bool_decide; [lia|done].
  - intros i D Hi [HD Hent]. split; [by apply is_mat_set_entry|].
    intros r c Hr Hc. rewrite (entry_set_entry n n) by (done || lia).
    rewrite (Hent r c), (Hent i i) by lia.
    repeat case_bool_decide; destruct_and?; simplify_eq; try done; try lia;
      exfalso; naive_solver lia.
  - intros D [HD Hent]. split; [done|]. intros r c Hr Hc.
    rewrite Hent by done. repeat case_bool_decide; try done; naive_solver lia.
Qed.

(** C10.  The deviator of an n by n matrix has zero trace in exact
    arithmetic: [tr(dev(A)) == 0]. *)
Theorem dev_traceless (n : nat) (A : mat) :
  is_mat n n A → tr n (dev n A) = 0.
Proof.
  intros HA. destruct (dev_spec n A HA) as [_ Hent].
  rewrite tr_sum.
  rewrite (sum_n_ext _ _ (λ i, entry A i i - tr n A / of_nat n)).
  - rewrite sum_n_minus, sum_n_const, <- tr_sum.
    destruct n as [|n].
    + rewrite tr_sum. simpl. rewrite of_nat_0. ring.
    + field. apply of_nat_nonzero. lia.
  - intros i Hi. rewrite Hent by done. by rewrite bool_decide_eq_true_2.
Qed.

Lemma dev_traceless_witness :
  tr 3 (dev 3 [[lit 2 1; lit 1 1; 0]; [lit (-3) 1; lit (-1) 1; lit 5 1];
               [lit 1 1; lit 1 1; lit 1 1]]) = 0.
Proof. apply dev_traceless. split; [reflexivity|]. repeat constructor. Defined.

(** ** Generic tensors *)

Lemma wf_tfill {T : Type} (x : T) (shape : list nat) : wf shape (tfill x shape).
Proof.
  induction shape as [|n ns IH]; simpl; [done|]. split.
  - apply length_replicate.
  - by apply Forall_replicate.
Qed.

Lemma wf_lookup {T : Type} `{Inhabited T} (n : nat) (ns : list nat)
    (t : list (tensor T ns)) (i : nat) :
  wf (n :: ns) t → (i < n)%nat → wf ns (t !!! i).
Proof.
  intros [Hlen Hall] Hi. rewrite Forall_lookup in Hall. apply (Hall i).
  apply list_lookup_lookup_total_lt. lia.
Qed.

(** A loop that stores [f i] at every index [i] of an array. *)
Lemma for_insert {T : Type} (m : nat) (f : nat → T) (C : list T) :
  length C = m →
  for_ 0 m (λ i C, <[i := f i]> C) C = f <$> seq 0 m.
Proof.
  intros Hlen.
  loop_inv (λ i (R : list T), length R = m
    ∧ ∀ k, (k < i)%nat → R !! k = Some (f k)); [lia| | |].
  - split; [done|]. intros; lia.
  - intros i R Hi [HR Hdone]. split; [by rewrite length_insert|].
    intros k Hk. destruct (decide (k = i)) as [->|Hne].
    + apply list_lookup_insert_eq. lia.
    + rewrite list_lookup_insert_ne by done. apply Hdone. lia.
  - intros R [HR Hdone]. apply (list_eq_same_length _ _ m); [|done|].
    + by rewrite length_fmap, length_seq.
    + intros i x y Hi Hx Hy. rewrite Hdone in Hx by done.
      rewrite list_lookup_fmap, lookup_seq_lt in Hy by done. simpl in Hy.
      congruence.
Qed.

Lemma fmap_lookup_total_seq {T : Type} `{Inhabited T} (l : list T) (n : nat) :
  length l = n → (λ i, l !!! i) <$> seq 0 n = l.
Proof.
  intros <-. apply (list_eq_same_length _ _ (length l)); [done| |].
  - by rewrite length_fmap, length_seq.
  - intros i x y Hi Hx Hy.
    rewrite list_lookup_fmap, lookup_seq_lt in Hx by done. simpl in Hx.
    apply list_lookup_total_correct in Hy. congruence.
Qed.

Lemma fmap_seq_ext {T : Type} (n : nat) (f g : nat → T) :
  (∀ i, (i < n)%nat → f i = g i) → f <$> seq 0 n = g <$> seq 0 n.
Proof.
  intros Hfg. apply list_fmap_ext. intros i x Hx.
  apply lookup_seq in Hx as [-> Hlt]. by apply Hfg.
Qed.

Lemma tzero_cons (n : nat) (ns : list nat) :
  tzero (n :: ns) = replicate n (tzero ns).
Proof. done. Qed.

Lemma length_tzero (n : nat) (ns : list nat) : length (tzero (n :: ns)) = n.
Proof. apply length_replicate. Qed.

(** The elementwise operators as maps over the leading index. *)
Lemma tensor_add_cons (m : nat) (ns : list nat) (A B : list (tensor double ns)) :
  tensor_add (m :: ns) A B
  = (λ i, tensor_add ns (A !!! i) (B !!! i)) <$> seq 0 m.
Proof. simpl. apply for_insert, length_tzero. Qed.

Lemma scale_l_cons (m : nat) (ns : list nat) (s : double)
    (A : list (tensor double ns)) :
  scale_l (m :: ns) s A = (λ i, scale_l ns s (A !!! i)) <$> seq 0 m.
Proof. simpl. apply for_insert, length_tzero. Qed.

Lemma scale_r_cons (m : nat) (ns : list nat) (s : double)
    (A : list (tensor double ns)) :
  scale_r (m :: ns) s A = (λ i, scale_r ns s (A !!! i)) <$> seq 0 m.
Proof. simpl. apply for_insert, length_tzero. Qed.

Lemma div_r_cons (m : nat) (ns : list nat) (s : double)
    (A : list (tensor double ns)) :
  div_r (m :: ns) s A = (λ i, div_r ns s (A !!! i)) <$> seq 0 m.
Proof. simpl. apply for_insert, length_tzero. Qed.

(** Nested types are displayed and matched in their [list] form. *)
Ltac list_form :=
  repeat match goal with
  | |- context [tensor ?T (?n :: ?ns)] =>
      change (tensor T (n :: ns)) with (list (tensor T ns))
  | H : context [tensor ?T (?n :: ?ns)] |- _ =>
      change (tensor T (n :: ns)) with (list (tensor T ns)) in H
  end.

Lemma tzero_lookup (n : nat) (ns : list nat) (i : nat) :
  (i < n)%nat → (tzero (n :: ns) : list (tensor double ns)) !!! i = tzero ns.
Proof. intros Hi. rewrite tzero_cons. by apply lookup_total_replicate_2. Qed.

(** Materialized zeros are neutral for [+] and absorbing for [*]. *)
Lemma tensor_add_tzero_l (shape : list nat) (A : tensor double shape) :
  wf shape A → tensor_add shape (tzero shape) A = A.
Proof.
  revert A. induction shape as [|m ns IH]; intros A HA.
  - simpl. unfold tzero. simpl. ring.
  - rewrite tensor_add_cons.
    list_form. rewrite (fmap_seq_ext m _ (λ i, A !!! i)).
    + apply fmap_lookup_total_seq, HA.
    + intros i Hi. rewrite tzero_lookup by done. apply IH.
      by apply (wf_lookup m).
Qed.

Lemma tensor_add_tzero_r (shape : list nat) (A : tensor double shape) :
  wf shape A → tensor_add shape A (tzero shape) = A.
Proof.
  revert A. induction shape as [|m ns IH]; intros A HA.
  - simpl. unfold tzero. simpl. ring.
  - rewrite tensor_add_cons.
    list_form. rewrite (fmap_seq_ext m _ (λ i, A !!! i)).
    + apply fmap_lookup_total_seq, HA.
    + intros i Hi. rewrite tzero_lookup by done. apply IH.
      by apply (wf_lookup m).
Qed.

Lemma fmap_seq_const {T : Type} (n : nat) (x : T) :
  (λ _, x) <$> seq 0 n = replicate n x.
Proof.
  apply (list_eq_same_length _ _ n).
  - apply length_replicate.
  - by rewrite length_fmap, length_seq.
  - intros i a b Hi Ha Hb.
    rewrite list_lookup_fmap, lookup_seq_lt in Ha by done. simpl in Ha.
    rewrite lookup_replicate_2 in Hb by done. congruence.
Qed.

Lemma scale_l_zero (shape : list nat) (A : tensor double shape) :
  scale_l shape 0 A = tzero shape.
Proof.
  revert A. induction shape as [|m ns IH]; intros A.
  - simpl. unfold tzero. simpl. ring.
  - rewrite scale_l_cons, tzero_cons, <- fmap_seq_const.
    apply fmap_seq_ext. intros i _. apply IH.
Qed.

Lemma scale_r_zero (shape : list nat) (A : tensor double shape) :
  scale_r shape 0 A = tzero shape.
Proof.
  revert A. induction shape as [|m ns IH]; intros A.
  - simpl. unfold tzero. simpl. ring.
  - rewrite scale_r_cons, tzero_cons, <- fmap_seq_const.
    apply fmap_seq_ext. intros i _. apply IH.
Qed.

(** C8.  [zero] is an additive identity and a multiplicative absorbing
    element: for every value [x] of any type, scalar or tensor of any
    shape, [zero + x == x], [x + zero == x], [zero * x == zero],
    [x * zero == zero] and [zero / x == zero]; and on tensors of any
    shape the sentinel agrees with the zero tensor it converts to. *)
Theorem zero_identity_absorbing :
  (∀ (T : Type) (x : T),
      zero_add_l Zero x = x ∧ zero_add_r x Zero = x
      ∧ zero_mul_l Zero x = Zero ∧ zero_mul_r x Zero = Zero
      ∧ zero_div_l Zero x = Zero)
  ∧ zero_add_zero Zero Zero = Zero ∧ zero_mul_zero Zero Zero = Zero
  ∧ (∀ x : double,
      zero_to_double Zero + x = zero_add_l Zero x
      ∧ x + zero_to_double Zero = zero_add_r x Zero
      ∧ zero_to_double Zero * x = zero_to_double (zero_mul_l Zero x)
      ∧ x * zero_to_double Zero = zero_to_double (zero_mul_r x Zero))
  ∧ (∀ (shape : list nat) (x : tensor double shape), wf shape x →
      tensor_add shape (zero_to_tensor shape Zero) x = zero_add_l Zero x
      ∧ tensor_add shape x (zero_to_tensor shape Zero) = zero_add_r x Zero
      ∧ scale_l shape (zero_to_double Zero) x
        = zero_to_tensor shape (zero_mul_l Zero x)
      ∧ scale_r shape (zero_to_double Zero) x
        = zero_to_tensor shape (zero_mul_r x Zero)).
Proof.
  split; [done|]. split; [done|]. split; [done|]. split.
  - intros x. unfold zero_to_double, zero_add_l, zero_add_r.
    repeat split; ring.
  - intros shape x Hx. unfold zero_to_tensor, zero_to_double.
    split; [by apply tensor_add_tzero_l|]. split; [by apply tensor_add_tzero_r|].
    split; [apply scale_l_zero|apply scale_r_zero].
Qed.

Lemma zero_identity_absorbing_witness :
  tensor_add [2%nat; 2%nat] (zero_to_tensor [2%nat; 2%nat] Zero)
    [[lit 1 2; lit 3 1]; [lit (-2) 1; lit 7 5]]
  = zero_add_l Zero [[lit 1 2; lit 3 1]; [lit (-2) 1; lit 7 5]].
Proof.
  apply (proj2 (proj2 (proj2 (proj2 zero_identity_absorbing)))).
  simpl. repeat constructor.
Defined.

(** ** Symmetry and positive definiteness *)

Lemma default_tolerance_nonneg : 0 ≤ default_tolerance.
Proof. compute_done. Qed.

(** Within the tolerance, above the diagonal: what the loops test. *)
Lemma is_symmetric_2 (A : mat) (tol : double) :
  is_symmetric 2 A tol = true ↔ abs (entry A 0 1 - entry A 1 0) ≤ tol.
Proof.
  unfold is_symmetric, for_. simpl. rewrite <- gtb_false.
  by destruct (gtb _ _).
Qed.

Lemma is_symmetric_3 (A : mat) (tol : double) :
  is_symmetric 3 A tol = true
  ↔ abs (entry A 0 1 - entry A 1 0) ≤ tol
    ∧ abs (entry A 0 2 - entry A 2 0) ≤ tol
    ∧ abs (entry A 1 2 - entry A 2 1) ≤ tol.
Proof.
  unfold is_symmetric, for_. simpl. rewrite <- !gtb_false.
  destruct (gtb (abs (entry A 0 1 - _)) _),
    (gtb (abs (entry A 0 2 - _)) _), (gtb (abs (entry A 1 2 - _)) _);
    simpl; naive_solver.
Qed.

Lemma symmetric_within_2 (A : mat) (tol : double) :
  0 ≤ tol →
  symmetric_within 2 A tol ↔ abs (entry A 0 1 - entry A 1 0) ≤ tol.
Proof.
  intros Htol. split.
  - intros H. apply H; lia.
  - intros H i j Hi Hj.
    assert (∀ x : double, abs (x - x) ≤ tol) as Hdiag.
    { intros x. replace (x - x) with 0 by ring. by rewrite abs_0. }
    destruct i as [|[|]], j as [|[|]]; try lia; try apply Hdiag; try done.
    by rewrite abs_minus_sym.
Qed.

Lemma symmetric_within_3 (A : mat) (tol : double) :
  0 ≤ tol →
  symmetric_within 3 A tol
  ↔ abs (entry A 0 1 - entry A 1 0) ≤ tol
    ∧ abs (entry A 0 2 - entry A 2 0) ≤ tol
    ∧ abs (entry A 1 2 - entry A 2 1) ≤ tol.
Proof.
  intros Htol. split.
  - intros H. repeat split; apply H; lia.
  - intros (H01 & H02 & H12) i j Hi Hj.
    assert (∀ x : double, abs (x - x) ≤ tol) as Hdiag.
    { intros x. replace (x - x) with 0 by ring. by rewrite abs_0. }
    destruct i as [|[|[|]]], j as [|[|[|]]]; try lia; try apply Hdiag;
      try done; by rewrite abs_minus_sym.
Qed.

(** What the 2 by 2 overload decides: the two determinants are tested
    with [< 0.0], so a zero determinant is accepted. *)
Lemma is_symmetric_and_positive_definite_2_spec (A : mat) :
  is_symmetric_and_positive_definite_2 A = true
  ↔ symmetric_within 2 A default_tolerance ∧ 0 ≤ entry A 0 0 ∧ 0 ≤ det2 A.
Proof.
  unfold is_symmetric_and_positive_definite_2.
  rewrite (symmetric_within_2 _ _ default_tolerance_nonneg), <- is_symmetric_2.
  rewrite <- !ltb_false.
  destruct (is_symmetric 2 A _), (ltb (entry A 0 0) 0), (ltb (det2 A) 0);
    simpl; naive_solver.
Qed.

Lemma det2_make_tensor2 (A : mat) :
  det2 (make_tensor2 2 2 (λ i j, entry A i j)) = det2 A.
Proof. unfold det2. by rewrite !entry_make_tensor2 by lia. Qed.

(** What the 3 by 3 overload decides. *)
Lemma is_symmetric_and_positive_definite_3_spec (A : mat) :
  is_symmetric_and_positive_definite_3 A = true
  ↔ symmetric_within 3 A default_tolerance
    ∧ 0 ≤ entry A 0 0 ∧ 0 ≤ det2 A ∧ 0 ≤ det3 A.
Proof.
  unfold is_symmetric_and_positive_definite_3. cbv zeta.
  pose proof (is_symmetric_and_positive_definite_2_spec
    (make_tensor2 2 2 (λ i j, entry A i j))) as H2.
  rewrite (symmetric_within_2 _ _ default_tolerance_nonneg) in H2.
  rewrite det2_make_tensor2, !entry_make_tensor2 in H2 by lia.
  rewrite (symmetric_within_3 _ _ default_tolerance_nonneg), <- is_symmetric_3.
  pose proof (is_symmetric_3 A default_tolerance) as H3.
  rewrite <- (ltb_false (det3 A)).
  destruct (is_symmetric 3 A _), (ltb (det3 A) 0),
    (is_symmetric_and_positive_definite_2 _); simpl; naive_solver.
Qed.

(** The criterion of the documentation implies acceptance. *)
Lemma sylvester_2_accepted (A : mat) :
  sylvester_2 A → is_symmetric_and_positive_definite_2 A = true.
Proof.
  intros (Hs & H0 & H1). apply is_symmetric_and_positive_definite_2_spec.
  auto using Qclt_le_weak.
Qed.

Lemma sylvester_3_accepted (A : mat) :
  sylvester_3 A → is_symmetric_and_positive_definite_3 A = true.
Proof.
  intros (Hs & H0 & H1 & H2). apply is_symmetric_and_positive_definite_3_spec.
  auto using Qclt_le_weak.
Qed.

(** C3.  On the 2 by 2 and 3 by 3 zero matrices
    [is_symmetric_and_positive_definite] returns [true], although no
    upper left subtensor has a determinant greater than zero: the
    function does not decide the criterion of Sylvester. *)
Theorem is_symmetric_and_positive_definite_accepts_zero :
  is_symmetric_and_positive_definite_2 (tzero [2%nat; 2%nat]) = true
  ∧ ¬ sylvester_2 (tzero [2%nat; 2%nat])
  ∧ is_symmetric_and_positive_definite_3 (tzero [3%nat; 3%nat]) = true
  ∧ ¬ sylvester_3 (tzero [3%nat; 3%nat]).
Proof.
  split; [compute_done|]. split.
  { intros (_ & H & _). revert H. compute_done. }
  split; [compute_done|].
  intros (_ & H & _). revert H. compute_done.
Qed.

(** ** Division of a scalar by a tensor *)

(** C4.  [operator/(S, tensor<T, m, n...>)] declares its result with
    the shape [n...]: the leading extent [m] of the operand is dropped,
    so the result never has the shape of the operand, and on an operand
    of shape (3, 2) the store [C[2]] is outside the result of extent 2.
    The sibling [operator/(tensor<T, m, n...>, S)] declares [m, n...]
    and stays in bounds. *)
Theorem div_scalar_tensor_drops_leading_extent :
  (∀ m ns, result_shape (div_scalar_tensor_footprint m ns) ≠ m :: ns)
  ∧ ¬ stores_in_bounds (div_scalar_tensor_footprint 3 [2%nat])
  ∧ (∀ m ns, result_shape (div_tensor_scalar_footprint m ns) = m :: ns
       ∧ stores_in_bounds (div_tensor_scalar_footprint m ns)).
Proof.
  split; [|split].
  - intros m ns H. simpl in H. apply (f_equal length) in H. simpl in H. lia.
  - compute_done.
  - intros m ns. split; [done|]. unfold stores_in_bounds. simpl.
    apply Forall_seq. intros; lia.
Qed.

(** ** Accumulation loops *)

(** Two loops agree when their bodies agree on the states that satisfy
    an invariant of the first. *)
Lemma for_ext_inv {S : Type} (P : S → Prop) (lo hi : nat)
    (f g : nat → S → S) (s : S) :
  P s →
  (∀ i s, (lo ≤ i < hi)%nat → P s → P (f i s)) →
  (∀ i s, (lo ≤ i < hi)%nat → P s → f i s = g i s) →
  for_ lo hi f s = for_ lo hi g s.
Proof.
  intros Hs Hpres Hfg. destruct (decide (lo ≤ hi)%nat) as [Hle|Hgt].
  - enough (P (for_ lo hi f s) ∧ for_ lo hi f s = for_ lo hi g s) as [_ ?]
      by done.
    induction hi as [|hi IH].
    + by rewrite !for_nil by lia.
    + destruct (decide (lo = Datatypes.S hi)) as [->|Hne].
      * by rewrite !for_nil by lia.
      * rewrite !for_S by lia.
        destruct IH as [HP Heq]; [intros; apply Hpres; (lia || done)|
                                  intros; apply Hfg; (lia || done)|lia|].
        rewrite <- Heq. split; [apply Hpres; (lia || done)|].
        apply Hfg; (lia || done).
  - by rewrite !for_nil by lia.
Qed.

(** [AB[i] = AB[i] + g j] for [j] in [0, m): the sum is added to [AB[i]]. *)
Lemma for_accum_vec (m i : nat) (g : nat → double) (C : vec) :
  (i < length C)%nat →
  for_ 0 m (λ j (AB : vec), <[i := AB !!! i + g j]> AB) C
  = <[i := C !!! i + sum_n m g]> C.
Proof.
  intros Hi. induction m as [|m IH].
  - rewrite for_nil by lia. simpl. rewrite list_insert_id; [done|].
    rewrite list_lookup_lookup_total_lt by done. f_equal. ring.
  - rewrite for_S by lia. rewrite IH.
    rewrite list_lookup_total_insert_eq by done.
    rewrite list_insert_insert_eq. simpl. f_equal. ring.
Qed.

(** Every slot of a vector updated once, from its own previous value. *)
Lemma for_update_vec (n : nat) (h : nat → double → double) (C : vec) :
  length C = n →
  let R := for_ 0 n (λ i (AB : vec), <[i := h i (AB !!! i)]> AB) C in
  length R = n ∧ ∀ i, (i < n)%nat → R !!! i = h i (C !!! i).
Proof.
  intros Hlen R. subst R.
  loop_inv (λ i (R : vec), length R = n
    ∧ (∀ k, (k < i)%nat → R !!! k = h k (C !!! k))
    ∧ (∀ k, (i ≤ k)%nat → R !!! k = C !!! k)); [lia| | |].
  - split; [done|]. split; [intros; lia|done].
  - intros i R Hi (HR & Hdone & Hrest). split; [by rewrite length_insert|].
    split.
    + intros k Hk. destruct (decide (k = i)) as [->|Hne].
      * rewrite list_lookup_total_insert_eq by lia. by rewrite Hrest by lia.
      * rewrite list_lookup_total_insert_ne by done. apply Hdone. lia.
    + intros k Hk. rewrite list_lookup_total_insert_ne by lia. apply Hrest. lia.
  - intros R (HR & Hdone & _). split; [done|]. intros i Hi. by apply Hdone.
Qed.

(** The doubly nested accumulation of the vector contractions. *)
Lemma for_for_accum_vec (n m : nat) (g : nat → nat → double) (C : vec) :
  length C = n →
  let R := for_ 0 n (λ i, for_ 0 m (λ j (AB : vec),
             <[i := AB !!! i + g i j]> AB)) C in
  length R = n ∧ ∀ i, (i < n)%nat → R !!! i = C !!! i + sum_n m (g i).
Proof.
  intros Hlen R. subst R.
  rewrite (for_ext_inv (λ AB : vec, length AB = n) _ _ _
    (λ i (AB : vec), <[i := (λ i x, x + sum_n m (g i)) i (AB !!! i)]> AB)).
  - by apply (for_update_vec n (λ i x, x + sum_n m (g i))).
  - done.
  - intros i AB Hi HAB. rewrite for_accum_vec by lia. by rewrite length_insert.
  - intros i AB Hi HAB. by rewrite for_accum_vec by lia.
Qed.

Lemma set_entry_set_entry (A : mat) (r c : nat) (v w : double) :
  set_entry r c v (set_entry r c w A) = set_entry r c v A.
Proof.
  unfold set_entry. destruct (decide (r < length A)%nat) as [Hr|Hr].
  - rewrite list_lookup_total_insert_eq by done.
    by rewrite !list_insert_insert_eq.
  - by rewrite !(list_insert_ge A) by lia.
Qed.

Lemma set_entry_id (A : mat) (r c : nat) : set_entry r c (entry A r c) A = A.
Proof.
  unfold set_entry, entry. destruct (decide (r < length A)%nat) as [Hr|Hr].
  - apply list_insert_id. rewrite list_lookup_lookup_total_lt by done. f_equal.
    destruct (decide (c < length (A !!! r))%nat) as [Hc|Hc].
    + symmetry. apply list_insert_id. by rewrite list_lookup_lookup_total_lt.
    + symmetry. apply list_insert_ge. lia.
  - apply list_insert_ge. lia.
Qed.

(** [AB[i][j] = AB[i][j] + g k] for [k] in [0, p). *)
Lemma for_accum_entry (m n p i j : nat) (g : nat → double) (C : mat) :
  is_mat m n C → (i < m)%nat → (j < n)%nat →
  for_ 0 p (λ k AB, set_entry i j (entry AB i j + g k) AB) C
  = set_entry i j (entry C i j + sum_n p g) C.
Proof.
  intros HC Hi Hj. induction p as [|p IH].
  - rewrite for_nil by lia. simpl.
    replace (entry C i j + 0) with (entry C i j) by ring.
    by rewrite set_entry_id.
  - rewrite for_S by lia. rewrite IH.
    rewrite (entry_set_entry_eq m n) by done.
    rewrite set_entry_set_entry. simpl. f_equal. ring.
Qed.

(** Every entry of a matrix updated once, from its own previous value. *)
Lemma for_for_update_entry (m n : nat) (h : nat → nat → double → double)
    (C : mat) :
  is_mat m n C →
  let R := for_ 0 m (λ i, for_ 0 n (λ j AB,
             set_entry i j (h i j (entry AB i j)) AB)) C in
  is_mat m n R
  ∧ ∀ r c, (r < m)%nat → (c < n)%nat → entry R r c = h r c (entry C r c).
Proof.
  intros HC R. subst R.
  loop_inv (λ i R, is_mat m n R
    ∧ (∀ r c, (r < i)%nat → (c < n)%nat → entry R r c = h r c (entry C r c))
    ∧ (∀ r c, (i ≤ r)%nat → entry R r c = entry C r c)); [lia| | |].
  - split; [done|]. split; [intros; lia|done].
  - intros i R Hi (HR & Hdone & Hrest).
    loop_inv (λ j R, is_mat m n R
      ∧ (∀ r c, (r < i)%nat → (c < n)%nat → entry R r c = h r c (entry C r c))
      ∧ (∀ c, (c < j)%nat → entry R i c = h i c (entry C i c))
      ∧ (∀ c, (j ≤ c)%nat → entry R i c = entry C i c)
      ∧ (∀ r c, (i < r)%nat → entry R r c = entry C r c)); [lia| | |].
    + split; [done|]. split; [done|]. split; [intros; lia|].
      split; intros; apply Hrest; lia.
    + intros j R' Hj (HR' & Hrows & Hrow & Hrow' & Hrest').
      split; [by apply is_mat_set_entry|].
      split; [|split; [|split]].
      * intros r c Hr Hc. rewrite entry_set_entry_ne by lia. by apply Hrows.
      * intros c Hc. destruct (decide (c = j)) as [->|Hne].
        -- rewrite (entry_set_entry_eq m n) by (done || lia).
           by rewrite Hrow' by lia.
        -- rewrite entry_set_entry_ne by lia. apply Hrow. lia.
      * intros c Hc. rewrite entry_set_entry_ne by lia. apply Hrow'. lia.
      * intros r c Hr. rewrite entry_set_entry_ne by lia. by apply Hrest'.
    + intros R' (HR' & Hrows & Hrow & _ & Hrest'). split; [done|]. split.
      * intros r c Hr Hc. destruct (decide (r = i)) as [->|Hne].
        -- by apply Hrow.
        -- apply Hrows; lia.
      * intros r c Hr. apply Hrest'. lia.
  - intros R (HR & Hdone & _). split; [done|]. intros r c Hr Hc.
    by apply Hdone.
Qed.

(** The triply nested accumulation of the matrix contractions. *)
Lemma for_for_for_accum (m n p : nat) (g : nat → nat → nat → double) (C : mat) :
  is_mat m n C →
  let R := for_ 0 m (λ i, for_ 0 n (λ j, for_ 0 p (λ k AB,
             set_entry i j (entry AB i j + g i j k) AB))) C in
  is_mat m n R
  ∧ ∀ r c, (r < m)%nat → (c < n)%nat →
      entry R r c = entry C r c + sum_n p (g r c).
Proof.
  intros HC R. subst R.
  rewrite (for_ext_inv (is_mat m n) _ _ _
    (λ i, for_ 0 n (λ j AB,
       set_entry i j ((λ i j x, x + sum_n p (g i j)) i j (entry AB i j)) AB))).
  - by apply (for_for_update_entry m n (λ i j x, x + sum_n p (g i j))).
  - done.
  - intros i AB Hi HAB.
    loop_inv (λ (_ : nat) AB, is_mat m n AB); [lia|done| |done].
    intros j AB' Hj HAB'. rewrite (for_accum_entry m n) by (done || lia).
    by apply is_mat_set_entry.
  - intros i AB Hi HAB. apply (for_ext_inv (is_mat m n)); [done| |].
    + intros j AB' Hj HAB'. rewrite (for_accum_entry m n) by (done || lia).
      by apply is_mat_set_entry.
    + intros j AB' Hj HAB'. by rewrite (for_accum_entry m n) by (done || lia).
Qed.

(** ** Contractions *)

Lemma dot_vv_spec (m : nat) (A B : vec) :
  dot_vv m A B = sum_n m (λ i, A !!! i * B !!! i).
Proof. unfold dot_vv. rewrite for_sum. ring. Qed.

Lemma lookup_total_tzero_vec (n i : nat) : (tzero [n] : vec) !!! i = 0.
Proof.
  change (tzero [n]) with (replicate n (0 : double)).
  destruct (decide (i < n)%nat) as [Hi|Hi].
  - by rewrite lookup_total_replicate_2.
  - rewrite list_lookup_total_alt, (proj1 (lookup_replicate_None _ _ _)); [done|lia].
Qed.

Lemma dot_vm_spec (m n : nat) (A : vec) (B : mat) :
  length (dot_vm m n A B) = n
  ∧ ∀ i, (i < n)%nat →
      dot_vm m n A B !!! i = sum_n m (λ j, A !!! j * entry B j i).
Proof.
  destruct (for_for_accum_vec n m (λ i j, A !!! j * entry B j i) (tzero [n]))
    as [Hlen Hent]; [apply (length_tzero _ [])|].
  split; [done|]. intros i Hi. unfold dot_vm. rewrite Hent by done.
  rewrite lookup_total_tzero_vec. ring.
Qed.

Lemma dot_mv_spec (m n : nat) (A : mat) (B : vec) :
  length (dot_mv m n A B) = m
  ∧ ∀ i, (i < m)%nat →
      dot_mv m n A B !!! i = sum_n n (λ j, entry A i j * B !!! j).
Proof.
  destruct (for_for_accum_vec m n (λ i j, entry A i j * B !!! j) (tzero [m]))
    as [Hlen Hent]; [apply (length_tzero _ [])|].
  split; [done|]. intros i Hi. unfold dot_mv. rewrite Hent by done.
  rewrite lookup_total_tzero_vec. ring.
Qed.

Lemma dot_mm_spec (m n p : nat) (A B : mat) :
  is_mat m p (dot_mm m n p A B)
  ∧ ∀ i j, (i < m)%nat → (j < p)%nat →
      entry (dot_mm m n p A B) i j = sum_n n (λ k, entry A i k * entry B k j).
Proof.
  destruct (for_for_for_accum m p n (λ i j k, entry A i k * entry B k j)
    (tzero [m; p]) (is_mat_tzero m p)) as [Hmat Hent].
  split; [done|]. intros i j Hi Hj. unfold dot_mm. rewrite Hent by done.
  rewrite entry_tzero. ring.
Qed.

Lemma dot_t3v_spec (m n p : nat) (A : list mat) (B : vec) :
  is_mat m n (dot_t3v m n p A B)
  ∧ ∀ i j, (i < m)%nat → (j < n)%nat →
      entry (dot_t3v m n p A B) i j
      = sum_n p (λ k, entry (A !!! i) j k * B !!! k).
Proof.
  destruct (for_for_for_accum m n p (λ i j k, entry (A !!! i) j k * B !!! k)
    (tzero [m; n]) (is_mat_tzero m n)) as [Hmat Hent].
  split; [done|]. intros i j Hi Hj. unfold dot_t3v. rewrite Hent by done.
  rewrite entry_tzero. ring.
Qed.

(** ** Entries of the elementwise operators *)

Lemma lookup_total_fmap_seq {T : Type} `{Inhabited T} (n i : nat) (f : nat → T) :
  (i < n)%nat → (f <$> seq 0 n) !!! i = f i.
Proof.
  intros Hi. apply list_lookup_total_correct.
  by rewrite list_lookup_fmap, lookup_seq_lt.
Qed.

Lemma tget_tzero (shape I : list nat) : tget shape (tzero shape) I = 0.
Proof.
  revert I. induction shape as [|n ns IH]; intros I; [done|].
  destruct I as [|i I]; [done|]. simpl.
  destruct (decide (i < n)%nat) as [Hi|Hi].
  - rewrite tzero_lookup by done. apply IH.
  - change (tzero (n :: ns)) with (replicate n (tzero ns)).
    rewrite list_lookup_total_alt, (proj1 (lookup_replicate_None _ _ _)) by lia.
    apply IH.
Qed.

Lemma tget_tensor_add (shape : list nat) (A B : tensor double shape)
    (I : list nat) :
  in_range shape I →
  tget shape (tensor_add shape A B) I = tget shape A I + tget shape B I.
Proof.
  revert A B I. induction shape as [|m ns IH]; intros A B I HI; [done|].
  destruct I as [|i I]; [done|]. destruct HI as [Hi HI].
  rewrite tensor_add_cons. cbn [tget]. list_form.
  rewrite lookup_total_fmap_seq by done. by apply IH.
Qed.

Lemma tget_scale_l (shape : list nat) (s : double) (A : tensor double shape)
    (I : list nat) :
  in_range shape I →
  tget shape (scale_l shape s A) I = s * tget shape A I.
Proof.
  revert A I. induction shape as [|m ns IH]; intros A I HI; [done|].
  destruct I as [|i I]; [done|]. destruct HI as [Hi HI].
  rewrite scale_l_cons. cbn [tget]. list_form.
  rewrite lookup_total_fmap_seq by done. by apply IH.
Qed.

(** [A(i, j)] and [A[i][j]] read the same entry. *)
Lemma tget_entry (n p : nat) (M : mat) (j k : nat) :
  tget [n; p] M [j; k] = entry M j k.
Proof.
  unfold entry. cbn [tget]. destruct (M !! j) as [row|] eqn:Hj.
  - by rewrite !(list_lookup_total_correct M j row).
  - rewrite !(list_lookup_total_alt M), Hj. simpl.
    transitivity (0 : double); [exact (lookup_total_tzero_vec p k)|].
    by destruct k.
Qed.

Lemma tget_entry3 (n p q : nat) (T : list mat) (j k l : nat) :
  tget [n; p; q] T [j; k; l] = entry (T !!! j) k l.
Proof.
  change (tget [n; p; q] T [j; k; l])
    with (tget [p; q] (@lookup_total _ _ _
            (@list_lookup_total _ (tensor_inhabited [p; q])) j T) [k; l]).
  rewrite tget_entry. destruct (T !! j) as [M|] eqn:Hj.
  - by rewrite !(list_lookup_total_correct T j M).
  - rewrite !(list_lookup_total_alt T), Hj. simpl.
    transitivity (0 : double); [exact (entry_tzero p q k l)|].
    by destruct k.
Qed.

(** The accumulation [AB = AB + A[j] * B[j]] of the contractions of a
    vector with a tensor of higher order. *)
Lemma for_accum_tensor (shape : list nat) (m : nat) (a : nat → double)
    (b : nat → tensor double shape) (I : list nat) :
  in_range shape I →
  tget shape
    (for_ 0 m (λ j AB, tensor_add shape AB (scale_l shape (a j) (b j)))
       (tzero shape)) I
  = sum_n m (λ j, a j * tget shape (b j) I).
Proof.
  intros HI. induction m as [|m IH].
  - rewrite for_nil by lia. apply tget_tzero.
  - rewrite for_S by lia. rewrite tget_tensor_add, tget_scale_l by done.
    by rewrite IH.
Qed.

Lemma dot_vt3_spec (m n p : nat) (A : vec) (B : list mat) (j k : nat) :
  (j < n)%nat → (k < p)%nat →
  entry (dot_vt3 m n p A B) j k = sum_n m (λ i, A !!! i * entry (B !!! i) j k).
Proof.
  intros Hj Hk. rewrite <- (tget_entry n p). unfold dot_vt3.
  rewrite (for_accum_tensor [n; p] m (λ i, A !!! i) (λ i, B !!! i)) by done.
  apply sum_n_ext. intros i _. by rewrite tget_entry.
Qed.

Lemma dot_vt4_spec (m n p q : nat) (A : vec) (B : list (list mat))
    (j k l : nat) :
  (j < n)%nat → (k < p)%nat → (l < q)%nat →
  entry (dot_vt4 m n p q A B !!! j) k l
  = sum_n m (λ i, A !!! i * entry ((B !!! i) !!! j) k l).
Proof.
  intros Hj Hk Hl. rewrite <- (tget_entry3 n p q). unfold dot_vt4.
  rewrite (for_accum_tensor [n; p; q] m (λ i, A !!! i) (λ i, B !!! i)) by done.
  apply sum_n_ext. intros i _. by rewrite tget_entry3.
Qed.

(** C6.  [dot(v, T)] contracts [v] against the first index of [T], and
    [dot(T, v)] against the last index of [T]: for a vector and a matrix,
    a 3rd-order or a 4th-order tensor on the right, entry [(j...)] is the
    sum over [i] of [v(i) * T(i, j...)]; for a matrix or a 3rd-order
    tensor on the left, entry [(i...)] is the sum over [k] of
    [T(i..., k) * v(k)]. *)
Theorem dot_contracts_adjacent_index :
  (∀ (m n : nat) (v : vec) (T : mat) (j : nat), (j < n)%nat →
     dot_vm m n v T !!! j = sum_n m (λ i, v !!! i * entry T i j))
  ∧ (∀ (m n p : nat) (v : vec) (T : list mat) (j k : nat),
     (j < n)%nat → (k < p)%nat →
     entry (dot_vt3 m n p v T) j k
     = sum_n m (λ i, v !!! i * entry (T !!! i) j k))
  ∧ (∀ (m n p q : nat) (v : vec) (T : list (list mat)) (j k l : nat),
     (j < n)%nat → (k < p)%nat → (l < q)%nat →
     entry (dot_vt4 m n p q v T !!! j) k l
     = sum_n m (λ i, v !!! i * entry ((T !!! i) !!! j) k l))
  ∧ (∀ (m n : nat) (T : mat) (v : vec) (i : nat), (i < m)%nat →
     dot_mv m n T v !!! i = sum_n n (λ k, entry T i k * v !!! k))
  ∧ (∀ (m n p : nat) (T : list mat) (v : vec) (i j : nat),
     (i < m)%nat → (j < n)%nat →
     entry (dot_t3v m n p T v) i j
     = sum_n p (λ k, entry (T !!! i) j k * v !!! k)).
Proof.
  split; [|split; [|split; [|split]]].
  - intros m n v T j Hj. by apply dot_vm_spec.
  - intros. by apply dot_vt3_spec.
  - intros. by apply dot_vt4_spec.
  - intros m n T v i Hi. by apply dot_mv_spec.
  - intros m n p T v i j Hi Hj. by apply dot_t3v_spec.
Qed.

Lemma dot_contracts_adjacent_index_witness :
  dot_vm 2 3 [lit 1 1; lit 2 1]
    [[lit 1 1; lit 2 1; lit 3 1]; [lit 4 1; lit 5 1; lit 6 1]] !!! 1%nat
  = sum_n 2 (λ i, [lit 1 1; lit 2 1] !!! i
       * entry [[lit 1 1; lit 2 1; lit 3 1]; [lit 4 1; lit 5 1; lit 6 1]] i 1).
Proof. apply (proj1 dot_contracts_adjacent_index). lia. Defined.

(** ** Multi-index loops *)

Lemma for_constexpr_ext {S : Type} (shape : list nat)
    (f g : list nat → S → S) (s : S) :
  (∀ I s, f I s = g I s) → for_constexpr shape f s = for_constexpr shape g s.
Proof.
  revert f g s. induction shape as [|n ns IH]; intros f g s Hfg; simpl; [done|].
  apply for_ext. intros i s' _. apply IH. intros I s''. apply Hfg.
Qed.

(** Updates of one slot, one after the other, are one update. *)
Lemma for_alter_same {E : Type} (lo hi i : nat) (G : nat → E → E) (t : list E) :
  for_ lo hi (λ k, alter (G k) i) t = alter (for_ lo hi G) i t.
Proof.
  destruct (decide (lo ≤ hi)%nat) as [Hle|Hgt].
  - induction hi as [|hi IH].
    + rewrite for_nil by lia. symmetry. apply list_alter_id.
      intros x. by rewrite for_nil by lia.
    + destruct (decide (lo = S hi)) as [->|Hne].
      * rewrite for_nil by lia. symmetry. apply list_alter_id.
        intros x. by rewrite for_nil by lia.
      * rewrite for_S by lia. rewrite IH by lia. rewrite list_alter_alter_eq.
        apply list_alter_ext; [|done]. intros x _. simpl. by rewrite for_S by lia.
  - rewrite for_nil by lia. symmetry. apply list_alter_id.
    intros x. by rewrite for_nil by lia.
Qed.

Lemma for_constexpr_alter {E : Type} (ns : list nat) (i : nat)
    (F : list nat → E → E) (t : list E) :
  for_constexpr ns (λ I, alter (F I) i) t = alter (for_constexpr ns F) i t.
Proof.
  revert F t. induction ns as [|n ns IH]; intros F t; simpl; [done|].
  rewrite <- for_alter_same. apply for_ext. intros k s _. apply IH.
Qed.

(** Every slot updated once, by its own update. *)
Lemma for_alter_each {E : Type} `{Inhabited E} (n : nat) (h : nat → E → E)
    (t : list E) :
  length t = n →
  for_ 0 n (λ i, alter (h i) i) t = (λ i, h i (t !!! i)) <$> seq 0 n.
Proof.
  intros Hlen.
  loop_inv (λ i (R : list E), length R = n
    ∧ (∀ k, (k < i)%nat → R !! k = Some (h k (t !!! k)))
    ∧ (∀ k, (i ≤ k)%nat → R !! k = t !! k)); [lia| | |].
  - split; [done|]. split; [intros; lia|done].
  - intros i R Hi (HR & Hdone & Hrest). split; [by rewrite length_alter|].
    split.
    + intros k Hk. destruct (decide (k = i)) as [->|Hne].
      * rewrite list_lookup_alter_eq, Hrest by lia.
        by rewrite list_lookup_lookup_total_lt by lia.
      * rewrite list_lookup_alter_ne by done. apply Hdone. lia.
    + intros k Hk. rewrite list_lookup_alter_ne by lia. apply Hrest. lia.
  - intros R (HR & Hdone & _). apply (list_eq_same_length _ _ n); [|done|].
    + by rewrite length_fmap, length_seq.
    + intros i x y Hi Hx Hy. rewrite Hdone in Hx by done.
      rewrite list_lookup_fmap, lookup_seq_lt in Hy by done. simpl in Hy.
      congruence.
Qed.

(** ** Entries of generic tensors *)

Lemma in_range_nil_inv (I : list nat) : in_range [] I → I = [].
Proof. by destruct I. Qed.

Lemma in_range_cons_inv (n : nat) (ns I : list nat) :
  in_range (n :: ns) I → ∃ i I', I = i :: I' ∧ (i < n)%nat ∧ in_range ns I'.
Proof. destruct I as [|i I']; [done|]. intros [Hi HI]. eauto. Qed.

Lemma tget_tfill {T : Type} `{Inhabited T} (x : T) (shape I : list nat) :
  in_range shape I → tget shape (tfill x shape) I = x.
Proof.
  revert I. induction shape as [|n ns IH]; intros I HI; [done|].
  apply in_range_cons_inv in HI as (i & I' & -> & Hi & HI). simpl.
  rewrite lookup_total_replicate_2 by done. by apply IH.
Qed.

Lemma wf_talter {T : Type} (shape : list nat) (f : T → T) (I : list nat)
    (t : tensor T shape) :
  wf shape t → wf shape (talter shape f I t).
Proof.
  revert I t. induction shape as [|n ns IH]; intros I t Ht; [done|].
  destruct I as [|i I]; [done|]. destruct Ht as [Hlen Hall]. cbn [talter].
  list_form. split.
  - by rewrite length_alter.
  - apply Forall_alter; [done|]. intros x _ Hx. by apply IH.
Qed.

Lemma tget_talter {T : Type} `{Inhabited T} (shape : list nat) (f : T → T)
    (I J : list nat) (t : tensor T shape) :
  wf shape t → in_range shape I → in_range shape J →
  tget shape (talter shape f I t) J
  = if bool_decide (I = J) then f (tget shape t I) else tget shape t J.
Proof.
  revert I J t. induction shape as [|n ns IH]; intros I J t Ht HI HJ.
  - apply in_range_nil_inv in HI as ->. apply in_range_nil_inv in HJ as ->.
    done.
  - apply in_range_cons_inv in HI as (i & I' & -> & Hi & HI).
    apply in_range_cons_inv in HJ as (j & J' & -> & Hj & HJ).
    cbn [tget talter]. list_form. rewrite list_lookup_total_alter.
    destruct Ht as [Hlen Hall]. case_decide as Hij.
    + destruct Hij as [-> _]. rewrite IH; [|by apply (wf_lookup n)|done..].
      repeat case_bool_decide; naive_solver.
    + rewrite bool_decide_eq_false_2; [done|]. intros [= -> ->]. apply Hij.
      split; [done|]. lia.
Qed.

Lemma talter_talter {T : Type} (shape : list nat) (f g : T → T) (I : list nat)
    (t : tensor T shape) :
  talter shape f I (talter shape g I t) = talter shape (f ∘ g) I t.
Proof.
  revert I t. induction shape as [|n ns IH]; intros I t; [done|].
  destruct I as [|i I]; [done|]. cbn [talter]. list_form.
  rewrite list_alter_alter_eq. apply list_alter_ext; [|done].
  intros x _. apply IH.
Qed.

(** Two tensors of one shape with the same entries are equal. *)
Lemma tensor_ext {T : Type} `{Inhabited T} (shape : list nat)
    (A B : tensor T shape) :
  wf shape A → wf shape B →
  (∀ I, in_range shape I → tget shape A I = tget shape B I) → A = B.
Proof.
  revert A B. induction shape as [|n ns IH]; intros A B HA HB Heq.
  - by apply (Heq []).
  - destruct HA as [HlA HallA], HB as [HlB HallB]. list_form.
    apply (list_eq_same_length _ _ n); [done..|].
    intros i x y Hi Hx Hy. apply IH.
    + rewrite Forall_lookup in HallA. by apply (HallA i).
    + rewrite Forall_lookup in HallB. by apply (HallB i).
    + intros I HI. specialize (Heq (i :: I)). cbn [tget] in Heq.
      list_form.
      rewrite (list_lookup_total_correct A i x),
        (list_lookup_total_correct B i y) in Heq by done.
      apply Heq. by split.
Qed.

(** A multi-index loop that updates every entry once, at its own index. *)
Lemma for_constexpr_talter {T : Type} `{Inhabited T} (shape : list nat)
    (g : list nat → T → T) (t : tensor T shape) :
  wf shape t →
  let R := for_constexpr shape (λ I, talter shape (g I) I) t in
  wf shape R ∧ ∀ I, in_range shape I → tget shape R I = g I (tget shape t I).
Proof.
  revert g t. induction shape as [|n ns IH]; intros g t Ht R; subst R.
  - split; [done|]. intros I HI. by apply in_range_nil_inv in HI as ->.
  - destruct Ht as [Hlen Hall]. cbn [for_constexpr]. list_form.
    rewrite (for_ext _ _ _
      (λ i, alter (for_constexpr ns (λ I, talter ns (g (i :: I)) I)) i))
      by (intros i s _; apply (for_constexpr_alter ns i
            (λ I, talter ns (g (i :: I)) I))).
    rewrite for_alter_each by done.
    assert (∀ i, (i < n)%nat → wf ns (t !!! i)) as Hwf.
    { intros i Hi. by apply (wf_lookup n). }
    split; [split|].
    + by rewrite length_fmap, length_seq.
    + apply Forall_fmap, Forall_seq. intros i Hi. simpl.
      apply IH, Hwf. lia.
    + intros I HI.
      apply in_range_cons_inv in HI as (i & I' & -> & Hi & HI).
      cbn [tget]. list_form. rewrite lookup_total_fmap_seq by done.
      destruct (IH (λ I, g (i :: I)) (t !!! i) (Hwf i Hi)) as [_ Hent].
      by apply Hent.
Qed.

(** The same for a loop that stores a sub-tensor at every leading
    multi-index. *)
Lemma for_constexpr_tset_sub (n m : list nat)
    (c : list nat → tensor double m) (t : tensor double (n ++ m)) :
  wf (n ++ m) t → (∀ I, in_range n I → wf m (c I)) →
  let R := for_constexpr n (λ I, tset_sub n m I (c I)) t in
  wf (n ++ m) R
  ∧ ∀ I J, in_range n I → tget (n ++ m) R (I ++ J) = tget m (c I) J.
Proof.
  revert c t. induction n as [|a ns IH]; intros c t Ht Hc R; subst R.
  - split; [by apply Hc|]. intros I J HI.
    by apply in_range_nil_inv in HI as ->.
  - destruct Ht as [Hlen Hall]. cbn [for_constexpr]. simpl app in *. list_form.
    rewrite (for_ext _ _ _
      (λ i, alter (for_constexpr ns (λ I, tset_sub ns m I (c (i :: I)))) i))
      by (intros i s _; apply (for_constexpr_alter ns i
            (λ I, tset_sub ns m I (c (i :: I))))).
    rewrite for_alter_each by done.
    assert (∀ i, (i < a)%nat → wf (ns ++ m) (t !!! i)) as Hwf.
    { intros i Hi. by apply (wf_lookup a). }
    split; [split|].
    + by rewrite length_fmap, length_seq.
    + apply Forall_fmap, Forall_seq. intros i Hi. simpl.
      apply IH; [apply Hwf; lia|]. intros I HI. apply Hc. split; [lia|done].
    + intros I J HI.
      apply in_range_cons_inv in HI as (i & I' & -> & Hi & HI).
      simpl app. cbn [tget]. list_form. rewrite lookup_total_fmap_seq by done.
      destruct (IH (λ I, c (i :: I)) (t !!! i) (Hwf i Hi)) as [_ Hent].
      { intros I HI''. apply Hc. by split. }
      by apply Hent.
Qed.

(** ** Seeding of dual numbers *)

(** The dual number [make_dual] builds at the multi-index [I]: the value
    of [A] there, and a gradient with a single 1 at [I]. *)
Lemma make_dual_spec (shape : list nat) (A : tensor double shape) :
  wf shape (make_dual shape A)
  ∧ ∀ I, in_range shape I →
      tget shape (make_dual shape A) I
      = mk_dual (tget shape A I) (tset shape I 1 (tzero shape)).
Proof.
  unfold make_dual. cbv zeta.
  rewrite (for_constexpr_ext _ _ (λ I, talter shape
    ((λ d, mk_dual (value d) (tset shape I 1 (gradient d)))
     ∘ (λ d, mk_dual (tget shape A I) (gradient d))) I))
    by (intros I s; apply talter_talter).
  destruct (for_constexpr_talter shape
    (λ I, (λ d, mk_dual (value d) (tset shape I 1 (gradient d)))
          ∘ (λ d : dual (tensor double shape),
               mk_dual (tget shape A I) (gradient d)))
    (tfill (mk_dual 0 (tzero shape)) shape) (wf_tfill _ _)) as [Hwf Hent].
  split; [done|]. intros I HI. rewrite Hent by done.
  by rewrite tget_tfill.
Qed.

Lemma get_value_spec {G : Type} `{Inhabited G} (shape : list nat)
    (arg : tensor (dual G) shape) :
  wf shape (get_value shape arg)
  ∧ ∀ I, in_range shape I →
      tget shape (get_value shape arg) I = value (tget shape arg I).
Proof.
  unfold get_value, tset.
  apply (for_constexpr_talter shape (λ I _, value (tget shape arg I))).
  apply wf_tfill.
Qed.

Lemma get_gradient_spec (n m : list nat)
    (arg : tensor (dual (tensor double m)) n) :
  (∀ I, in_range n I → wf m (gradient (tget n arg I))) →
  wf (n ++ m) (get_gradient n m arg)
  ∧ ∀ I J, in_range n I →
      tget (n ++ m) (get_gradient n m arg) (I ++ J)
      = tget m (gradient (tget n arg I)) J.
Proof.
  intros Hwf. unfold get_gradient.
  apply (for_constexpr_tset_sub n m (λ I, gradient (tget n arg I))); [|done].
  apply wf_tfill.
Qed.

(** C5.  [make_dual(A)] preserves the primal part,
    [get_value(make_dual(A)) == A], and seeds an identity gradient: the
    gradient slot of the element at multi-index [I] is a tensor of the
    shape of [A] with a single 1 at position [I] and zero elsewhere, so
    [get_gradient(make_dual(A))] is the identity tensor of doubled rank. *)
Theorem make_dual_seeds_identity (shape : list nat) (A : tensor double shape) :
  wf shape A →
  get_value shape (make_dual shape A) = A
  ∧ (∀ I J, in_range shape I → in_range shape J →
       tget shape (gradient (tget shape (make_dual shape A) I)) J
       = if bool_decide (I = J) then 1 else 0)
  ∧ wf (shape ++ shape) (get_gradient shape shape (make_dual shape A))
  ∧ (∀ I J, in_range shape I → in_range shape J →
       tget (shape ++ shape) (get_gradient shape shape (make_dual shape A))
         (I ++ J)
       = if bool_decide (I = J) then 1 else 0).
Proof.
  intros HA. destruct (make_dual_spec shape A) as [Hwf Hent].
  assert (∀ I J, in_range shape I → in_range shape J →
    tget shape (gradient (tget shape (make_dual shape A) I)) J
    = if bool_decide (I = J) then 1 else 0) as Hgrad.
  { intros I J HI HJ. rewrite Hent by done. simpl. unfold tset.
    rewrite tget_talter by (done || apply wf_tfill).
    case_bool_decide; [done|]. apply tget_tzero. }
  destruct (get_gradient_spec shape shape (make_dual shape A)) as [Hwfg Hg].
  { intros I' HI'. rewrite Hent by done. simpl. apply wf_talter, wf_tfill. }
  split; [|split; [done|split; [done|]]].
  - destruct (get_value_spec shape (make_dual shape A)) as [Hwfv Hval].
    apply tensor_ext; [done..|]. intros I HI.
    by rewrite Hval, Hent by done.
  - intros I J HI HJ. rewrite Hg by done. by apply Hgrad.
Qed.

Lemma make_dual_seeds_identity_witness :
  get_value [2%nat; 2%nat]
    (make_dual [2%nat; 2%nat] [[lit 1 2; lit 3 1]; [lit (-2) 1; lit 7 5]])
  = [[lit 1 2; lit 3 1]; [lit (-2) 1; lit 7 5]].
Proof.
  apply (make_dual_seeds_identity [2%nat; 2%nat]).
  simpl. repeat constructor.
Defined.

(** ** Plain and dual evaluation of a q-function *)

Lemma num_value_neg (a : num) : num_value (num_neg a) = - num_value a.
Proof. by destruct a. Qed.

Lemma num_value_add (a b : num) :
  num_value (num_add a b) = num_value a + num_value b.
Proof. by destruct a, b. Qed.

Lemma num_value_sub (a b : num) :
  num_value (num_sub a b) = num_value a - num_value b.
Proof. by destruct a, b. Qed.

Lemma num_value_mul (a b : num) :
  num_value (num_mul a b) = num_value a * num_value b.
Proof. by destruct a, b. Qed.

Lemma num_value_div (a b : num) :
  num_value (num_div a b) = num_value a / num_value b.
Proof. by destruct a, b. Qed.

(** The value computed by a q-function depends on the values of its
    arguments only, not on their gradients. *)
Lemma qeval_value (x n : vec) (args1 args2 : nat → nat → num) (e : qexpr) :
  (∀ field k, num_value (args1 field k) = num_value (args2 field k)) →
  num_value (qeval x n args1 e) = num_value (qeval x n args2 e).
Proof.
  intros Hargs. induction e as [| | | |e IH|e1 IH1 e2 IH2|e1 IH1 e2 IH2
    |e1 IH1 e2 IH2|e1 IH1 e2 IH2]; simpl; try done.
  - by rewrite !num_value_neg, IH.
  - by rewrite !num_value_add, IH1, IH2.
  - by rewrite !num_value_sub, IH1, IH2.
  - by rewrite !num_value_mul, IH1, IH2.
  - by rewrite !num_value_div, IH1, IH2.
Qed.

Lemma length_trial_arg (fe : finite_element) (field : nat) (dofs : vec) (q : nat) :
  length (trial_arg fe field dofs q) = trial_dim fe field.
Proof. unfold trial_arg. by rewrite length_fmap, length_seq. Qed.

Lemma tget_vec_lookup {T : Type} `{Inhabited T} (d : nat) (l : list T)
    (k : nat) (x : T) :
  l !! k = Some x → tget [d] l [k] = x.
Proof. intros Hx. cbn [tget]. by apply list_lookup_total_correct. Qed.

(** Entry [k] of a seeded vector carries the value of the vector there. *)
Lemma value_make_dual_vec (d : nat) (u : vec) (k : nat) :
  length u = d →
  value ((make_dual [d] u : list (dual vec)) !!! k) = u !!! k.
Proof.
  intros Hlen. destruct (make_dual_spec [d] u) as [[Hl0 _] Hent].
  assert (length (make_dual [d] u : list (dual vec)) = d) as Hl by exact Hl0.
  clear Hl0. destruct (decide (k < d)%nat) as [Hk|Hk].
  - destruct (lookup_lt_is_Some_2 (make_dual [d] u : list (dual vec)) k)
      as [x Hx]; [rewrite Hl; lia|].
    pose proof (@tget_vec_lookup (dual (tensor double [d]))
      (@dual_inhabited _ (tensor_inhabited [d])) d
      (make_dual [d] u) k x Hx) as Hx'.
    assert (x = mk_dual (tget [d] u [k]) (tset [d] [k] 1 (tzero [d]))) as ->.
    { rewrite <- (Hent [k] (conj Hk I)). symmetry. exact Hx'. }
    by rewrite (list_lookup_total_correct _ _ _ Hx).
  - rewrite list_lookup_total_alt, (lookup_ge_None_2 _ k) by (rewrite Hl; lia).
    by rewrite list_lookup_total_alt, (lookup_ge_None_2 _ k) by lia.
Qed.

Lemma dual_args_value (cfg : kernel_config) (i : nat) (U : list (list vec))
    (e q field k : nat) :
  num_value (dual_args cfg i U e q field k)
  = num_value (plain_args cfg U e q field k).
Proof.
  unfold dual_args, plain_args. case_bool_decide as Hf; [|done]. subst field.
  simpl. apply value_make_dual_vec, length_trial_arg.
Qed.

(** The AD kernel produces the residual of the plain kernel. *)
Lemma evaluation_kernel_AD_residual (cfg : kernel_config) (i : nat)
    (U : list (list vec)) :
  (evaluation_kernel_AD cfg i U).1 = evaluation_kernel cfg U.
Proof.
  unfold evaluation_kernel_AD, evaluation_kernel. simpl.
  apply list_fmap_ext. intros _ e _. f_equal.
  apply list_fmap_ext. intros _ q _. f_equal.
  unfold qf_at. apply qeval_value. intros field k. apply dual_args_value.
Qed.

(** ** Dispatch of the facade *)

Lemma subscript_Array_fmap {K : Type} (f : nat → K) (n : nat) (which : Z) :
  (0 ≤ which < Z.of_nat n)%Z →
  subscript (Array (f <$> seq 0 n)) which = Some (f (Z.to_nat which)).
Proof.
  intros Hw. simpl. rewrite bool_decide_eq_true_2 by lia.
  by rewrite list_lookup_fmap, lookup_seq_lt by lia.
Qed.

Lemma Mult_plain (fe : finite_element) (trials elements dim Q : nat)
    (J : list (list double)) (X N : list (list vec)) (qf : qexpr)
    (U : list (list vec)) (st : store) :
  Mult (configure fe trials elements dim Q J X N qf).1 U (-1) st
  = Some (evaluation_kernel (make_config fe elements dim Q J X N qf) U, st).
Proof. done. Qed.

Lemma Mult_AD (fe : finite_element) (trials elements dim Q : nat)
    (J : list (list double)) (X N : list (list vec)) (qf : qexpr)
    (U : list (list vec)) (st : store) (which : Z) :
  (0 ≤ which < Z.of_nat trials)%Z →
  Mult (configure fe trials elements dim Q J X N qf).1 U which st
  = Some (evaluation_with_AD_fn (make_config fe elements dim Q J X N qf)
            (Z.to_nat which) U st).
Proof.
  intros Hw. unfold Mult, Mult_callee, resolve, configure.
  rewrite bool_decide_eq_false_2 by lia. cbn [fst evaluation_with_AD_].
  by rewrite subscript_Array_fmap.
Qed.

(** C7.  [Mult(input, output, which)] invokes the plain evaluation
    kernel exactly when [which == -1], and the AD-evaluation kernel
    [evaluation_with_AD_[which]] whenever [which >= 0]; there is no other
    call.  On a configured integral the first is the plain kernel, and
    the second the AD kernel of trial field [which]. *)
Theorem Mult_dispatch :
  (∀ which : Z,
     (Mult_callee which = call_evaluation ↔ which = (-1)%Z)
     ∧ ((0 ≤ which)%Z → Mult_callee which = call_evaluation_with_AD which)
     ∧ (Mult_callee which = call_evaluation
        ∨ Mult_callee which = call_evaluation_with_AD which))
  ∧ (∀ (fe : finite_element) (trials elements dim Q : nat)
       (J : list (list double)) (X N : list (list vec)) (qf : qexpr)
       (U : list (list vec)) (st : store) (which : Z),
     let I := (configure fe trials elements dim Q J X N qf).1 in
     let cfg := make_config fe elements dim Q J X N qf in
     Mult I U (-1) st = Some (evaluation_kernel cfg U, st)
     ∧ ((0 ≤ which < Z.of_nat trials)%Z →
        Mult I U which st
        = Some ((evaluation_kernel_AD cfg (Z.to_nat which) U).1,
                <[Z.to_nat which :=
                    (evaluation_kernel_AD cfg (Z.to_nat which) U).2]> st))).
Proof.
  split.
  - intros which. unfold Mult_callee. case_bool_decide as Hw.
    + split; [done|]. split; [lia|by left].
    + split; [split; [done|intros; lia]|]. split; [done|by right].
  - intros fe trials elements dim Q J X N qf U st which I cfg.
    split; [apply Mult_plain|]. intros Hw. subst I cfg.
    rewrite Mult_AD by done. unfold evaluation_with_AD_fn.
    by destruct (evaluation_kernel_AD _ _ _).
Qed.

Lemma Mult_dispatch_witness :
  Mult_callee 0 = call_evaluation_with_AD 0.
Proof. apply (proj1 Mult_dispatch 0%Z). lia. Defined.

(** C1.  On a configured integral and every input, the residual written
    by [Mult] with AD enabled for a trial field is the residual written
    by plain evaluation ([which == -1]); AD changes nothing but the
    derivative cache of that trial field. *)
Theorem Mult_AD_same_residual (fe : finite_element)
    (trials elements dim Q : nat) (J : list (list double))
    (X N : list (list vec)) (qf : qexpr) (U : list (list vec)) (st : store)
    (which : Z) :
  (0 ≤ which < Z.of_nat trials)%Z →
  let I := (configure fe trials elements dim Q J X N qf).1 in
  ∃ (R : list vec) (st' : store),
    Mult I U which st = Some (R, st')
    ∧ Mult I U (-1) st = Some (R, st)
    ∧ length st' = length st
    ∧ ∀ j, j ≠ Z.to_nat which → st' !! j = st !! j.
Proof.
  intros Hw I. subst I.
  exists (evaluation_kernel (make_config fe elements dim Q J X N qf) U).
  exists (<[Z.to_nat which := (evaluation_kernel_AD
    (make_config fe elements dim Q J X N qf) (Z.to_nat which) U).2]> st).
  rewrite Mult_AD, Mult_plain by done. unfold evaluation_with_AD_fn.
  pose proof (evaluation_kernel_AD_residual
    (make_config fe elements dim Q J X N qf) (Z.to_nat which) U) as HR.
  destruct (evaluation_kernel_AD _ _ _) as [R c]. simpl in HR. subst R.
  split; [done|]. split; [done|]. split; [by rewrite length_insert|].
  intros j Hj. by rewrite list_lookup_insert_ne.
Qed.

Lemma Mult_AD_same_residual_witness :
  ∃ (R : list vec) (st' : store),
    Mult example_integral.1 example_input 0 example_integral.2 = Some (R, st')
    ∧ Mult example_integral.1 example_input (-1) example_integral.2
      = Some (R, example_integral.2)
    ∧ length st' = length example_integral.2
    ∧ ∀ j, j ≠ Z.to_nat 0 → st' !! j = example_integral.2 !! j.
Proof.
  apply (Mult_AD_same_residual example_fe 1 1 2 1 [[1]] [[[0; 0]]] [[[0; 1]]]
    example_qf example_input example_integral.2 0).
  lia.
Defined.

(** ** Gradient operations on a fresh integral *)

Lemma zero_derivative_nil : zero_derivative [].
Proof. by intros [|k]. Qed.

Lemma zero_derivative_tzero (d : nat) : zero_derivative (tzero [d]).
Proof. intros k. apply lookup_total_tzero_vec. Qed.

Lemma fresh_cache_zero (d elements qpts e q : nat) :
  zero_derivative ((fresh_cache d elements qpts !!! e) !!! q).
Proof.
  assert (Forall (Forall (λ g, g = tzero [d])) (fresh_cache d elements qpts))
    as Hall.
  { unfold fresh_cache, make_shared_array. apply Forall_fmap, Forall_forall.
    intros e' _. simpl. apply Forall_take, Forall_drop, Forall_replicate.
    done. }
  destruct (fresh_cache d elements qpts !! e) as [row|] eqn:He.
  - rewrite (list_lookup_total_correct _ _ _ He).
    rewrite Forall_lookup in Hall. specialize (Hall e row He).
    destruct (row !! q) as [g|] eqn:Hq.
    + rewrite (list_lookup_total_correct _ _ _ Hq).
      rewrite Forall_lookup in Hall. rewrite (Hall q g Hq).
      apply zero_derivative_tzero.
    + rewrite list_lookup_total_alt, Hq. apply zero_derivative_nil.
  - rewrite (list_lookup_total_alt (fresh_cache d elements qpts)), He. simpl.
    intros k. by destruct q, k.
Qed.

Lemma chain_rule_zero (d : nat) (df_dx dx : vec) :
  zero_derivative df_dx → chain_rule [d] df_dx dx = 0.
Proof.
  intros Hz. unfold chain_rule. cbn [for_constexpr].
  rewrite (for_sum d (λ i, tget [d] df_dx [i] * tget [d] dx [i])).
  rewrite sum_n_zero; [ring|]. intros i _.
  change (tget [d] df_dx [i]) with (df_dx !!! i). rewrite Hz. ring.
Qed.

(** Before any AD-evaluation pass [GradientMult] raises nothing: it
    reads the zero-initialized cache, every Jacobian-vector product it
    integrates is zero, and the arrays are left as they were. *)
Lemma GradientMult_before_AD (fe : finite_element)
    (trials elements dim Q : nat) (J : list (list double))
    (X N : list (list vec)) (qf : qexpr) (dU : list vec) (which : nat) :
  (which < trials)%nat →
  let I := (configure fe trials elements dim Q J X N qf).1 in
  let st := (configure fe trials elements dim Q J X N qf).2 in
  let cfg := make_config fe elements dim Q J X N qf in
  GradientMult I dU which st
  = Some ((λ _, integrate fe (replicate (quadrature_points_per_element cfg) 0))
          <$> seq 0 elements, st).
Proof.
  intros Hw I st cfg. subst I. unfold GradientMult, configure.
  cbn [fst action_of_gradient_]. rewrite subscript_Array_fmap by lia.
  rewrite Nat2Z.id. unfold action_of_gradient_fn. f_equal. f_equal.
  unfold action_of_gradient_kernel. apply list_fmap_ext. intros _ e _.
  cbn [fe_of make_config]. f_equal. unfold jvp_at.
  rewrite <- fmap_seq_const. apply list_fmap_ext. intros _ q _.
  rewrite chain_rule_zero; [ring|]. subst st. unfold configure. cbn [snd].
  rewrite lookup_total_fmap_seq by done. apply fresh_cache_zero.
Qed.

(** C9.  On every configured integral [ComputeElementGradients] does not
    reach an element gradient kernel: [element_gradient_] is the array
    of handles, one per trial field, and the call operator is applied to
    the array itself, where [GradientMult] selects
    [action_of_gradient_[which]]. *)
Theorem ComputeElementGradients_calls_the_array (fe : finite_element)
    (trials elements dim Q : nat) (J : list (list double))
    (X N : list (list vec)) (qf : qexpr) (st : store) :
  ComputeElementGradients (configure fe trials elements dim Q J X N qf).1 st
  = None
  ∧ (∀ which, (which < trials)%nat →
       subscript (element_gradient_
                    (configure fe trials elements dim Q J X N qf).1)
         (Z.of_nat which)
       = Some (element_gradient_fn_of
                 (make_config fe elements dim Q J X N qf) which)).
Proof.
  split; [done|]. intros which Hw. unfold configure.
  cbn [fst element_gradient_]. rewrite subscript_Array_fmap by lia.
  by rewrite Nat2Z.id.
Qed.

(** ** Row operations *)

Lemma length_scale_l_vec (n : nat) (c : double) (y : vec) :
  length (scale_l [n] c y : vec) = n.
Proof. rewrite scale_l_cons. by rewrite length_fmap, length_seq. Qed.

Lemma lookup_scale_l_vec (n : nat) (c : double) (y : vec) (k : nat) :
  (k < n)%nat → (scale_l [n] c y : vec) !!! k = c * y !!! k.
Proof.
  intros Hk. rewrite scale_l_cons.
  exact (lookup_total_fmap_seq n k (λ i, c * y !!! i) Hk).
Qed.

Lemma length_div_r_vec (n : nat) (c : double) (y : vec) :
  length (div_r [n] c y : vec) = n.
Proof. rewrite div_r_cons. by rewrite length_fmap, length_seq. Qed.

Lemma lookup_div_r_vec (n : nat) (c : double) (y : vec) (k : nat) :
  (k < n)%nat → (div_r [n] c y : vec) !!! k = y !!! k / c.
Proof.
  intros Hk. rewrite div_r_cons.
  exact (lookup_total_fmap_seq n k (λ i, y !!! i / c) Hk).
Qed.

Lemma add_assign_vec (n : nat) (x y : vec) :
  length x = n →
  length (add_assign [n] x y : vec) = n
  ∧ ∀ k, (k < n)%nat → (add_assign [n] x y : vec) !!! k = x !!! k + y !!! k.
Proof.
  intros Hlen. exact (for_update_vec n (λ k v, v + y !!! k) x Hlen).
Qed.

Lemma sub_assign_vec (n : nat) (x y : vec) :
  length x = n →
  length (sub_assign [n] x y : vec) = n
  ∧ ∀ k, (k < n)%nat → (sub_assign [n] x y : vec) !!! k = x !!! k - y !!! k.
Proof.
  intros Hlen. exact (for_update_vec n (λ k v, v - y !!! k) x Hlen).
Qed.

Lemma transp_lt (n r1 r2 r : nat) :
  (r1 < n)%nat → (r2 < n)%nat → (r < n)%nat → (transp r1 r2 r < n)%nat.
Proof. intros. unfold transp. repeat case_bool_decide; lia. Qed.

Lemma transp_involutive (r1 r2 r : nat) : transp r1 r2 (transp r1 r2 r) = r.
Proof. unfold transp. repeat case_bool_decide; congruence. Qed.

Lemma is_mat_swap_rows (n : nat) (A : mat) (r1 r2 : nat) :
  is_mat n n A → (r1 < n)%nat → (r2 < n)%nat → is_mat n n (swap_rows r1 r2 A).
Proof.
  intros HA Hr1 Hr2. unfold swap_rows.
  apply is_mat_insert; [apply is_mat_insert|]; try done;
    by apply (is_mat_row n n).
Qed.

Lemma entry_swap_rows (n : nat) (A : mat) (r1 r2 r c : nat) :
  is_mat n n A → (r1 < n)%nat → (r2 < n)%nat →
  entry (swap_rows r1 r2 A) r c = entry A (transp r1 r2 r) c.
Proof.
  intros [Hlen _] Hr1 Hr2. unfold entry, swap_rows, transp. f_equal.
  repeat case_bool_decide; subst.
  - rewrite list_lookup_total_insert_eq; [done|]. rewrite length_insert. lia.
  - rewrite list_lookup_total_insert_ne by done.
    rewrite list_lookup_total_insert_eq; [done|lia].
  - by rewrite !list_lookup_total_insert_ne by done.
Qed.

(** The entries after [M[j] += c * M[i]]. *)
Lemma row_axpy (n : nat) (M : mat) (i j : nat) (c : double) :
  is_mat n n M → (i < n)%nat → (j < n)%nat →
  let M' := <[j := add_assign [n] (M !!! j) (scale_l [n] c (M !!! i))]> M in
  is_mat n n M'
  ∧ ∀ r k, (r < n)%nat → (k < n)%nat →
      entry M' r k
      = if bool_decide (r = j) then entry M j k + c * entry M i k
        else entry M r k.
Proof.
  intros HM Hi Hj M'. subst M'.
  destruct (add_assign_vec n (M !!! j) (scale_l [n] c (M !!! i)))
    as [Hlen Hent]; [by apply (is_mat_row n n)|].
  split; [by apply is_mat_insert|]. intros r k Hr Hk. unfold entry.
  case_bool_decide as Hrj.
  - subst r. rewrite list_lookup_total_insert_eq by (destruct HM; lia).
    rewrite Hent by done. by rewrite lookup_scale_l_vec.
  - by rewrite list_lookup_total_insert_ne.
Qed.

(** The entries after [M[j] -= c * M[i]]. *)
Lemma row_axmy (n : nat) (M : mat) (i j : nat) (c : double) :
  is_mat n n M → (i < n)%nat → (j < n)%nat →
  let M' := <[j := sub_assign [n] (M !!! j) (scale_l [n] c (M !!! i))]> M in
  is_mat n n M'
  ∧ ∀ r k, (r < n)%nat → (k < n)%nat →
      entry M' r k
      = if bool_decide (r = j) then entry M j k - c * entry M i k
        else entry M r k.
Proof.
  intros HM Hi Hj M'. subst M'.
  destruct (sub_assign_vec n (M !!! j) (scale_l [n] c (M !!! i)))
    as [Hlen Hent]; [by apply (is_mat_row n n)|].
  split; [by apply is_mat_insert|]. intros r k Hr Hk. unfold entry.
  case_bool_decide as Hrj.
  - subst r. rewrite list_lookup_total_insert_eq by (destruct HM; lia).
    rewrite Hent by done. by rewrite lookup_scale_l_vec.
  - by rewrite list_lookup_total_insert_ne.
Qed.

(** The entries after [M[i] = M[i] / s]. *)
Lemma row_div (n : nat) (M : mat) (i : nat) (s : double) :
  is_mat n n M → (i < n)%nat →
  let M' := <[i := div_r [n] s (M !!! i)]> M in
  is_mat n n M'
  ∧ ∀ r k, (r < n)%nat → (k < n)%nat →
      entry M' r k
      = if bool_decide (r = i) then entry M i k / s else entry M r k.
Proof.
  intros HM Hi M'. subst M'.
  split; [apply is_mat_insert; [done|apply length_div_r_vec]|].
  intros r k Hr Hk. unfold entry. case_bool_decide as Hri.
  - subst r. rewrite list_lookup_total_insert_eq by (destruct HM; lia).
    by rewrite lookup_div_r_vec.
  - by rewrite list_lookup_total_insert_ne.
Qed.

(** ** More on sums *)

Lemma sum_n_trunc (m n : nat) (f : nat → double) :
  (m ≤ n)%nat → (∀ c, (m ≤ c < n)%nat → f c = 0) → sum_n n f = sum_n m f.
Proof.
  intros Hle Hf. induction n as [|n IH].
  - by replace m with 0%nat by lia.
  - destruct (decide (m = S n)) as [->|Hne]; [done|]. simpl.
    rewrite IH by (try lia; intros; apply Hf; lia). rewrite (Hf n) by lia. ring.
Qed.

Lemma sum_n_delta_l (n i : nat) (f : nat → double) :
  (i < n)%nat → sum_n n (λ k, delta i k * f k) = f i.
Proof.
  intros Hi. rewrite (sum_n_single n i) by
    (try done; intros k _ Hk; unfold delta;
     rewrite bool_decide_eq_false_2 by done; ring).
  unfold delta. rewrite bool_decide_eq_true_2 by done. ring.
Qed.

Lemma sum_n_delta_r (n j : nat) (f : nat → double) :
  (j < n)%nat → sum_n n (λ k, f k * delta k j) = f j.
Proof.
  intros Hj. rewrite (sum_n_single n j) by
    (try done; intros k _ Hk; unfold delta;
     rewrite bool_decide_eq_false_2 by done; ring).
  unfold delta. rewrite bool_decide_eq_true_2 by done. ring.
Qed.

(** Associativity of the product of matrices, on entries. *)
Lemma sum_n_assoc (n : nat) (a : nat → double) (b : nat → nat → double)
    (c : nat → double) :
  sum_n n (λ k, sum_n n (λ j, a j * b j k) * c k)
  = sum_n n (λ j, a j * sum_n n (λ k, b j k * c k)).
Proof.
  rewrite (sum_n_ext _ _ (λ k, sum_n n (λ j, a j * b j k * c k)))
    by (intros; by rewrite sum_n_scale_r).
  rewrite sum_n_exchange. apply sum_n_ext. intros j _.
  rewrite <- sum_n_scale_l. apply sum_n_ext. intros k _. ring.
Qed.

Lemma sum_n_indicator_step (n i : nat) (f : nat → double) :
  (i < n)%nat →
  sum_n n (λ k, if bool_decide (i ≤ k)%nat then f k else 0)
  = f i + sum_n n (λ k, if bool_decide (S i ≤ k)%nat then f k else 0).
Proof.
  intros Hi. induction n as [|n IH]; [lia|]. simpl.
  destruct (decide (i = n)) as [->|Hne].
  - rewrite !sum_n_zero by
      (intros k Hk; rewrite bool_decide_eq_false_2 by lia; done).
    rewrite bool_decide_eq_true_2, bool_decide_eq_false_2 by lia. ring.
  - rewrite IH by lia. repeat case_bool_decide; try lia; ring.
Qed.

(** ** The search for the pivot *)

Lemma find_pivot_spec (n i : nat) (A : mat) :
  (i < n)%nat →
  (i ≤ (find_pivot n i A).2 < n)%nat
  ∧ ∀ r, (i ≤ r < n)%nat →
      abs (entry A r i) ≤ abs (entry A (find_pivot n i A).2 i).
Proof.
  intros Hi. unfold find_pivot.
  loop_inv (λ j (st : double * nat),
    (i ≤ st.2 < j)%nat ∧ st.1 = abs (entry A st.2 i)
    ∧ ∀ r, (i ≤ r < j)%nat → abs (entry A r i) ≤ st.1); [lia| | |].
  - simpl. split; [lia|]. split; [done|]. intros r Hr.
    replace r with i by lia. apply Qcle_refl.
  - intros j [mv p] Hj (Hp & Hmv & Hmax). simpl in *.
    destruct (gtb (abs (entry A j i)) mv) eqn:Hgt; simpl.
    + apply gtb_spec in Hgt. split; [lia|]. split; [done|]. intros r Hr.
      destruct (decide (r = j)) as [->|Hne]; [apply Qcle_refl|].
      apply Qclt_le_weak, Qcle_lt_trans with mv; [|done]. apply Hmax. lia.
    + apply gtb_false in Hgt. split; [lia|]. split; [done|]. intros r Hr.
      destruct (decide (r = j)) as [->|Hne]; [done|]. apply Hmax. lia.
  - intros [mv p] (Hp & Hmv & Hmax). simpl in *. split; [lia|].
    intros r Hr. rewrite <- Hmv. by apply Hmax.
Qed.

(** ** Singular leading columns *)

(** A square upper triangular system with a nonzero diagonal has a
    solution. *)
Lemma upper_solve (i : nat) (a : nat → nat → double) (b : nat → double) :
  (∀ c, (c < i)%nat → a c c ≠ 0) →
  (∀ r c, (c < r < i)%nat → a r c = 0) →
  ∃ w : nat → double, ∀ r, (r < i)%nat → sum_n i (λ c, a r c * w c) = b r.
Proof.
  revert b. induction i as [|i IH]; intros b Hdiag Hlow.
  - exists (λ _, 0). intros; lia.
  - destruct (IH (λ r, b r - a r i * (b i / a i i))) as [w Hw].
    { intros c Hc. apply Hdiag. lia. }
    { intros r c Hrc. apply Hlow. lia. }
    exists (λ c, if bool_decide (c = i) then b i / a i i else w c).
    intros r Hr. simpl. rewrite bool_decide_eq_true_2 by done.
    destruct (decide (r = i)) as [->|Hne].
    + rewrite sum_n_zero.
      * field. apply Hdiag. lia.
      * intros c Hc. rewrite Hlow by lia. ring.
    + rewrite (sum_n_ext _ _ (λ c, a r c * w c)).
      * rewrite Hw by lia. ring.
      * intros c Hc. by rewrite bool_decide_eq_false_2 by lia.
Qed.

(** After the swap the pivot is not zero: otherwise column [i] would
    depend on the reduced columns before it, against injectivity. *)
Lemma pivot_nonzero (n i : nat) (A : mat) :
  (i < n)%nat → injective n A → reduced n i A →
  (∀ r, (i ≤ r < n)%nat → abs (entry A r i) ≤ abs (entry A i i)) →
  entry A i i ≠ 0.
Proof.
  intros Hi Hinj [Hlow Hdiag] Hmax Hzero.
  assert (∀ r, (i ≤ r < n)%nat → entry A r i = 0) as Hcol.
  { intros r Hr. apply abs_le_0. rewrite <- abs_0, <- Hzero. by apply Hmax. }
  destruct (upper_solve i (entry A) (λ r, - entry A r i)) as [w Hw].
  { done. }
  { intros r c Hrc. apply Hlow; lia. }
  pose (v := λ c, if bool_decide (c < i)%nat then w c
                  else if bool_decide (c = i) then 1 else 0).
  assert (v i = 0) as Hvi.
  { apply Hinj; [|done]. intros r Hr.
    rewrite (sum_n_trunc (S i) n) by
      (try lia; intros c Hc; unfold v;
       rewrite !bool_decide_eq_false_2 by lia; ring).
    simpl. unfold v at 2.
    rewrite bool_decide_eq_false_2, bool_decide_eq_true_2 by (done || lia).
    destruct (decide (r < i)%nat) as [Hlt|Hge].
    - rewrite (sum_n_ext _ _ (λ c, entry A r c * w c)).
      + rewrite Hw by done. ring.
      + intros c Hc. unfold v. by rewrite bool_decide_eq_true_2.
    - rewrite sum_n_zero.
      + rewrite Hcol by lia. ring.
      + intros c Hc. rewrite Hlow by lia. ring. }
  unfold v in Hvi.
  rewrite bool_decide_eq_false_2, bool_decide_eq_true_2 in Hvi by (done || lia).
  by apply Q_apart_0_1.
Qed.

(** ** The elimination loop on a matrix passed by value *)

Lemma elimination_inv_swap (n : nat) (A0 : mat) (i p : nat) (A B : mat) :
  (i ≤ p < n)%nat →
  elimination_inv n A0 i (A, B) →
  elimination_inv n A0 i (swap_rows p i A, swap_rows p i B).
Proof.
  intros Hp (HA & HB & Hprod & Hinj & Hlow & Hdiag). simpl in *.
  split; [by apply is_mat_swap_rows; (done || lia)|].
  split; [by apply is_mat_swap_rows; (done || lia)|].
  simpl. split; [|split; [|split]].
  - intros r c Hr Hc. rewrite (entry_swap_rows n) by (done || lia).
    rewrite <- Hprod by (try done; apply transp_lt; lia).
    unfold mmul. apply sum_n_ext. intros k Hk.
    by rewrite (entry_swap_rows n) by (done || lia).
  - intros v Hv. apply Hinj. intros r Hr.
    etrans; [|exact (Hv (transp p i r) ltac:(apply transp_lt; lia))].
    apply sum_n_ext. intros c Hc.
    by rewrite (entry_swap_rows n), transp_involutive by (done || lia).
  - intros r c Hc Hr. rewrite (entry_swap_rows n) by (done || lia).
    apply Hlow; [done|]. unfold transp. repeat case_bool_decide; lia.
  - intros c Hc. rewrite (entry_swap_rows n) by (done || lia).
    unfold transp. rewrite !bool_decide_eq_false_2 by lia. by apply Hdiag.
Qed.

(** The invariant of the loop that zeroes column [i] below the diagonal:
    the rows between [i] and [j] are done. *)
Lemma eliminate_below_spec (n : nat) (A0 : mat) (i : nat) (A B : mat) :
  (i < n)%nat →
  elimination_inv n A0 i (A, B) →
  entry A i i ≠ 0 →
  elimination_inv n A0 (S i) (eliminate_below n i (A, B)).
Proof.
  intros Hi Hinv Hpiv. unfold eliminate_below.
  loop_inv (λ j (AB : mat * mat),
    elimination_inv n A0 i AB ∧ entry AB.1 i i ≠ 0
    ∧ ∀ r, (i < r < j)%nat → entry AB.1 r i = 0); [lia| | |].
  - split; [done|]. split; [done|]. intros; lia.
  - intros j [A1 B1] Hj ((HA & HB & Hprod & Hinj & Hlow & Hdiag) & Hp & Hcol).
    simpl in *. destruct (neqb (entry A1 j i) 0) eqn:Hne.
    + set (c := - entry A1 j i / entry A1 i i).
      destruct (row_axpy n A1 i j c) as [HA2 HentA]; [done|lia..|].
      destruct (row_axpy n B1 i j c) as [HB2 HentB]; [done|lia..|].
      set (A2 := <[j:=add_assign [n] (A1 !!! j) (scale_l [n] c (A1 !!! i))]> A1)
        in *.
      set (B2 := <[j:=add_assign [n] (B1 !!! j) (scale_l [n] c (B1 !!! i))]> B1)
        in *.
      assert (∀ r k, (r < n)%nat → (k < n)%nat →
        entry (set_entry j i 0 A2) r k
        = if bool_decide (r = j) then entry A1 j k + c * entry A1 i k
          else entry A1 r k) as Hent.
      { intros r k Hr Hk. rewrite (entry_set_entry n n) by (done || lia).
        case_bool_decide as Heq.
        - destruct Heq as [-> ->]. rewrite bool_decide_eq_true_2 by done.
          unfold c. by field.
        - by apply HentA. }
      split; [|split].
      * split; [by apply is_mat_set_entry|]. split; [done|]. simpl.
        split; [|split; [|split]].
        -- intros r k Hr Hk. rewrite Hent by done. unfold mmul.
           rewrite (sum_n_ext _ _ (λ l,
             if bool_decide (r = j)
             then entry B1 j l * entry A0 l k + c * (entry B1 i l * entry A0 l k)
             else entry B1 r l * entry A0 l k)).
           ++ case_bool_decide as Hrj.
              ** subst r. rewrite sum_n_plus, sum_n_scale_l.
                 fold (mmul n B1 A0 j k). fold (mmul n B1 A0 i k).
                 by rewrite !Hprod by lia.
              ** fold (mmul n B1 A0 r k). by apply Hprod.
           ++ intros l Hl. rewrite HentB by done. case_bool_decide; ring.
        -- intros v Hv. apply Hinj. intros r Hr.
           assert (sum_n n (λ k, entry A1 i k * v k) = 0) as Hrow_i.
           { etrans; [|exact (Hv i ltac:(lia))]. apply sum_n_ext. intros k Hk.
             rewrite Hent by lia. by rewrite bool_decide_eq_false_2 by lia. }
           destruct (decide (r = j)) as [->|Hrj].
           ++ assert (sum_n n (λ k, entry A1 j k * v k)
                      + c * sum_n n (λ k, entry A1 i k * v k) = 0) as Hrow_j.
              { etrans; [|exact (Hv j ltac:(lia))].
                rewrite <- sum_n_scale_l, <- sum_n_plus.
                apply sum_n_ext. intros k Hk. rewrite Hent by lia.
                rewrite bool_decide_eq_true_2 by done. ring. }
              rewrite Hrow_i in Hrow_j. etrans; [|exact Hrow_j]. ring.
           ++ etrans; [|exact (Hv r Hr)]. apply sum_n_ext. intros k Hk.
              rewrite Hent by lia. by rewrite bool_decide_eq_false_2.
        -- intros r k Hk Hr. rewrite Hent by lia. case_bool_decide as Hrj.
           ++ rewrite (Hlow j k), (Hlow i k) by lia. ring.
           ++ by apply Hlow.
        -- intros k Hk. rewrite Hent by lia.
           rewrite bool_decide_eq_false_2 by lia. by apply Hdiag.
      * simpl. rewrite Hent by lia. by rewrite bool_decide_eq_false_2 by lia.
      * simpl. intros r Hr. rewrite Hent by lia. case_bool_decide as Hrj.
        -- unfold c. by field.
        -- apply Hcol. lia.
    + apply neqb_false in Hne. simpl.
      split; [done|]. split; [done|]. intros r Hr.
      destruct (decide (r = j)) as [->|Hrj]; [done|]. apply Hcol. lia.
  - intros [A1 B1] ((HA & HB & Hprod & Hinj & Hlow & Hdiag) & Hp & Hcol).
    simpl in *. repeat (split; [done|]). split.
    + intros r c Hc Hr. destruct (decide (c = i)) as [->|Hne].
      * apply Hcol. lia.
      * apply Hlow; lia.
    + intros c Hc. destruct (decide (c = i)) as [->|Hne]; [done|].
      apply Hdiag. lia.
Qed.

Lemma forward_step_spec (n : nat) (A0 : mat) (i : nat) (AB : mat * mat) :
  (i < n)%nat →
  elimination_inv n A0 i AB → elimination_inv n A0 (S i) (forward_step n i AB).
Proof.
  intros Hi Hinv. destruct AB as [A B]. unfold forward_step.
  destruct (find_pivot_spec n i A Hi) as [Hp Hmax].
  destruct (find_pivot n i A) as [mv p]. simpl in Hp, Hmax.
  pose proof (elimination_inv_swap n A0 i p A B Hp Hinv) as Hswap.
  apply eliminate_below_spec; [done..|].
  destruct Hinv as (HA & _). simpl in HA.
  destruct Hswap as (_ & _ & _ & Hinj & Hred). simpl in Hinj, Hred.
  apply (pivot_nonzero n); [done..|]. intros r Hr.
  rewrite !(entry_swap_rows n) by (done || lia).
  unfold transp at 2. rewrite bool_decide_eq_true_2 by done.
  apply Hmax. unfold transp. repeat case_bool_decide; lia.
Qed.

Lemma mmul_identity_l (n : nat) (A : mat) (r c : nat) :
  (r < n)%nat → mmul n (DenseIdentity n) A r c = entry A r c.
Proof.
  intros Hr. unfold mmul.
  rewrite (sum_n_ext _ _ (λ k, delta r k * entry A k c)).
  - exact (sum_n_delta_l n r (λ k, entry A k c) Hr).
  - intros k Hk. by rewrite entry_DenseIdentity.
Qed.

(** A matrix with a left inverse is injective. *)
Lemma left_inverse_injective (n : nat) (A A' : mat) :
  (∀ r c, (r < n)%nat → (c < n)%nat → mmul n A' A r c = delta r c) →
  injective n A.
Proof.
  intros Hinv v Hv c Hc.
  rewrite <- (sum_n_delta_l n c v) by done.
  rewrite (sum_n_ext _ _ (λ k, mmul n A' A c k * v k))
    by (intros k Hk; by rewrite Hinv).
  unfold mmul. rewrite sum_n_assoc. apply sum_n_zero. intros j Hj.
  rewrite Hv by done. ring.
Qed.

(** The elimination loop ends with an upper triangular matrix [U] with a
    nonzero diagonal and a matrix [B1] such that [B1 A0 = U]. *)
Lemma elimination_spec (n : nat) (A0 : mat) :
  is_mat n n A0 → injective n A0 →
  elimination_inv n A0 n (for_ 0 n (forward_step n) (A0, DenseIdentity n)).
Proof.
  intros HA0 Hinj. apply (for_ind (elimination_inv n A0)); [lia| |].
  - split; [done|]. split; [apply is_mat_DenseIdentity|]. simpl.
    split; [|split; [done|]].
    + intros r c Hr Hc. by apply mmul_identity_l.
    + split; intros; lia.
  - intros i AB Hi Hinv. apply forward_step_spec; [lia|done].
Qed.

(** ** The upper triangular solve *)

(** The entries after one iteration: row [i] is divided by the pivot,
    and its multiple is subtracted from every row above it. *)
Lemma backward_step_entries (n i : nat) (U B : mat) :
  (i < n)%nat → is_mat n n B →
  is_mat n n (backward_step n i U B)
  ∧ ∀ r k, (r < n)%nat → (k < n)%nat →
      entry (backward_step n i U B) r k
      = if bool_decide (r = i) then entry B i k / entry U i i
        else if bool_decide (r < i)%nat
             then entry B r k - entry U r i * (entry B i k / entry U i i)
             else entry B r k.
Proof.
  intros Hi HB. unfold backward_step.
  destruct (row_div n B i (entry U i i) HB Hi) as [HB' Hent'].
  set (B' := <[i:=div_r [n] (entry U i i) (B !!! i)]> B) in *.
  loop_inv (λ j (B'' : mat), is_mat n n B''
    ∧ ∀ r k, (r < n)%nat → (k < n)%nat →
        entry B'' r k
        = if bool_decide (j ≤ r < i)%nat
          then entry B' r k - entry U r i * entry B' i k
          else entry B' r k); [lia| | |].
  - split; [done|]. intros r k Hr Hk. by rewrite bool_decide_eq_false_2 by lia.
  - intros j B'' Hj [HB'' Hent].
    destruct (neqb (entry U j i) 0) eqn:Hne.
    + destruct (row_axmy n B'' i j (entry U j i)) as [HB3 Hent3];
        [done|lia..|].
      split; [done|]. intros r k Hr Hk. rewrite Hent3 by done.
      rewrite !Hent by lia.
      repeat case_bool_decide; subst; try lia; done.
    + apply neqb_false in Hne. split; [done|]. intros r k Hr Hk.
      rewrite Hent by done.
      repeat case_bool_decide; try lia; try done.
      replace r with j by lia. rewrite Hne. ring.
  - intros B'' [HB'' Hent]. split; [done|]. intros r k Hr Hk.
    rewrite Hent by done. rewrite !Hent' by lia.
    repeat case_bool_decide; try lia; done.
Qed.

Lemma backward_step_spec (n i : nat) (U B1 B : mat) :
  (i < n)%nat → reduced n n U →
  solve_inv n U B1 (S i) B → solve_inv n U B1 i (backward_step n i U B).
Proof.
  intros Hi [Hlow Hdiag] [HB Hinv].
  destruct (backward_step_entries n i U B Hi HB) as [HB' Hent].
  split; [done|]. intros r c Hr Hc.
  rewrite <- (Hinv r c) by done.
  rewrite sum_n_indicator_step by done.
  rewrite (sum_n_ext _
    (λ k, if bool_decide (S i ≤ k)%nat
          then entry U r k * entry (backward_step n i U B) k c else 0)
    (λ k, if bool_decide (S i ≤ k)%nat
          then entry U r k * entry B k c else 0)).
  - rewrite !Hent by lia. rewrite (bool_decide_eq_true_2 (i = i)) by done.
    set (rest := sum_n n _).
    destruct (decide (r < i)%nat) as [Hlt|Hge].
    + rewrite (bool_decide_eq_true_2 (r < i)%nat) by done.
      rewrite (bool_decide_eq_false_2 (r = i)) by lia.
      rewrite (bool_decide_eq_true_2 (r < S i)%nat) by lia. ring.
    + rewrite (bool_decide_eq_false_2 (r < i)%nat) by done.
      destruct (decide (r = i)) as [->|Hne].
      * rewrite (bool_decide_eq_true_2 (i < S i)%nat) by lia.
        field. apply Hdiag. lia.
      * rewrite (bool_decide_eq_false_2 (r < S i)%nat) by lia.
        rewrite (Hlow r i) by lia. ring.
  - intros k Hk. case_bool_decide; [|done]. rewrite Hent by lia.
    by rewrite !bool_decide_eq_false_2 by lia.
Qed.

(** The solve ends with [X] such that [U X = B1]. *)
Lemma solve_spec (n : nat) (U B1 : mat) :
  is_mat n n B1 → reduced n n U →
  let X := for_down n 0 (λ i, backward_step n i U) B1 in
  is_mat n n X
  ∧ ∀ r c, (r < n)%nat → (c < n)%nat → mmul n U X r c = entry B1 r c.
Proof.
  intros HB1 HU X. subst X.
  loop_inv (solve_inv n U B1); [lia| | |].
  - split; [done|]. intros r c Hr Hc. rewrite bool_decide_eq_true_2 by done.
    rewrite sum_n_zero; [ring|]. intros k Hk.
    by rewrite bool_decide_eq_false_2 by lia.
  - intros i B Hi Hinv. apply backward_step_spec; [lia|done..].
  - intros X [HX Hinv]. split; [done|]. intros r c Hr Hc.
    rewrite <- (Hinv r c) by done. rewrite bool_decide_eq_false_2 by lia.
    unfold mmul. rewrite Qcplus_0_l. apply sum_n_ext. intros k Hk.
    by rewrite bool_decide_eq_true_2 by lia.
Qed.

(** ** Invertible matrices *)

Lemma invertible_entries (n : nat) (A : mat) :
  is_mat n n A → invertible n A →
  ∃ A', is_mat n n A'
    ∧ (∀ r c, (r < n)%nat → (c < n)%nat → mmul n A A' r c = delta r c)
    ∧ (∀ r c, (r < n)%nat → (c < n)%nat → mmul n A' A r c = delta r c).
Proof.
  intros HA (A' & HA' & Hr & Hl). exists A'. split; [done|].
  split; intros r c Hr' Hc'.
  - destruct (dot_mm_spec n n n A A') as [_ Hent].
    unfold mmul. rewrite <- Hent, Hr by done. by apply entry_DenseIdentity.
  - destruct (dot_mm_spec n n n A' A) as [_ Hent].
    unfold mmul. rewrite <- Hent, Hl by done. by apply entry_DenseIdentity.
Qed.

Lemma dot_mm_identity (n : nat) (A B : mat) :
  (∀ r c, (r < n)%nat → (c < n)%nat → mmul n A B r c = delta r c) →
  dot_mm n n n A B = DenseIdentity n.
Proof.
  intros Hent. destruct (dot_mm_spec n n n A B) as [Hmat Hdot].
  apply (mat_ext n n); [done|apply is_mat_DenseIdentity|].
  intros r c Hr Hc. rewrite Hdot, entry_DenseIdentity by done.
  by apply Hent.
Qed.

(** On a matrix passed by value, Gauss elimination with partial pivoting
    computes the inverse of every invertible matrix. *)
Lemma inv_general_by_value_spec (n : nat) (A : mat) :
  is_mat n n A → invertible n A →
  dot_mm n n n A (inv_general_by_value n A) = DenseIdentity n
  ∧ dot_mm n n n (inv_general_by_value n A) A = DenseIdentity n.
Proof.
  intros HA Hinv.
  destruct (invertible_entries n A HA Hinv) as (A' & HA' & Hright & Hleft).
  pose proof (left_inverse_injective n A A' Hleft) as Hinj.
  pose proof (elimination_spec n A HA Hinj) as Helim.
  unfold inv_general_by_value.
  destruct (for_ 0 n (forward_step n) (A, DenseIdentity n)) as [U B1].
  destruct Helim as (HU & HB1 & Hprod & HinjU & Hred). simpl in *.
  destruct (solve_spec n U B1 HB1 Hred) as [HX Hsolve].
  set (X := for_down n 0 (λ i, backward_step n i U) B1) in *.
  assert (∀ r c, (r < n)%nat → (c < n)%nat → mmul n X A r c = delta r c)
    as HXA.
  { intros r c Hr Hc.
    enough (mmul n X A r c - delta r c = 0) as Hz.
    { rewrite <- (Qcplus_0_r (delta r c)), <- Hz. ring. }
    apply (HinjU (λ k, mmul n X A k c - delta k c)); [|done].
    intros r' Hr'.
    rewrite (sum_n_ext _ _ (λ k,
      entry U r' k * mmul n X A k c - entry U r' k * delta k c))
      by (intros; ring).
    rewrite sum_n_minus.
    rewrite (sum_n_delta_r n c (λ k, entry U r' k)) by done.
    unfold mmul at 1. rewrite <- sum_n_assoc.
    rewrite (sum_n_ext _ _ (λ k, entry B1 r' k * entry A k c)).
    - fold (mmul n B1 A r' c). rewrite Hprod by done. ring.
    - intros k Hk. fold (mmul n U X r' k). by rewrite Hsolve. }
  assert (∀ r c, (r < n)%nat → (c < n)%nat → entry X r c = entry A' r c)
    as HXA'.
  { intros r c Hr Hc.
    rewrite <- (sum_n_delta_r n c (λ k, entry X r k)) by done.
    rewrite (sum_n_ext _ _ (λ k, entry X r k * mmul n A A' k c))
      by (intros k Hk; by rewrite Hright).
    unfold mmul at 1. rewrite <- sum_n_assoc.
    rewrite (sum_n_ext _ _ (λ k, delta r k * entry A' k c)).
    - exact (sum_n_delta_l n r (λ k, entry A' k c) Hr).
    - intros k Hk. fold (mmul n X A r k). by rewrite HXA. }
  split; apply dot_mm_identity; [|done].
  intros r c Hr Hc. rewrite <- Hright by done. unfold mmul.
  apply sum_n_ext. intros k Hk. by rewrite HXA'.
Qed.

(** ** The closed forms for 2 by 2 and 3 by 3 matrices *)

Lemma det2_nonzero (A : mat) : is_mat 2 2 A → invertible 2 A → det2 A ≠ 0.
Proof.
  intros HA Hinv Hdet.
  destruct (invertible_entries 2 A HA Hinv) as (A' & _ & Hright & _).
  assert (det2 A * det2 A'
          = mmul 2 A A' 0 0 * mmul 2 A A' 1 1
            - mmul 2 A A' 0 1 * mmul 2 A A' 1 0) as Hmul.
  { unfold det2, mmul. simpl. ring. }
  rewrite !Hright, Hdet in Hmul by lia. apply Q_apart_0_1.
  etrans; [|etrans; [symmetry; exact Hmul|]]; [|ring].
  unfold delta. simpl. ring.
Qed.

Lemma det3_nonzero (A : mat) : is_mat 3 3 A → invertible 3 A → det3 A ≠ 0.
Proof.
  intros HA Hinv Hdet.
  destruct (invertible_entries 3 A HA Hinv) as (A' & _ & Hright & _).
  assert (det3 A * det3 A'
    = mmul 3 A A' 0 0 * mmul 3 A A' 1 1 * mmul 3 A A' 2 2
      + mmul 3 A A' 0 1 * mmul 3 A A' 1 2 * mmul 3 A A' 2 0
      + mmul 3 A A' 0 2 * mmul 3 A A' 1 0 * mmul 3 A A' 2 1
      - mmul 3 A A' 0 0 * mmul 3 A A' 1 2 * mmul 3 A A' 2 1
      - mmul 3 A A' 0 1 * mmul 3 A A' 1 0 * mmul 3 A A' 2 2
      - mmul 3 A A' 0 2 * mmul 3 A A' 1 1 * mmul 3 A A' 2 0) as Hmul.
  { unfold det3, mmul. simpl. ring. }
  rewrite !Hright, Hdet in Hmul by lia. apply Q_apart_0_1.
  etrans; [|etrans; [symmetry; exact Hmul|]]; [|ring].
  unfold delta. simpl. ring.
Qed.

Lemma inv2_spec (A : mat) :
  det2 A ≠ 0 →
  dot_mm 2 2 2 A (inv2 A) = DenseIdentity 2
  ∧ dot_mm 2 2 2 (inv2 A) A = DenseIdentity 2.
Proof.
  intros Hdet. unfold det2 in Hdet.
  split; apply dot_mm_identity; intros r c Hr Hc;
    destruct r as [|[|r]], c as [|[|c]]; try lia;
    unfold mmul, delta, inv2, det2; simpl; unfold entry; simpl;
    by field.
Qed.

Lemma inv3_spec (A : mat) :
  det3 A ≠ 0 →
  dot_mm 3 3 3 A (inv3 A) = DenseIdentity 3
  ∧ dot_mm 3 3 3 (inv3 A) A = DenseIdentity 3.
Proof.
  intros Hdet. unfold det3 in Hdet.
  split; apply dot_mm_identity; intros r c Hr Hc;
    destruct r as [|[|[|r]]], c as [|[|[|c]]]; try lia;
    unfold mmul, delta, inv3, det3; simpl; unfold entry; simpl;
    by field.
Qed.

(** The closed forms have the declared shape. *)
Lemma is_mat_inv2 (A : mat) : is_mat 2 2 (inv2 A).
Proof. unfold inv2. repeat apply is_mat_set_entry. apply is_mat_tzero. Qed.

Lemma is_mat_inv3 (A : mat) : is_mat 3 3 (inv3 A).
Proof. unfold inv3. repeat apply is_mat_set_entry. apply is_mat_tzero. Qed.

(** On 2 by 2 and 3 by 3 matrices [inv] selects a closed form, which
    returns a two-sided inverse of every invertible matrix. *)
Lemma inv_closed_form (n : nat) (A : mat) :
  (n = 2 ∨ n = 3)%nat → is_mat n n A → invertible n A →
  ∃ X : mat, inv n A = Some X ∧ is_mat n n X
    ∧ dot_mm n n n A X = DenseIdentity n
    ∧ dot_mm n n n X A = DenseIdentity n.
Proof.
  intros [->| ->] HA Hinv.
  - exists (inv2 A). split; [done|]. split; [apply is_mat_inv2|].
    by apply inv2_spec, det2_nonzero.
  - exists (inv3 A). split; [done|]. split; [apply is_mat_inv3|].
    by apply inv3_spec, det3_nonzero.
Qed.

(** ** The general overload *)

(** The first iteration of the elimination assigns to [A] through
    [swap(A[max_row], A[i])]: with [A] a reference to const, the general
    overload has no result. *)
Lemma inv_general_no_result (n : nat) (A : mat) :
  (0 < n)%nat → inv_general n A = None.
Proof.
  intros Hn. unfold inv_general, inv_body.
  rewrite (for_opt_first 0 n); [done|done|].
  unfold checked_forward_step. by destruct (find_pivot n 0 A).
Qed.

Lemma identity_invertible (n : nat) : invertible n (DenseIdentity n).
Proof.
  exists (DenseIdentity n). split; [apply is_mat_DenseIdentity|].
  split; apply dot_mm_identity; intros r c Hr Hc; unfold mmul;
    rewrite (sum_n_ext _ _ (λ k, delta r k * entry (DenseIdentity n) k c))
      by (intros k Hk; by rewrite entry_DenseIdentity);
    rewrite (sum_n_delta_l n r (λ k, entry (DenseIdentity n) k c) Hr);
    by apply entry_DenseIdentity.
Qed.

(** C2.  In exact arithmetic the closed forms that [inv] selects for 2
    by 2 and 3 by 3 matrices return a two-sided inverse of every
    invertible matrix.  The overload for [n > 3] takes [A] as a
    reference to const and assigns to its rows: it has no result at any
    size [n > 3], on any matrix, and so none on the invertible 4 by 4
    identity. *)
Theorem inv_general_assigns_to_const :
  (∀ (n : nat) (A : mat),
     (n = 2 ∨ n = 3)%nat → is_mat n n A → invertible n A →
     ∃ X : mat, inv n A = Some X
       ∧ dot_mm n n n A X = DenseIdentity n
       ∧ dot_mm n n n X A = DenseIdentity n)
  ∧ (∀ (n : nat) (A : mat), (3 < n)%nat → inv n A = None)
  ∧ is_mat 4 4 (DenseIdentity 4) ∧ invertible 4 (DenseIdentity 4)
  ∧ inv 4 (DenseIdentity 4) = None.
Proof.
  split; [|split; [|split; [|split]]].
  - intros n A Hn HA Hinv.
    destruct (inv_closed_form n A Hn HA Hinv) as (X & HX & _ & Hr & Hl).
    by exists X.
  - intros n A Hn. destruct n as [|[|[|[|n]]]]; try lia.
    apply inv_general_no_result. lia.
  - apply is_mat_DenseIdentity.
  - apply identity_invertible.
  - apply inv_general_no_result. lia.
Qed.

(** ** The elimination on a matrix passed by value *)

Lemma checked_eliminate_below_by_value (n i : nat) (AB : mat * mat) :
  checked_eliminate_below by_value n i AB = Some (eliminate_below n i AB).
Proof.
  apply for_opt_Some. intros j [A B] _. by destruct (neqb (entry A j i) 0).
Qed.

Lemma checked_forward_step_by_value (n i : nat) (AB : mat * mat) :
  checked_forward_step by_value n i AB = Some (forward_step n i AB).
Proof.
  destruct AB as [A B]. unfold checked_forward_step, forward_step.
  destruct (find_pivot n i A) as [max_val max_row]. simpl.
  apply checked_eliminate_below_by_value.
Qed.

Lemma inv_body_by_value (n : nat) (A : mat) :
  inv_body by_value n A = Some (inv_general_by_value n A).
Proof.
  unfold inv_body, inv_general_by_value.
  rewrite (for_opt_Some 0 n _ (forward_step n))
    by (intros; apply checked_forward_step_by_value).
  simpl. by destruct (for_ 0 n (forward_step n) (A, DenseIdentity n)).
Qed.

(** The defect of the general overload is confined to the declaration
    of its parameter: with [A] passed by value, the same statements
    return a two-sided inverse of every invertible matrix. *)
Lemma inv_body_by_value_spec (n : nat) (A : mat) :
  is_mat n n A → invertible n A →
  ∃ X : mat, inv_body by_value n A = Some X
    ∧ dot_mm n n n A X = DenseIdentity n
    ∧ dot_mm n n n X A = DenseIdentity n.
Proof.
  intros HA Hinv. exists (inv_general_by_value n A).
  split; [apply inv_body_by_value|]. by apply inv_general_by_value_spec.
Qed.

(** * Further properties of the tensor operations *)

(** ** Vectors and sums *)

Lemma vec_ext (n : nat) (x y : vec) :
  length x = n → length y = n →
  (∀ i, (i < n)%nat → x !!! i = y !!! i) → x = y.
Proof.
  intros Hx Hy Heq. apply (list_eq_same_length _ _ n); [done..|].
  intros i a b Hi Ha Hb.
  apply list_lookup_total_correct in Ha, Hb. rewrite <- Ha, <- Hb. by apply Heq.
Qed.

Lemma sum_n_opp (n : nat) (f : nat → double) :
  sum_n n (λ i, - f i) = - sum_n n f.
Proof. induction n as [|n IH]; simpl; [ring|]. rewrite IH. ring. Qed.

(** A double sum may be regrouped around either factor. *)
Lemma sum_n_assoc2 (n p : nat) (a : nat → double) (b : nat → nat → double)
    (c : nat → double) :
  sum_n p (λ k, sum_n n (λ l, a l * b l k) * c k)
  = sum_n n (λ l, a l * sum_n p (λ k, b l k * c k)).
Proof.
  rewrite (sum_n_ext p _ (λ k, sum_n n (λ l, a l * b l k * c k)))
    by (intros; by rewrite <- sum_n_scale_r).
  rewrite sum_n_exchange. apply sum_n_ext. intros l _.
  rewrite <- sum_n_scale_l. apply sum_n_ext. intros; ring.
Qed.

Lemma sum_n_nonneg (n : nat) (f : nat → double) :
  (∀ i, (i < n)%nat → 0 ≤ f i) → 0 ≤ sum_n n f.
Proof.
  induction n as [|n IH]; intros Hf; simpl; [done|].
  specialize (IH (λ i Hi, Hf i ltac:(lia))). specialize (Hf n ltac:(lia)).
  qc_lra.
Qed.

Lemma sum_n_nonneg_zero (n : nat) (f : nat → double) :
  (∀ i, (i < n)%nat → 0 ≤ f i) → sum_n n f = 0 →
  ∀ i, (i < n)%nat → f i = 0.
Proof.
  induction n as [|n IH]; intros Hf Hsum i Hi; [lia|]. simpl in Hsum.
  pose proof (sum_n_nonneg n f (λ i Hi, Hf i ltac:(lia))) as Hn.
  pose proof (Hf n ltac:(lia)) as Hfn.
  assert (sum_n n f + f n ≤ 0) as Hle by (rewrite Hsum; apply Qcle_refl).
  assert (sum_n n f = 0 ∧ f n = 0) as [Hs Hz].
  { split; apply Qcle_antisym; qc_lra. }
  destruct (decide (i = n)) as [->|Hne]; [done|].
  apply IH; [intros; apply Hf; lia|done|lia].
Qed.

(** Nested accumulation loops compute a double sum. *)
Lemma for_for_sum (m n : nat) (f : nat → nat → double) (a : double) :
  for_ 0 m (λ i, for_ 0 n (λ j acc, acc + f i j)) a
  = a + sum_n m (λ i, sum_n n (f i)).
Proof.
  induction m as [|m IH]; simpl.
  - rewrite for_nil by lia. ring.
  - rewrite for_S by lia. rewrite IH, for_sum. ring.
Qed.

(** ** Specifications of the matrix builders *)

Lemma transpose_spec (m n : nat) (A : mat) :
  is_mat n m (transpose m n A)
  ∧ ∀ i j, (i < n)%nat → (j < m)%nat →
      entry (transpose m n A) i j = entry A j i.
Proof.
  exact (for_for_set_entry n m (λ i j, entry A j i) _ (is_mat_tzero n m)).
Qed.

Lemma sym_spec (n : nat) (A : mat) :
  is_mat n n (sym n A)
  ∧ ∀ i j, (i < n)%nat → (j < n)%nat →
      entry (sym n A) i j = lit 1 2 * (entry A i j + entry A j i).
Proof.
  exact (for_for_set_entry n n (λ i j, lit 1 2 * (entry A i j + entry A j i))
           _ (is_mat_tzero n n)).
Qed.

Lemma antisym_spec (n : nat) (A : mat) :
  is_mat n n (antisym n A)
  ∧ ∀ i j, (i < n)%nat → (j < n)%nat →
      entry (antisym n A) i j = lit 1 2 * (entry A i j - entry A j i).
Proof.
  exact (for_for_set_entry n n (λ i j, lit 1 2 * (entry A i j - entry A j i))
           _ (is_mat_tzero n n)).
Qed.

Lemma outer_vv_spec (m n : nat) (a b : vec) :
  is_mat m n (outer_vv m n a b)
  ∧ ∀ i j, (i < m)%nat → (j < n)%nat →
      entry (outer_vv m n a b) i j = a !!! i * b !!! j.
Proof.
  exact (for_for_set_entry m n (λ i j, a !!! i * b !!! j)
           _ (is_mat_tzero m n)).
Qed.

Lemma half_plus_half (x : double) : lit 1 2 * (x + x) = x.
Proof.
  assert (lit 1 2 * (1 + 1) = 1) as Hh by (by apply Qc_is_canon).
  transitivity (lit 1 2 * (1 + 1) * x); [ring|]. rewrite Hh. ring.
Qed.

(** ** Matrix products *)

Lemma dot_mm_assoc_eq (m n p q : nat) (A B C : mat) :
  dot_mm m p q (dot_mm m n p A B) C = dot_mm m n q A (dot_mm n p q B C).
Proof.
  destruct (dot_mm_spec m p q (dot_mm m n p A B) C) as [H1 E1].
  destruct (dot_mm_spec m n q A (dot_mm n p q B C)) as [H2 E2].
  destruct (dot_mm_spec m n p A B) as [_ EAB].
  destruct (dot_mm_spec n p q B C) as [_ EBC].
  apply (mat_ext m q); [done..|].
  intros i j Hi Hj. rewrite E1, E2 by done.
  rewrite (sum_n_ext p _ (λ k,
    sum_n n (λ l, entry A i l * entry B l k) * entry C k j))
    by (intros k Hk; by rewrite EAB).
  rewrite sum_n_assoc2. apply sum_n_ext. intros l Hl. by rewrite EBC.
Qed.

Lemma dot_mm_identity_l (m n : nat) (A : mat) :
  is_mat m n A → dot_mm m m n (DenseIdentity m) A = A.
Proof.
  intros HA. destruct (dot_mm_spec m m n (DenseIdentity m) A) as [H1 E1].
  apply (mat_ext m n); [done..|].
  intros i j Hi Hj. rewrite E1 by done.
  rewrite (sum_n_ext m _ (λ k, delta i k * entry A k j)).
  - exact (sum_n_delta_l m i (λ k, entry A k j) Hi).
  - intros k Hk. by rewrite entry_DenseIdentity.
Qed.

Lemma dot_mm_identity_r (m n : nat) (A : mat) :
  is_mat m n A → dot_mm m n n A (DenseIdentity n) = A.
Proof.
  intros HA. destruct (dot_mm_spec m n n A (DenseIdentity n)) as [H1 E1].
  apply (mat_ext m n); [done..|].
  intros i j Hi Hj. rewrite E1 by done.
  rewrite (sum_n_ext n _ (λ k, entry A i k * delta k j)).
  - exact (sum_n_delta_r n j (λ k, entry A i k) Hj).
  - intros k Hk. by rewrite entry_DenseIdentity.
Qed.

Lemma dot_mv_dot_mm (m n p : nat) (A B : mat) (v : vec) :
  dot_mv m p (dot_mm m n p A B) v = dot_mv m n A (dot_mv n p B v).
Proof.
  destruct (dot_mv_spec m p (dot_mm m n p A B) v) as [L1 E1].
  destruct (dot_mv_spec m n A (dot_mv n p B v)) as [L2 E2].
  destruct (dot_mm_spec m n p A B) as [_ EAB].
  destruct (dot_mv_spec n p B v) as [_ EBv].
  apply (vec_ext m); [done..|].
  intros i Hi. rewrite E1, E2 by done.
  rewrite (sum_n_ext p _ (λ k,
    sum_n n (λ l, entry A i l * entry B l k) * v !!! k))
    by (intros k Hk; by rewrite EAB).
  rewrite sum_n_assoc2. apply sum_n_ext. intros l Hl. by rewrite EBv.
Qed.

Lemma dot_mv_identity (n : nat) (v : vec) :
  length v = n → dot_mv n n (DenseIdentity n) v = v.
Proof.
  intros Hv. destruct (dot_mv_spec n n (DenseIdentity n) v) as [L1 E1].
  apply (vec_ext n); [done..|].
  intros i Hi. rewrite E1 by done.
  rewrite (sum_n_ext n _ (λ k, delta i k * v !!! k)).
  - exact (sum_n_delta_l n i (λ k, v !!! k) Hi).
  - intros k Hk. by rewrite entry_DenseIdentity.
Qed.

(** X1.  In exact arithmetic the matrix product [dot] is associative,
    also against a vector, and [DenseIdentity] is neutral on both
    sides. *)
Theorem dot_associative_with_identity :
  (∀ (m n p q : nat) (A B C : mat),
     dot_mm m p q (dot_mm m n p A B) C = dot_mm m n q A (dot_mm n p q B C))
  ∧ (∀ (m n p : nat) (A B : mat) (v : vec),
     dot_mv m p (dot_mm m n p A B) v = dot_mv m n A (dot_mv n p B v))
  ∧ (∀ (m n : nat) (A : mat), is_mat m n A →
     dot_mm m m n (DenseIdentity m) A = A
     ∧ dot_mm m n n A (DenseIdentity n) = A)
  ∧ (∀ (n : nat) (v : vec), length v = n →
     dot_mv n n (DenseIdentity n) v = v).
Proof.
  split; [exact dot_mm_assoc_eq|]. split; [exact dot_mv_dot_mm|].
  split; [|exact dot_mv_identity].
  intros m n A HA. split; [by apply dot_mm_identity_l|by apply dot_mm_identity_r].
Qed.

Lemma dot_associative_with_identity_witness :
  dot_mm 4 4 4 (DenseIdentity 4) example_matrix = example_matrix
  ∧ dot_mm 4 4 4 example_matrix (DenseIdentity 4) = example_matrix.
Proof.
  apply (proj1 (proj2 (proj2 dot_associative_with_identity)) 4%nat 4%nat).
  split; [reflexivity|]. repeat constructor.
Defined.

(** ** Transpose *)

Lemma transpose_involutive_eq (m n : nat) (A : mat) :
  is_mat m n A → transpose n m (transpose m n A) = A.
Proof.
  intros HA. destruct (transpose_spec n m (transpose m n A)) as [H1 E1].
  destruct (transpose_spec m n A) as [_ E2].
  apply (mat_ext m n); [done..|].
  intros i j Hi Hj. by rewrite E1, E2.
Qed.

Lemma transpose_dot_mm (m n p : nat) (A B : mat) :
  transpose m p (dot_mm m n p A B)
  = dot_mm p n m (transpose n p B) (transpose m n A).
Proof.
  destruct (transpose_spec m p (dot_mm m n p A B)) as [H1 E1].
  destruct (dot_mm_spec p n m (transpose n p B) (transpose m n A)) as [H2 E2].
  destruct (dot_mm_spec m n p A B) as [_ EAB].
  destruct (transpose_spec n p B) as [_ EB].
  destruct (transpose_spec m n A) as [_ EA].
  apply (mat_ext p m); [done..|].
  intros i j Hi Hj. rewrite E1, E2, EAB by done.
  apply sum_n_ext. intros k Hk. rewrite EB, EA by done. ring.
Qed.

Lemma transpose_DenseIdentity (n : nat) :
  transpose n n (DenseIdentity n) = DenseIdentity n.
Proof.
  destruct (transpose_spec n n (DenseIdentity n)) as [H1 E1].
  apply (mat_ext n n); [done|apply is_mat_DenseIdentity|].
  intros i j Hi Hj. rewrite E1, !entry_DenseIdentity by done.
  repeat case_bool_decide; congruence.
Qed.

(** X2.  [transpose] of an m by n matrix is n by m with mirrored
    entries; it is an involution, it reverses the factors of a product,
    and it fixes the identity. *)
Theorem transpose_involution_reverses_dot :
  (∀ (m n : nat) (A : mat),
     is_mat n m (transpose m n A)
     ∧ ∀ i j, (i < n)%nat → (j < m)%nat →
         entry (transpose m n A) i j = entry A j i)
  ∧ (∀ (m n : nat) (A : mat), is_mat m n A →
     transpose n m (transpose m n A) = A)
  ∧ (∀ (m n p : nat) (A B : mat),
     transpose m p (dot_mm m n p A B)
     = dot_mm p n m (transpose n p B) (transpose m n A))
  ∧ (∀ n : nat, transpose n n (DenseIdentity n) = DenseIdentity n).
Proof.
  split; [exact transpose_spec|]. split; [exact transpose_involutive_eq|].
  split; [exact transpose_dot_mm|exact transpose_DenseIdentity].
Qed.

Lemma transpose_involution_reverses_dot_witness :
  transpose 3 2 (transpose 2 3
    [[lit 1 1; lit 2 1; lit 3 1]; [lit 4 1; lit 5 1; lit 6 1]])
  = [[lit 1 1; lit 2 1; lit 3 1]; [lit 4 1; lit 5 1; lit 6 1]].
Proof.
  apply (proj1 (proj2 transpose_involution_reverses_dot) 2%nat 3%nat).
  split; [reflexivity|]. repeat constructor.
Defined.

(** ** Elementwise arithmetic on tensors of any shape *)

(** A loop that updates every entry of an array in place. *)
Lemma for_update {T : Type} `{Inhabited T} (m : nat) (h : nat → T → T)
    (A : list T) :
  length A = m →
  for_ 0 m (λ i (A : list T), <[i := h i (A !!! i)]> A) A
  = (λ i, h i (A !!! i)) <$> seq 0 m.
Proof.
  intros Hlen.
  loop_inv (λ i (R : list T), length R = m
    ∧ (∀ k, (k < i)%nat → R !! k = Some (h k (A !!! k)))
    ∧ (∀ k, (i ≤ k)%nat → R !!! k = A !!! k)); [lia| | |].
  - split; [done|]. split; [intros; lia|done].
  - intros i R Hi (HR & Hdone & Hrest). split; [by rewrite length_insert|]. split.
    + intros k Hk. destruct (decide (k = i)) as [->|Hne].
      * rewrite Hrest by lia. apply list_lookup_insert_eq. lia.
      * rewrite list_lookup_insert_ne by done. apply Hdone. lia.
    + intros k Hk. rewrite list_lookup_total_insert_ne by lia. apply Hrest. lia.
  - intros R (HR & Hdone & _). apply (list_eq_same_length _ _ m); [|done|].
    + by rewrite length_fmap, length_seq.
    + intros i x y Hi Hx Hy. rewrite Hdone in Hx by done.
      rewrite list_lookup_fmap, lookup_seq_lt in Hy by done. simpl in Hy.
      congruence.
Qed.

Lemma tensor_neg_cons (m : nat) (ns : list nat) (A : list (tensor double ns)) :
  tensor_neg (m :: ns) A = (λ i, tensor_neg ns (A !!! i)) <$> seq 0 m.
Proof. simpl. apply for_insert, length_tzero. Qed.

Lemma tensor_sub_cons (m : nat) (ns : list nat) (A B : list (tensor double ns)) :
  tensor_sub (m :: ns) A B
  = (λ i, tensor_sub ns (A !!! i) (B !!! i)) <$> seq 0 m.
Proof. simpl. apply for_insert, length_tzero. Qed.

Lemma add_assign_cons (m : nat) (ns : list nat) (A B : list (tensor double ns)) :
  length A = m →
  add_assign (m :: ns) A B
  = (λ i, add_assign ns (A !!! i) (B !!! i)) <$> seq 0 m.
Proof.
  intros Hlen. simpl.
  exact (for_update m (λ i a, add_assign ns a (B !!! i)) A Hlen).
Qed.

Lemma sub_assign_cons (m : nat) (ns : list nat) (A B : list (tensor double ns)) :
  length A = m →
  sub_assign (m :: ns) A B
  = (λ i, sub_assign ns (A !!! i) (B !!! i)) <$> seq 0 m.
Proof.
  intros Hlen. simpl.
  exact (for_update m (λ i a, sub_assign ns a (B !!! i)) A Hlen).
Qed.

Lemma wf_fmap_seq {T : Type} (m : nat) (ns : list nat)
    (f : nat → tensor T ns) :
  (∀ i, (i < m)%nat → wf ns (f i)) →
  wf (m :: ns) (f <$> seq 0 m : list (tensor T ns)).
Proof.
  intros Hf. split.
  - by rewrite length_fmap, length_seq.
  - apply Forall_fmap, Forall_forall. intros i Hi.
    apply elem_of_seq in Hi. apply Hf. lia.
Qed.

(** The results of the elementwise operators have the declared shape,
    whatever the operands. *)
Lemma wf_tensor_add (shape : list nat) (A B : tensor double shape) :
  wf shape (tensor_add shape A B).
Proof.
  revert A B. induction shape as [|m ns IH]; intros A B; [done|].
  rewrite tensor_add_cons. apply wf_fmap_seq. intros; apply IH.
Qed.

Lemma wf_tensor_sub (shape : list nat) (A B : tensor double shape) :
  wf shape (tensor_sub shape A B).
Proof.
  revert A B. induction shape as [|m ns IH]; intros A B; [done|].
  rewrite tensor_sub_cons. apply wf_fmap_seq. intros; apply IH.
Qed.

Lemma wf_tensor_neg (shape : list nat) (A : tensor double shape) :
  wf shape (tensor_neg shape A).
Proof.
  revert A. induction shape as [|m ns IH]; intros A; [done|].
  rewrite tensor_neg_cons. apply wf_fmap_seq. intros; apply IH.
Qed.

Lemma wf_scale_l (shape : list nat) (s : double) (A : tensor double shape) :
  wf shape (scale_l shape s A).
Proof.
  revert A. induction shape as [|m ns IH]; intros A; [done|].
  rewrite scale_l_cons. apply wf_fmap_seq. intros; apply IH.
Qed.

Lemma wf_scale_r (shape : list nat) (s : double) (A : tensor double shape) :
  wf shape (scale_r shape s A).
Proof.
  revert A. induction shape as [|m ns IH]; intros A; [done|].
  rewrite scale_r_cons. apply wf_fmap_seq. intros; apply IH.
Qed.

Lemma wf_div_r (shape : list nat) (s : double) (A : tensor double shape) :
  wf shape (div_r shape s A).
Proof.
  revert A. induction shape as [|m ns IH]; intros A; [done|].
  rewrite div_r_cons. apply wf_fmap_seq. intros; apply IH.
Qed.

Lemma wf_tzero (shape : list nat) : wf shape (tzero shape).
Proof. apply wf_tfill. Qed.

(** Entries of the results. *)
Lemma tget_tensor_sub (shape : list nat) (A B : tensor double shape)
    (I : list nat) :
  in_range shape I →
  tget shape (tensor_sub shape A B) I = tget shape A I - tget shape B I.
Proof.
  revert A B I. induction shape as [|m ns IH]; intros A B I HI; [done|].
  destruct I as [|i I]; [done|]. destruct HI as [Hi HI].
  rewrite tensor_sub_cons. cbn [tget]. list_form.
  rewrite lookup_total_fmap_seq by done. by apply IH.
Qed.

Lemma tget_tensor_neg (shape : list nat) (A : tensor double shape)
    (I : list nat) :
  in_range shape I →
  tget shape (tensor_neg shape A) I = - tget shape A I.
Proof.
  revert A I. induction shape as [|m ns IH]; intros A I HI; [done|].
  destruct I as [|i I]; [done|]. destruct HI as [Hi HI].
  rewrite tensor_neg_cons. cbn [tget]. list_form.
  rewrite lookup_total_fmap_seq by done. by apply IH.
Qed.

Lemma tget_scale_r (shape : list nat) (s : double) (A : tensor double shape)
    (I : list nat) :
  in_range shape I →
  tget shape (scale_r shape s A) I = tget shape A I * s.
Proof.
  revert A I. induction shape as [|m ns IH]; intros A I HI; [done|].
  destruct I as [|i I]; [done|]. destruct HI as [Hi HI].
  rewrite scale_r_cons. cbn [tget]. list_form.
  rewrite lookup_total_fmap_seq by done. by apply IH.
Qed.

Lemma tget_div_r (shape : list nat) (s : double) (A : tensor double shape)
    (I : list nat) :
  in_range shape I →
  tget shape (div_r shape s A) I = tget shape A I / s.
Proof.
  revert A I. induction shape as [|m ns IH]; intros A I HI; [done|].
  destruct I as [|i I]; [done|]. destruct HI as [Hi HI].
  rewrite div_r_cons. cbn [tget]. list_form.
  rewrite lookup_total_fmap_seq by done. by apply IH.
Qed.

(** [A += B] and [A -= B] on a tensor of the declared shape. *)
Lemma add_assign_tensor_add (shape : list nat) (A B : tensor double shape) :
  wf shape A → add_assign shape A B = tensor_add shape A B.
Proof.
  revert A B. induction shape as [|m ns IH]; intros A B HA; [done|].
  rewrite add_assign_cons by apply HA. rewrite tensor_add_cons.
  apply fmap_seq_ext. intros i Hi. apply IH. by apply (wf_lookup m).
Qed.

Lemma sub_assign_tensor_sub (shape : list nat) (A B : tensor double shape) :
  wf shape A → sub_assign shape A B = tensor_sub shape A B.
Proof.
  revert A B. induction shape as [|m ns IH]; intros A B HA; [done|].
  rewrite sub_assign_cons by apply HA. rewrite tensor_sub_cons.
  apply fmap_seq_ext. intros i Hi. apply IH. by apply (wf_lookup m).
Qed.

(** Equalities between results of the operators follow from the
    equalities of their entries. *)
Ltac by_entries :=
  apply tensor_ext;
  [auto using wf_tensor_add, wf_tensor_sub, wf_tensor_neg, wf_scale_l,
     wf_scale_r, wf_div_r, wf_tzero..
  |let I := fresh "I" in let HI := fresh "HI" in
   intros I HI;
   rewrite ?tget_tensor_add, ?tget_tensor_sub, ?tget_tensor_neg,
     ?tget_scale_l, ?tget_scale_r, ?tget_div_r, ?tget_tzero by done;
   rewrite ?tget_tensor_add, ?tget_tensor_sub, ?tget_tensor_neg,
     ?tget_scale_l, ?tget_scale_r, ?tget_div_r, ?tget_tzero by done;
   try ring].

(** X3.  On tensors of one shape, [+] is commutative and associative,
    the binary [-] is [+] of the unary [-], [A - A] is the zero tensor,
    and the unary [-] is an involution. *)
Theorem tensor_add_sub_neg_laws (shape : list nat) :
  (∀ A B : tensor double shape,
     tensor_add shape A B = tensor_add shape B A)
  ∧ (∀ A B C : tensor double shape,
     tensor_add shape (tensor_add shape A B) C
     = tensor_add shape A (tensor_add shape B C))
  ∧ (∀ A B : tensor double shape,
     tensor_sub shape A B = tensor_add shape A (tensor_neg shape B))
  ∧ (∀ A : tensor double shape, tensor_sub shape A A = tzero shape)
  ∧ (∀ A : tensor double shape, wf shape A →
     tensor_neg shape (tensor_neg shape A) = A).
Proof.
  repeat split; intros; by_entries.
Qed.

Lemma tensor_add_sub_neg_laws_witness :
  tensor_neg [2%nat; 2%nat] (tensor_neg [2%nat; 2%nat]
    [[lit 1 2; lit 3 1]; [lit (-2) 1; lit 7 5]])
  = [[lit 1 2; lit 3 1]; [lit (-2) 1; lit 7 5]].
Proof.
  apply (proj2 (proj2 (proj2 (proj2 (tensor_add_sub_neg_laws [2%nat; 2%nat]))))).
  simpl. repeat constructor.
Defined.

(** X4.  The compound assignments agree with the binary operators:
    on a tensor [A] of the declared shape, [A += B] leaves [A + B] in
    [A] and [A -= B] leaves [A - B]. *)
Theorem compound_assignment_agrees (shape : list nat)
    (A B : tensor double shape) :
  wf shape A →
  add_assign shape A B = tensor_add shape A B
  ∧ sub_assign shape A B = tensor_sub shape A B.
Proof.
  intros HA. split;
    [by apply add_assign_tensor_add|by apply sub_assign_tensor_sub].
Qed.

Lemma compound_assignment_agrees_witness :
  add_assign [2%nat; 2%nat] [[lit 1 2; lit 3 1]; [lit (-2) 1; lit 7 5]]
    [[lit 1 1; lit 1 1]; [lit 4 1; lit 0 1]]
  = tensor_add [2%nat; 2%nat] [[lit 1 2; lit 3 1]; [lit (-2) 1; lit 7 5]]
      [[lit 1 1; lit 1 1]; [lit 4 1; lit 0 1]]
  ∧ sub_assign [2%nat; 2%nat] [[lit 1 2; lit 3 1]; [lit (-2) 1; lit 7 5]]
      [[lit 1 1; lit 1 1]; [lit 4 1; lit 0 1]]
    = tensor_sub [2%nat; 2%nat] [[lit 1 2; lit 3 1]; [lit (-2) 1; lit 7 5]]
        [[lit 1 1; lit 1 1]; [lit 4 1; lit 0 1]].
Proof.
  apply compound_assignment_agrees. simpl. repeat constructor.
Defined.

(** X5.  Scaling a tensor: the scalar may stand on either side, scaling
    distributes over [+], two scalings compose to the scaling by the
    product, scaling by one changes nothing, and dividing by a nonzero
    scalar is scaling by its reciprocal. *)
Theorem scaling_laws (shape : list nat) :
  (∀ (s : double) (A : tensor double shape),
     scale_l shape s A = scale_r shape s A)
  ∧ (∀ (s : double) (A B : tensor double shape),
     scale_l shape s (tensor_add shape A B)
     = tensor_add shape (scale_l shape s A) (scale_l shape s B))
  ∧ (∀ (s t : double) (A : tensor double shape),
     scale_l shape s (scale_l shape t A) = scale_l shape (s * t) A)
  ∧ (∀ A : tensor double shape, wf shape A → scale_l shape 1 A = A)
  ∧ (∀ (s : double) (A : tensor double shape), s ≠ 0 →
     div_r shape s A = scale_r shape (1 / s) A).
Proof.
  repeat split; intros; by_entries. by field.
Qed.

Lemma scaling_laws_witness :
  scale_l [2%nat; 2%nat] 1 [[lit 1 2; lit 3 1]; [lit (-2) 1; lit 7 5]]
  = [[lit 1 2; lit 3 1]; [lit (-2) 1; lit 7 5]]
  ∧ div_r [2%nat; 2%nat] (lit 4 1) [[lit 1 2; lit 3 1]; [lit (-2) 1; lit 7 5]]
    = scale_r [2%nat; 2%nat] (1 / lit 4 1)
        [[lit 1 2; lit 3 1]; [lit (-2) 1; lit 7 5]].
Proof.
  split.
  - apply (proj1 (proj2 (proj2 (proj2 (scaling_laws [2%nat; 2%nat]))))).
    simpl. repeat constructor.
  - apply (proj2 (proj2 (proj2 (proj2 (scaling_laws [2%nat; 2%nat]))))).
    compute_done.
Defined.

(** X6.  Eliding the [zero] sentinel in differences and compound
    assignments is sound: [zero - x], [x - zero], [-zero], [x += zero]
    and [x -= zero] give what the same operator gives on the zero
    tensor, or the zero scalar, that the sentinel converts to. *)
Theorem zero_difference_elision :
  (∀ x : double,
     zero_to_double Zero - x = zero_sub_l Zero x
     ∧ x - zero_to_double Zero = zero_sub_r x Zero
     ∧ - zero_to_double Zero = zero_to_double (zero_neg Zero)
     ∧ zero_to_double Zero - zero_to_double Zero
       = zero_to_double (zero_sub_zero Zero Zero))
  ∧ (∀ (shape : list nat) (x : tensor double shape), wf shape x →
     tensor_sub shape (zero_to_tensor shape Zero) x = zero_sub_l Zero x
     ∧ tensor_sub shape x (zero_to_tensor shape Zero) = zero_sub_r x Zero
     ∧ tensor_neg shape (zero_to_tensor shape Zero)
       = zero_to_tensor shape (zero_neg Zero)
     ∧ add_assign shape x (zero_to_tensor shape Zero) = add_assign_zero x Zero
     ∧ sub_assign shape x (zero_to_tensor shape Zero) = sub_assign_zero x Zero).
Proof.
  split.
  - intros x.
    unfold zero_to_double, zero_sub_l, zero_sub_r, negate, double_negate.
    repeat split; ring.
  - intros shape x Hx.
    unfold zero_to_tensor, zero_sub_l, zero_sub_r, negate, tensor_negate,
      add_assign_zero, sub_assign_zero.
    rewrite add_assign_tensor_add, sub_assign_tensor_sub by done.
    repeat split; by_entries.
Qed.

Lemma zero_difference_elision_witness :
  tensor_sub [2%nat; 2%nat] (zero_to_tensor [2%nat; 2%nat] Zero)
    [[lit 1 2; lit 3 1]; [lit (-2) 1; lit 7 5]]
  = zero_sub_l Zero
      ([[lit 1 2; lit 3 1]; [lit (-2) 1; lit 7 5]] : tensor double [2%nat; 2%nat]).
Proof.
  apply (proj2 zero_difference_elision). simpl. repeat constructor.
Defined.

(** ** Matrices as tensors of order two *)

Lemma wf_is_mat (m n : nat) (A : mat) : wf [m; n] A ↔ is_mat m n A.
Proof.
  unfold is_mat. simpl. split; intros [Hlen Hrows]; (split; [done|]).
  - eapply Forall_impl; [exact Hrows|]. by intros row [Hrow _].
  - eapply Forall_impl; [exact Hrows|]. intros row Hrow. split; [done|].
    by apply Forall_true.
Qed.

Lemma entry_tensor_add (m n : nat) (A B : mat) (i j : nat) :
  (i < m)%nat → (j < n)%nat →
  entry (tensor_add [m; n] A B) i j = entry A i j + entry B i j.
Proof.
  intros Hi Hj. rewrite <- !(tget_entry m n).
  by apply (tget_tensor_add [m; n]).
Qed.

Lemma entry_tensor_sub (m n : nat) (A B : mat) (i j : nat) :
  (i < m)%nat → (j < n)%nat →
  entry (tensor_sub [m; n] A B) i j = entry A i j - entry B i j.
Proof.
  intros Hi Hj. rewrite <- !(tget_entry m n).
  by apply (tget_tensor_sub [m; n]).
Qed.

Lemma entry_tensor_neg (m n : nat) (A : mat) (i j : nat) :
  (i < m)%nat → (j < n)%nat →
  entry (tensor_neg [m; n] A) i j = - entry A i j.
Proof.
  intros Hi Hj. rewrite <- !(tget_entry m n).
  by apply (tget_tensor_neg [m; n]).
Qed.

Lemma entry_scale_l (m n : nat) (s : double) (A : mat) (i j : nat) :
  (i < m)%nat → (j < n)%nat →
  entry (scale_l [m; n] s A) i j = s * entry A i j.
Proof.
  intros Hi Hj. rewrite <- !(tget_entry m n).
  by apply (tget_scale_l [m; n]).
Qed.

Lemma is_mat_tensor_add (m n : nat) (A B : mat) :
  is_mat m n (tensor_add [m; n] A B).
Proof. apply wf_is_mat, (wf_tensor_add [m; n]). Qed.

Lemma is_mat_tensor_sub (m n : nat) (A B : mat) :
  is_mat m n (tensor_sub [m; n] A B).
Proof. apply wf_is_mat, (wf_tensor_sub [m; n]). Qed.

Lemma is_mat_tensor_neg (m n : nat) (A : mat) :
  is_mat m n (tensor_neg [m; n] A).
Proof. apply wf_is_mat, (wf_tensor_neg [m; n]). Qed.

Lemma is_mat_scale_l (m n : nat) (s : double) (A : mat) :
  is_mat m n (scale_l [m; n] s A).
Proof. apply wf_is_mat, (wf_scale_l [m; n]). Qed.

(** ** Symmetry *)

(** What the early returns of [is_symmetric] decide. *)
Lemma is_symmetric_spec (n : nat) (A : mat) (tol : double) :
  is_symmetric n A tol = true
  ↔ ∀ i j, (i < j < n)%nat → abs (entry A i j - entry A j i) ≤ tol.
Proof.
  unfold is_symmetric.
  loop_inv (λ i (st : option bool),
    match st with
    | None => ∀ i' j, (i' < i)%nat → (i' < j < n)%nat →
        abs (entry A i' j - entry A j i') ≤ tol
    | Some r => r = false
        ∧ ∃ i' j, (i' < j < n)%nat ∧ ¬ abs (entry A i' j - entry A j i') ≤ tol
    end); [lia| | |].
  - intros; lia.
  - intros i st Hi Hst.
    loop_inv (λ j (st : option bool),
      match st with
      | None =>
          (∀ i' j, (i' < i)%nat → (i' < j < n)%nat →
             abs (entry A i' j - entry A j i') ≤ tol)
          ∧ ∀ j', (i < j' < j)%nat → abs (entry A i j' - entry A j' i) ≤ tol
      | Some r => r = false
          ∧ ∃ i' j, (i' < j < n)%nat
              ∧ ¬ abs (entry A i' j - entry A j i') ≤ tol
      end); [lia| | |].
    + destruct st as [r|]; [done|]. split; [done|]. intros; lia.
    + intros j st' Hj Hst'. destruct st' as [r|]; [done|]. unfold return_if.
      destruct (gtb (abs (entry A i j - entry A j i)) tol) eqn:Hg.
      * apply gtb_spec in Hg. split; [done|]. exists i, j. split; [lia|].
        by apply Qclt_not_le.
      * apply gtb_false in Hg. destruct Hst' as [H1 H2]. split; [done|].
        intros j' Hj'. destruct (decide (j' = j)) as [->|Hne]; [done|].
        apply H2. lia.
    + intros st' Hst'. destruct st' as [r|]; [done|]. destruct Hst' as [H1 H2].
      intros i' j Hi' Hj. destruct (decide (i' = i)) as [->|Hne].
      * apply H2. lia.
      * apply H1; lia.
  - intros st Hst. destruct st as [r|].
    + destruct Hst as [-> (i' & j & Hij & Hn)]. split; [done|].
      intros Hall. exfalso. by apply Hn, Hall.
    + split; [|done]. intros _ i j Hij. apply Hst; lia.
Qed.

(** X7.  [is_symmetric] returns true exactly when every entry above
    the diagonal differs from its mirror image by at most the
    tolerance; in particular a matrix and its transpose get the same
    answer. *)
Theorem is_symmetric_decides_mirrored_entries (n : nat) (A : mat)
    (tol : double) :
  (is_symmetric n A tol = true
   ↔ ∀ i j, (i < j < n)%nat → abs (entry A i j - entry A j i) ≤ tol)
  ∧ is_symmetric n (transpose n n A) tol = is_symmetric n A tol.
Proof.
  split; [apply is_symmetric_spec|].
  destruct (transpose_spec n n A) as [_ ET].
  apply eq_true_iff_eq. rewrite !is_symmetric_spec.
  split; intros Hall i j Hij.
  - specialize (Hall i j Hij). rewrite !ET in Hall by lia.
    by rewrite abs_minus_sym.
  - rewrite !ET by lia. rewrite abs_minus_sym. by apply Hall.
Qed.

Lemma sym_antisym_sum (n : nat) (A : mat) :
  is_mat n n A → tensor_add [n; n] (sym n A) (antisym n A) = A.
Proof.
  intros HA. destruct (sym_spec n A) as [_ ES].
  destruct (antisym_spec n A) as [_ EA].
  apply (mat_ext n n); [apply is_mat_tensor_add|done|].
  intros i j Hi Hj. rewrite entry_tensor_add, ES, EA by done.
  transitivity (lit 1 2 * (entry A i j + entry A i j)); [ring|].
  apply half_plus_half.
Qed.

Lemma transpose_sym (n : nat) (A : mat) : transpose n n (sym n A) = sym n A.
Proof.
  destruct (sym_spec n A) as [HS ES].
  destruct (transpose_spec n n (sym n A)) as [HT ET].
  apply (mat_ext n n); [done..|].
  intros i j Hi Hj. rewrite ET, !ES by done. ring.
Qed.

Lemma transpose_antisym (n : nat) (A : mat) :
  transpose n n (antisym n A) = tensor_neg [n; n] (antisym n A).
Proof.
  destruct (antisym_spec n A) as [HS ES].
  destruct (transpose_spec n n (antisym n A)) as [HT ET].
  apply (mat_ext n n); [done|apply is_mat_tensor_neg|].
  intros i j Hi Hj. rewrite ET, entry_tensor_neg, !ES by done. ring.
Qed.

Lemma is_symmetric_sym (n : nat) (A : mat) (tol : double) :
  0 ≤ tol → is_symmetric n (sym n A) tol = true.
Proof.
  intros Htol. apply is_symmetric_spec. intros i j Hij.
  destruct (sym_spec n A) as [_ ES]. rewrite !ES by lia.
  replace (lit 1 2 * (entry A i j + entry A j i)
           - lit 1 2 * (entry A j i + entry A i j)) with 0 by ring.
  by rewrite abs_0.
Qed.

Lemma sym_idempotent (n : nat) (A : mat) : sym n (sym n A) = sym n A.
Proof.
  destruct (sym_spec n A) as [HS ES].
  destruct (sym_spec n (sym n A)) as [HSS ESS].
  apply (mat_ext n n); [done..|].
  intros i j Hi Hj. rewrite ESS, !ES by done.
  replace (lit 1 2 * (entry A i j + entry A j i)
           + lit 1 2 * (entry A j i + entry A i j))
    with (lit 1 2 * (entry A i j + entry A j i)
          + lit 1 2 * (entry A i j + entry A j i)) by ring.
  apply half_plus_half.
Qed.

(** X8.  In exact arithmetic [sym] and [antisym] split a square
    matrix: their sum is the matrix, [sym(A)] equals its transpose and
    passes [is_symmetric] at every tolerance that is not negative,
    [antisym(A)] is the negation of its transpose, and [sym] is
    idempotent. *)
Theorem sym_antisym_decomposition (n : nat) (A : mat) :
  (is_mat n n A → tensor_add [n; n] (sym n A) (antisym n A) = A)
  ∧ transpose n n (sym n A) = sym n A
  ∧ transpose n n (antisym n A) = tensor_neg [n; n] (antisym n A)
  ∧ (∀ tol, 0 ≤ tol → is_symmetric n (sym n A) tol = true)
  ∧ sym n (sym n A) = sym n A.
Proof.
  split; [apply sym_antisym_sum|]. split; [apply transpose_sym|].
  split; [apply transpose_antisym|]. split; [|apply sym_idempotent].
  intros tol. apply is_symmetric_sym.
Qed.

Lemma sym_antisym_decomposition_witness :
  tensor_add [3%nat; 3%nat]
    (sym 3 [[lit 2 1; lit 1 1; 0]; [lit (-3) 1; lit (-1) 1; lit 5 1];
            [lit 1 1; lit 1 1; lit 1 1]])
    (antisym 3 [[lit 2 1; lit 1 1; 0]; [lit (-3) 1; lit (-1) 1; lit 5 1];
                [lit 1 1; lit 1 1; lit 1 1]])
  = [[lit 2 1; lit 1 1; 0]; [lit (-3) 1; lit (-1) 1; lit 5 1];
     [lit 1 1; lit 1 1; lit 1 1]]
  ∧ is_symmetric 3
      (sym 3 [[lit 2 1; lit 1 1; 0]; [lit (-3) 1; lit (-1) 1; lit 5 1];
              [lit 1 1; lit 1 1; lit 1 1]]) default_tolerance = true.
Proof.
  split.
  - apply (proj1 (sym_antisym_decomposition 3 _)).
    split; [reflexivity|]. repeat constructor.
  - apply (proj1 (proj2 (proj2 (proj2 (sym_antisym_decomposition 3 _))))).
    compute_done.
Defined.

(** ** Trace *)

Lemma tr_tensor_add (n : nat) (A B : mat) :
  tr n (tensor_add [n; n] A B) = tr n A + tr n B.
Proof.
  rewrite !tr_sum, <- sum_n_plus. apply sum_n_ext. intros i Hi.
  by apply entry_tensor_add.
Qed.

Lemma tr_scale_l (n : nat) (s : double) (A : mat) :
  tr n (scale_l [n; n] s A) = s * tr n A.
Proof.
  rewrite !tr_sum, <- sum_n_scale_l. apply sum_n_ext. intros i Hi.
  by apply entry_scale_l.
Qed.

Lemma tr_transpose (n : nat) (A : mat) : tr n (transpose n n A) = tr n A.
Proof.
  rewrite !tr_sum. apply sum_n_ext. intros i Hi.
  by apply transpose_spec.
Qed.

Lemma tr_dot_mm_comm (m n : nat) (A B : mat) :
  tr m (dot_mm m n m A B) = tr n (dot_mm n m n B A).
Proof.
  destruct (dot_mm_spec m n m A B) as [_ E1].
  destruct (dot_mm_spec n m n B A) as [_ E2].
  rewrite !tr_sum.
  rewrite (sum_n_ext m _ (λ i, sum_n n (λ k, entry A i k * entry B k i)))
    by (intros; by apply E1).
  rewrite (sum_n_ext n _ (λ k, sum_n m (λ i, entry A i k * entry B k i))).
  - apply sum_n_exchange.
  - intros k Hk. rewrite E2 by done. apply sum_n_ext. intros; ring.
Qed.

Lemma tr_DenseIdentity (n : nat) : tr n (DenseIdentity n) = of_nat n.
Proof.
  rewrite tr_sum. rewrite (sum_n_ext n _ (λ _, 1)).
  - rewrite sum_n_const. ring.
  - intros i Hi. rewrite entry_DenseIdentity by done.
    by rewrite bool_decide_eq_true_2.
Qed.

Lemma tr_antisym (n : nat) (A : mat) : tr n (antisym n A) = 0.
Proof.
  rewrite tr_sum. apply sum_n_zero. intros i Hi.
  destruct (antisym_spec n A) as [_ EA]. rewrite EA by done. ring.
Qed.

(** X9.  In exact arithmetic the trace is linear, invariant under
    transposition and under exchanging the two factors of a product;
    the trace of the n by n identity is n and the trace of an
    antisymmetric part is zero. *)
Theorem trace_linear_and_cyclic :
  (∀ (n : nat) (A B : mat),
     tr n (tensor_add [n; n] A B) = tr n A + tr n B)
  ∧ (∀ (n : nat) (s : double) (A : mat),
     tr n (scale_l [n; n] s A) = s * tr n A)
  ∧ (∀ (n : nat) (A : mat), tr n (transpose n n A) = tr n A)
  ∧ (∀ (m n : nat) (A B : mat),
     tr m (dot_mm m n m A B) = tr n (dot_mm n m n B A))
  ∧ (∀ n : nat, tr n (DenseIdentity n) = of_nat n)
  ∧ (∀ (n : nat) (A : mat), tr n (antisym n A) = 0).
Proof.
  split; [exact tr_tensor_add|]. split; [exact tr_scale_l|].
  split; [exact tr_transpose|]. split; [exact tr_dot_mm_comm|].
  split; [exact tr_DenseIdentity|exact tr_antisym].
Qed.

(** ** Outer product *)

Lemma outer_sv_eq (n : nat) (s : double) (b : vec) :
  outer_sv n s b = scale_l [n] s b.
Proof.
  unfold outer_sv. rewrite scale_l_cons.
  exact (for_insert n (λ i, s * b !!! i) _ (length_tzero n [])).
Qed.

Lemma outer_vs_eq (m : nat) (a : vec) (s : double) :
  outer_vs m a s = scale_r [m] s a.
Proof.
  unfold outer_vs. rewrite scale_r_cons.
  exact (for_insert m (λ i, a !!! i * s) _ (length_tzero m [])).
Qed.

Lemma lookup_scale_r_vec (n : nat) (c : double) (y : vec) (k : nat) :
  (k < n)%nat → (scale_r [n] c y : vec) !!! k = y !!! k * c.
Proof.
  intros Hk. rewrite scale_r_cons.
  exact (lookup_total_fmap_seq n k (λ i, y !!! i * c) Hk).
Qed.

Lemma tr_outer_vv (n : nat) (a b : vec) :
  tr n (outer_vv n n a b) = dot_vv n a b.
Proof.
  rewrite tr_sum, dot_vv_spec. apply sum_n_ext. intros i Hi.
  by apply outer_vv_spec.
Qed.

Lemma dot_mv_outer_vv (m n : nat) (a b c : vec) :
  dot_mv m n (outer_vv m n a b) c = outer_vs m a (dot_vv n b c).
Proof.
  destruct (dot_mv_spec m n (outer_vv m n a b) c) as [L1 E1].
  destruct (outer_vv_spec m n a b) as [_ EO].
  rewrite outer_vs_eq.
  apply (vec_ext m); [done|apply (wf_scale_r [m])|].
  intros i Hi. rewrite E1 by done.
  etrans; [|symmetry; exact (lookup_scale_r_vec m _ a i Hi)].
  rewrite dot_vv_spec, <- sum_n_scale_l. apply sum_n_ext. intros k Hk.
  rewrite EO by done. ring.
Qed.

Lemma transpose_outer_vv (m n : nat) (a b : vec) :
  transpose m n (outer_vv m n a b) = outer_vv n m b a.
Proof.
  destruct (transpose_spec m n (outer_vv m n a b)) as [HT ET].
  destruct (outer_vv_spec m n a b) as [_ E1].
  destruct (outer_vv_spec n m b a) as [H2 E2].
  apply (mat_ext n m); [done..|].
  intros i j Hi Hj. rewrite ET, E1, E2 by done. ring.
Qed.

(** X10.  The outer product of two vectors has the entries
    [a[i] * b[j]]; in exact arithmetic its trace is the dot product,
    applying it to a vector [c] scales [a] by [dot(b, c)], and its
    transpose is the outer product in the other order.  With a scalar
    operand, [outer] is the multiplication by the scalar. *)
Theorem outer_product_laws :
  (∀ (m n : nat) (a b : vec),
     is_mat m n (outer_vv m n a b)
     ∧ ∀ i j, (i < m)%nat → (j < n)%nat →
         entry (outer_vv m n a b) i j = a !!! i * b !!! j)
  ∧ (∀ (n : nat) (a b : vec), tr n (outer_vv n n a b) = dot_vv n a b)
  ∧ (∀ (m n : nat) (a b c : vec),
     dot_mv m n (outer_vv m n a b) c = outer_vs m a (dot_vv n b c))
  ∧ (∀ (m n : nat) (a b : vec),
     transpose m n (outer_vv m n a b) = outer_vv n m b a)
  ∧ (∀ (n : nat) (s : double) (b : vec), outer_sv n s b = scale_l [n] s b)
  ∧ (∀ (m : nat) (a : vec) (s : double), outer_vs m a s = scale_r [m] s a).
Proof.
  split; [exact outer_vv_spec|]. split; [exact tr_outer_vv|].
  split; [exact dot_mv_outer_vv|]. split; [exact transpose_outer_vv|].
  split; [exact outer_sv_eq|exact outer_vs_eq].
Qed.

Lemma outer_product_laws_witness :
  entry (outer_vv 2 3 [lit 1 1; lit 2 1] [lit 3 1; lit 4 1; lit 5 1]) 1 2
  = [lit 1 1; lit 2 1] !!! 1%nat * [lit 3 1; lit 4 1; lit 5 1] !!! 2%nat.
Proof.
  apply (proj2 (proj1 outer_product_laws 2%nat 3%nat _ _)); lia.
Defined.

(** ** Determinant *)

Lemma det2_dot_mm (A B : mat) :
  det2 (dot_mm 2 2 2 A B) = det2 A * det2 B.
Proof.
  destruct (dot_mm_spec 2 2 2 A B) as [_ E]. unfold det2.
  rewrite !E by lia. cbn [sum_n]. ring.
Qed.

Lemma det3_dot_mm (A B : mat) :
  det3 (dot_mm 3 3 3 A B) = det3 A * det3 B.
Proof.
  destruct (dot_mm_spec 3 3 3 A B) as [_ E]. unfold det3.
  rewrite !E by lia. cbn [sum_n]. ring.
Qed.

Lemma det2_transpose (A : mat) : det2 (transpose 2 2 A) = det2 A.
Proof.
  destruct (transpose_spec 2 2 A) as [_ E]. unfold det2.
  rewrite !E by lia. ring.
Qed.

Lemma det3_transpose (A : mat) : det3 (transpose 3 3 A) = det3 A.
Proof.
  destruct (transpose_spec 3 3 A) as [_ E]. unfold det3.
  rewrite !E by lia. ring.
Qed.

Lemma det2_DenseIdentity : det2 (DenseIdentity 2) = 1.
Proof. unfold det2. rewrite !entry_DenseIdentity by lia. simpl. ring. Qed.

Lemma det3_DenseIdentity : det3 (DenseIdentity 3) = 1.
Proof. unfold det3. rewrite !entry_DenseIdentity by lia. simpl. ring. Qed.

(** X11.  In exact arithmetic the two determinants are multiplicative
    over the matrix product, invariant under transposition, and 1 on the
    identity; so the determinant of the closed form that [inv] selects
    on a 2 by 2 or 3 by 3 matrix is the reciprocal of a nonzero
    determinant of [A]. *)
Theorem det_multiplicative :
  (∀ A B : mat, det2 (dot_mm 2 2 2 A B) = det2 A * det2 B)
  ∧ (∀ A B : mat, det3 (dot_mm 3 3 3 A B) = det3 A * det3 B)
  ∧ (∀ A : mat, det2 (transpose 2 2 A) = det2 A)
  ∧ (∀ A : mat, det3 (transpose 3 3 A) = det3 A)
  ∧ det2 (DenseIdentity 2) = 1 ∧ det3 (DenseIdentity 3) = 1
  ∧ (∀ A : mat, det2 A ≠ 0 →
       ∃ X : mat, inv 2 A = Some X ∧ det2 A * det2 X = 1)
  ∧ (∀ A : mat, det3 A ≠ 0 →
       ∃ X : mat, inv 3 A = Some X ∧ det3 A * det3 X = 1).
Proof.
  split; [exact det2_dot_mm|]. split; [exact det3_dot_mm|].
  split; [exact det2_transpose|]. split; [exact det3_transpose|].
  split; [exact det2_DenseIdentity|]. split; [exact det3_DenseIdentity|].
  split; intros A HA.
  - exists (inv2 A). split; [done|]. rewrite <- det2_dot_mm.
    rewrite (proj1 (inv2_spec A HA)). exact det2_DenseIdentity.
  - exists (inv3 A). split; [done|]. rewrite <- det3_dot_mm.
    rewrite (proj1 (inv3_spec A HA)). exact det3_DenseIdentity.
Qed.

Lemma det_multiplicative_witness :
  ∃ X : mat, inv 2 [[lit 2 1; lit 1 1]; [lit 1 1; lit 1 1]] = Some X
    ∧ det2 [[lit 2 1; lit 1 1]; [lit 1 1; lit 1 1]] * det2 X = 1.
Proof.
  apply (proj1 (proj2 (proj2 (proj2 (proj2 (proj2 (proj2 det_multiplicative))))))).
  compute_done.
Defined.

(** ** Sums over a box of multi-indices *)

Lemma for_constexpr_sum (shape : list nat) (g : list nat → double) (a : double) :
  for_constexpr shape (λ I total, total + g I) a = a + sum_box shape g.
Proof.
  revert g a. induction shape as [|n ns IH]; intros g a; [done|].
  cbn [for_constexpr sum_box].
  rewrite (for_ext 0 n _ (λ i acc, acc + sum_box ns (λ I, g (i :: I)))).
  - apply for_sum.
  - intros i s _. apply (IH (λ I, g (i :: I))).
Qed.

Lemma sum_box_ext (shape : list nat) (g h : list nat → double) :
  (∀ I, in_range shape I → g I = h I) → sum_box shape g = sum_box shape h.
Proof.
  revert g h. induction shape as [|n ns IH]; intros g h Hgh; simpl.
  - by apply Hgh.
  - apply sum_n_ext. intros i Hi. apply IH. intros I HI. by apply Hgh.
Qed.

Lemma sum_box_zero (shape : list nat) : sum_box shape (λ _, 0) = 0.
Proof.
  induction shape as [|n ns IH]; simpl; [done|].
  apply sum_n_zero. intros i _. apply IH.
Qed.

Lemma sum_box_nonneg (shape : list nat) (g : list nat → double) :
  (∀ I, in_range shape I → 0 ≤ g I) → 0 ≤ sum_box shape g.
Proof.
  revert g. induction shape as [|n ns IH]; intros g Hg; simpl.
  - by apply Hg.
  - apply sum_n_nonneg. intros i Hi. apply IH. intros I HI. by apply Hg.
Qed.

Lemma sum_box_nonneg_zero (shape : list nat) (g : list nat → double) :
  (∀ I, in_range shape I → 0 ≤ g I) → sum_box shape g = 0 →
  ∀ I, in_range shape I → g I = 0.
Proof.
  revert g. induction shape as [|n ns IH]; intros g Hg Hsum I HI.
  - apply in_range_nil_inv in HI as ->. done.
  - apply in_range_cons_inv in HI as (i & I' & -> & Hi & HI'). simpl in Hsum.
    apply (IH (λ I, g (i :: I))); [by intros; apply Hg| |done].
    apply (sum_n_nonneg_zero n (λ i, sum_box ns (λ I, g (i :: I)))); [|done..].
    intros k Hk. apply sum_box_nonneg. intros J HJ. by apply Hg.
Qed.

(** A sum with a single term that is not zero. *)
Lemma sum_box_delta (shape I0 : list nat) (h : list nat → double) :
  in_range shape I0 →
  sum_box shape (λ I, (if bool_decide (I0 = I) then 1 else 0) * h I) = h I0.
Proof.
  revert I0 h. induction shape as [|n ns IH]; intros I0 h HI0.
  - apply in_range_nil_inv in HI0 as ->. simpl. ring.
  - apply in_range_cons_inv in HI0 as (i0 & I0' & -> & Hi0 & HI0'). simpl.
    rewrite (sum_n_single n i0); [|done|].
    + rewrite (sum_box_ext ns _
        (λ I, (if bool_decide (I0' = I) then 1 else 0) * h (i0 :: I))).
      * apply (IH I0' (λ I, h (i0 :: I))). done.
      * intros I HI. repeat case_bool_decide; simplify_eq; done.
    + intros i Hi Hne. rewrite (sum_box_ext ns _ (λ _, 0)).
      * apply sum_box_zero.
      * intros I HI. rewrite bool_decide_eq_false_2 by congruence. ring.
Qed.

Lemma square_nonneg (x : double) : 0 ≤ x * x.
Proof.
  destruct (decide (0 ≤ x)) as [Hx|Hx].
  - replace 0 with (0 * x) by ring. by apply Qcmult_le_compat_r.
  - apply Qcnot_le_lt in Hx.
    replace (x * x) with ((- x) * (- x)) by ring.
    assert (0 ≤ - x) as Hn by qc_lra.
    replace 0 with (0 * - x) by ring. by apply Qcmult_le_compat_r.
Qed.

Lemma square_zero (x : double) : x * x = 0 → x = 0.
Proof. intros Hx. by destruct (Qcmult_integral _ _ Hx). Qed.

(** ** Specifications of the full contractions *)

Lemma inner_spec (m n : nat) (A B : mat) :
  inner m n A B = sum_n m (λ i, sum_n n (λ j, entry A i j * entry B i j)).
Proof.
  unfold inner.
  rewrite (for_for_sum m n (λ i j, entry A i j * entry B i j)). ring.
Qed.

Lemma ddot_22_spec (m n : nat) (A B : mat) :
  ddot_22 m n A B = sum_n m (λ i, sum_n n (λ j, entry A i j * entry B i j)).
Proof.
  unfold ddot_22.
  rewrite (for_for_sum m n (λ i j, entry A i j * entry B i j)). ring.
Qed.

Lemma dot_vmv_spec (m n : nat) (u : vec) (A : mat) (v : vec) :
  dot_vmv m n u A v
  = sum_n m (λ i, sum_n n (λ j, u !!! i * entry A i j * v !!! j)).
Proof.
  unfold dot_vmv.
  rewrite (for_for_sum m n (λ i j, u !!! i * entry A i j * v !!! j)). ring.
Qed.

Lemma sqnorm_v_spec (m : nat) (A : vec) :
  sqnorm_v m A = sum_n m (λ i, A !!! i * A !!! i).
Proof. unfold sqnorm_v. rewrite for_sum. ring. Qed.

Lemma sqnorm_m_spec (m n : nat) (A : mat) :
  sqnorm_m m n A = sum_n m (λ i, sum_n n (λ j, entry A i j * entry A i j)).
Proof.
  unfold sqnorm_m.
  rewrite (for_for_sum m n (λ i j, entry A i j * entry A i j)). ring.
Qed.

Lemma sqnorm_t_spec (shape : list nat) (A : tensor double shape) :
  sqnorm_t shape A = sum_box shape (λ I, tget shape A I * tget shape A I).
Proof. unfold sqnorm_t. rewrite for_constexpr_sum. ring. Qed.

Lemma chain_rule_spec (shape : list nat) (df_dx dx : tensor double shape) :
  chain_rule shape df_dx dx
  = sum_box shape (λ I, tget shape df_dx I * tget shape dx I).
Proof. unfold chain_rule. rewrite for_constexpr_sum. ring. Qed.

(** Two nested loops that accumulate into one entry. *)
Lemma for_for_accum_entry (m n p q i j : nat) (g : nat → nat → double)
    (C : mat) :
  is_mat m n C → (i < m)%nat → (j < n)%nat →
  for_ 0 p (λ k, for_ 0 q (λ l AB, set_entry i j (entry AB i j + g k l) AB)) C
  = set_entry i j (entry C i j + sum_n p (λ k, sum_n q (g k))) C.
Proof.
  intros HC Hi Hj. induction p as [|p IH].
  - rewrite for_nil by lia. simpl.
    replace (entry C i j + 0) with (entry C i j) by ring.
    by rewrite set_entry_id.
  - rewrite for_S by lia. rewrite IH.
    rewrite (for_accum_entry m n) by (done || by apply is_mat_set_entry).
    rewrite (entry_set_entry_eq m n) by done.
    rewrite set_entry_set_entry. simpl. f_equal. ring.
Qed.

Lemma for_for_accum_slot (m p q i : nat) (g : nat → nat → double) (C : vec) :
  (i < length C)%nat →
  for_ 0 p (λ k, for_ 0 q (λ l (AB : vec), <[i := AB !!! i + g k l]> AB)) C
  = <[i := C !!! i + sum_n p (λ k, sum_n q (g k))]> C.
Proof.
  intros Hi. induction p as [|p IH].
  - rewrite for_nil by lia. simpl. rewrite list_insert_id; [done|].
    rewrite list_lookup_lookup_total_lt by done. f_equal. ring.
  - rewrite for_S by lia. rewrite IH.
    rewrite for_accum_vec by (by rewrite length_insert).
    rewrite list_lookup_total_insert_eq by done.
    rewrite list_insert_insert_eq. simpl. f_equal. ring.
Qed.

Lemma ddot_42_spec (m n p q : nat) (A : list (list mat)) (B : mat) :
  is_mat m n (ddot_42 m n p q A B)
  ∧ ∀ i j, (i < m)%nat → (j < n)%nat →
      entry (ddot_42 m n p q A B) i j
      = sum_n p (λ k, sum_n q (λ l,
          entry ((A !!! i) !!! j) k l * entry B k l)).
Proof.
  set (g := λ i j k l, entry ((A !!! i) !!! j) k l * entry B k l).
  set (h := λ (i j : nat) (x : double), x + sum_n p (λ k, sum_n q (g i j k))).
  assert (ddot_42 m n p q A B
    = for_ 0 m (λ i, for_ 0 n (λ j AB,
        set_entry i j (h i j (entry AB i j)) AB)) (tzero [m; n])) as ->.
  { unfold ddot_42. apply (for_ext_inv (is_mat m n)); [apply is_mat_tzero| |].
    - intros i AB Hi HAB.
      loop_inv (λ (_ : nat) AB, is_mat m n AB); [lia|done| |done].
      intros j AB' Hj HAB'.
      rewrite (for_for_accum_entry m n p q i j (g i j)) by (done || lia).
      by apply is_mat_set_entry.
    - intros i AB Hi HAB. apply (for_ext_inv (is_mat m n)); [done| |].
      + intros j AB' Hj HAB'.
        rewrite (for_for_accum_entry m n p q i j (g i j)) by (done || lia).
        by apply is_mat_set_entry.
      + intros j AB' Hj HAB'.
        by rewrite (for_for_accum_entry m n p q i j (g i j)) by (done || lia). }
  destruct (for_for_update_entry m n h (tzero [m; n]) (is_mat_tzero m n))
    as [Hmat Hent].
  split; [done|]. intros i j Hi Hj. rewrite Hent by done. unfold h, g.
  rewrite entry_tzero. ring.
Qed.

Lemma ddot_32_spec (m n p : nat) (A : list mat) (B : mat) :
  length (ddot_32 m n p A B) = m
  ∧ ∀ i, (i < m)%nat →
      ddot_32 m n p A B !!! i
      = sum_n n (λ j, sum_n p (λ k, entry (A !!! i) j k * entry B j k)).
Proof.
  set (g := λ i j k, entry (A !!! i) j k * entry B j k).
  set (h := λ (i : nat) (x : double), x + sum_n n (λ j, sum_n p (g i j))).
  assert (ddot_32 m n p A B
    = for_ 0 m (λ i (AB : vec), <[i := h i (AB !!! i)]> AB) (tzero [m])) as ->.
  { unfold ddot_32.
    apply (for_ext_inv (λ AB : vec, length AB = m));
      [apply (length_tzero _ [])| |].
    - intros i AB Hi HAB.
      rewrite (for_for_accum_slot m n p i (g i)) by lia.
      by rewrite length_insert.
    - intros i AB Hi HAB.
      by rewrite (for_for_accum_slot m n p i (g i)) by lia. }
  destruct (for_update_vec m h (tzero [m]) (length_tzero _ [])) as [Hlen Hent].
  split; [done|]. intros i Hi. rewrite Hent by done. unfold h, g.
  rewrite lookup_total_tzero_vec. ring.
Qed.

Lemma chain_rule_vec_spec (m : nat) (ns : list nat)
    (df_dx : list (tensor double ns)) (dx : tensor double ns) :
  length (chain_rule_vec m ns df_dx dx) = m
  ∧ ∀ i, (i < m)%nat →
      chain_rule_vec m ns df_dx dx !!! i = chain_rule ns (df_dx !!! i) dx.
Proof.
  unfold chain_rule_vec.
  rewrite (for_insert m (λ i, chain_rule ns (df_dx !!! i) dx) _
             (length_tzero m [])).
  split; [by rewrite length_fmap, length_seq|].
  intros i Hi. by rewrite lookup_total_fmap_seq.
Qed.

Lemma chain_rule_mat_spec (m n : nat) (ps : list nat)
    (df_dx : list (list (tensor double ps))) (dx : tensor double ps) :
  is_mat m n (chain_rule_mat m n ps df_dx dx)
  ∧ ∀ i j, (i < m)%nat → (j < n)%nat →
      entry (chain_rule_mat m n ps df_dx dx) i j
      = chain_rule ps ((df_dx !!! i) !!! j) dx.
Proof.
  exact (for_for_set_entry m n
           (λ i j, chain_rule ps ((df_dx !!! i) !!! j) dx)
           _ (is_mat_tzero m n)).
Qed.

(** ** Properties of the full contractions *)

Lemma inner_tr (m n : nat) (A B : mat) :
  inner m n A B = tr n (dot_mm n m n (transpose m n A) B).
Proof.
  destruct (dot_mm_spec n m n (transpose m n A) B) as [_ E].
  destruct (transpose_spec m n A) as [_ ET].
  rewrite inner_spec, tr_sum, sum_n_exchange.
  apply sum_n_ext. intros j Hj. rewrite E by done.
  apply sum_n_ext. intros i Hi. by rewrite ET.
Qed.

(** X12.  [inner] is the sum of the products of the matching entries
    and [ddot] of two matrices is the same contraction; in exact
    arithmetic it is symmetric in its operands and equals the trace of
    [transpose(A) . B]. *)
Theorem inner_is_full_contraction (m n : nat) (A B : mat) :
  inner m n A B = sum_n m (λ i, sum_n n (λ j, entry A i j * entry B i j))
  ∧ ddot_22 m n A B = inner m n A B
  ∧ inner m n A B = inner m n B A
  ∧ inner m n A B = tr n (dot_mm n m n (transpose m n A) B).
Proof.
  split; [apply inner_spec|]. split; [by rewrite inner_spec, ddot_22_spec|].
  split; [|apply inner_tr].
  rewrite !inner_spec. apply sum_n_ext. intros i _.
  apply sum_n_ext. intros j _. ring.
Qed.

Lemma sqnorm_t_vec (m : nat) (A : vec) : sqnorm_t [m] A = sqnorm_v m A.
Proof. by rewrite sqnorm_t_spec, sqnorm_v_spec. Qed.

Lemma sqnorm_t_mat (m n : nat) (A : mat) : sqnorm_t [m; n] A = sqnorm_m m n A.
Proof.
  rewrite sqnorm_t_spec, sqnorm_m_spec. cbn [sum_box].
  apply sum_n_ext. intros i _. apply sum_n_ext. intros j _.
  by rewrite tget_entry.
Qed.

Lemma sqnorm_t_nonneg (shape : list nat) (A : tensor double shape) :
  0 ≤ sqnorm_t shape A.
Proof.
  rewrite sqnorm_t_spec. apply sum_box_nonneg. intros; apply square_nonneg.
Qed.

Lemma sqnorm_t_zero (shape : list nat) (A : tensor double shape) :
  wf shape A → sqnorm_t shape A = 0 → A = tzero shape.
Proof.
  intros HA Hz. rewrite sqnorm_t_spec in Hz.
  apply tensor_ext; [done|apply wf_tzero|]. intros I HI.
  rewrite tget_tzero. apply square_zero.
  apply (sum_box_nonneg_zero shape
    (λ I, tget shape A I * tget shape A I)); [|done..].
  intros; apply square_nonneg.
Qed.

(** X13.  The three overloads of [sqnorm] agree on vectors and on
    matrices, where they are [dot(A, A)] and [inner(A, A)]; in exact
    arithmetic the squared norm is never negative, it is zero only for
    the zero tensor, and so positive on every other tensor of the
    declared shape. *)
Theorem sqnorm_overloads_agree_and_definite :
  (∀ (m : nat) (A : vec),
     sqnorm_t [m] A = sqnorm_v m A ∧ sqnorm_v m A = dot_vv m A A)
  ∧ (∀ (m n : nat) (A : mat),
     sqnorm_t [m; n] A = sqnorm_m m n A ∧ sqnorm_m m n A = inner m n A A)
  ∧ (∀ (shape : list nat) (A : tensor double shape), 0 ≤ sqnorm_t shape A)
  ∧ (∀ (shape : list nat) (A : tensor double shape),
     wf shape A → sqnorm_t shape A = 0 → A = tzero shape)
  ∧ (∀ (shape : list nat) (A : tensor double shape),
     wf shape A → A ≠ tzero shape → 0 < sqnorm_t shape A).
Proof.
  split; [|split; [|split; [|split]]].
  - intros m A. split; [apply sqnorm_t_vec|].
    by rewrite sqnorm_v_spec, dot_vv_spec.
  - intros m n A. split; [apply sqnorm_t_mat|].
    by rewrite sqnorm_m_spec, inner_spec.
  - exact sqnorm_t_nonneg.
  - exact sqnorm_t_zero.
  - intros shape A HA Hne.
    destruct (Qcle_lt_or_eq _ _ (sqnorm_t_nonneg shape A)) as [Hlt|Heq];
      [done|].
    destruct Hne. by apply sqnorm_t_zero.
Qed.

Lemma sqnorm_overloads_agree_and_definite_witness :
  0 < sqnorm_t [2%nat; 2%nat] [[lit 1 1; lit 2 1]; [lit 3 1; lit 4 1]].
Proof.
  apply (proj2 (proj2 (proj2 (proj2 sqnorm_overloads_agree_and_definite)))
           [2%nat; 2%nat]).
  - simpl. repeat constructor.
  - intros H. apply (f_equal (λ A : mat, entry A 0 0)) in H.
    revert H. compute_done.
Defined.

(** X14.  The double dot products of higher order are built from the
    one on matrices: entry [(i, j)] of [ddot] of a 4th order tensor
    with a matrix is [ddot(A[i][j], B)], and entry [i] of [ddot] of a
    3rd order tensor with a matrix is [ddot(A[i], B)]. *)
Theorem ddot_slices :
  (∀ (m n p q : nat) (A : list (list mat)) (B : mat),
     is_mat m n (ddot_42 m n p q A B)
     ∧ ∀ i j, (i < m)%nat → (j < n)%nat →
         entry (ddot_42 m n p q A B) i j = ddot_22 p q ((A !!! i) !!! j) B)
  ∧ (∀ (m n p : nat) (A : list mat) (B : mat),
     length (ddot_32 m n p A B) = m
     ∧ ∀ i, (i < m)%nat →
         ddot_32 m n p A B !!! i = ddot_22 n p (A !!! i) B).
Proof.
  split.
  - intros m n p q A B. destruct (ddot_42_spec m n p q A B) as [Hmat Hent].
    split; [done|]. intros i j Hi Hj. by rewrite Hent, ddot_22_spec.
  - intros m n p A B. destruct (ddot_32_spec m n p A B) as [Hlen Hent].
    split; [done|]. intros i Hi. by rewrite Hent, ddot_22_spec.
Qed.

Lemma ddot_slices_witness :
  ddot_32 2 2 2
    [[[lit 1 1; lit 2 1]; [lit 3 1; lit 4 1]];
     [[lit 5 1; lit 6 1]; [lit 7 1; lit 8 1]]]
    [[lit 1 1; 0]; [0; lit 1 1]] !!! 1%nat
  = ddot_22 2 2
      ([[[lit 1 1; lit 2 1]; [lit 3 1; lit 4 1]];
        [[lit 5 1; lit 6 1]; [lit 7 1; lit 8 1]]] !!! 1%nat)
      [[lit 1 1; 0]; [0; lit 1 1]].
Proof. apply (proj2 (proj2 ddot_slices 2%nat 2%nat 2%nat _ _)). lia. Defined.

(** X15.  In exact arithmetic [dot(u, A, v)] is [u . (A . v)] and
    also [(u . A) . v]. *)
Theorem dot_vmv_associates (m n : nat) (u : vec) (A : mat) (v : vec) :
  dot_vmv m n u A v = dot_vv m u (dot_mv m n A v)
  ∧ dot_vmv m n u A v = dot_vv n (dot_vm m n u A) v.
Proof.
  destruct (dot_mv_spec m n A v) as [_ Emv].
  destruct (dot_vm_spec m n u A) as [_ Evm].
  rewrite dot_vmv_spec, !dot_vv_spec. split.
  - apply sum_n_ext. intros i Hi. rewrite Emv by done.
    rewrite <- sum_n_scale_l. apply sum_n_ext. intros; ring.
  - rewrite sum_n_exchange. apply sum_n_ext. intros j Hj. rewrite Evm by done.
    rewrite <- sum_n_scale_r. apply sum_n_ext. intros; ring.
Qed.

(** ** The chain rule *)

Lemma chain_rule_dot_vv (n : nat) (df_dx dx : vec) :
  chain_rule [n] df_dx dx = dot_vv n df_dx dx.
Proof. by rewrite chain_rule_spec, dot_vv_spec. Qed.

Lemma chain_rule_inner (m n : nat) (df_dx dx : mat) :
  chain_rule [m; n] df_dx dx = inner m n df_dx dx.
Proof.
  rewrite chain_rule_spec, inner_spec. cbn [sum_box].
  apply sum_n_ext. intros i _. apply sum_n_ext. intros j _.
  by rewrite !tget_entry.
Qed.

(** X16.  Every overload of [chain_rule] is the contraction of the
    matching order: the product of two scalars, the scaling of a tensor,
    [dot] of two vectors, [inner] of two matrices, matrix . vector,
    3rd-order-tensor . vector, and the two double dot products. *)
Theorem chain_rule_is_contraction :
  (∀ df_dx dx : double, chain_rule_dd df_dx dx = df_dx * dx)
  ∧ (∀ (shape : list nat) (df_dx : tensor double shape) (dx : double),
     chain_rule_td shape df_dx dx = scale_l shape dx df_dx)
  ∧ (∀ (n : nat) (df_dx dx : vec),
     chain_rule [n] df_dx dx = dot_vv n df_dx dx)
  ∧ (∀ (m n : nat) (df_dx dx : mat),
     chain_rule [m; n] df_dx dx = inner m n df_dx dx)
  ∧ (∀ (m n : nat) (df_dx : mat) (dx : vec),
     chain_rule_vec m [n] df_dx dx = dot_mv m n df_dx dx)
  ∧ (∀ (m n p : nat) (df_dx : list mat) (dx : mat),
     chain_rule_vec m [n; p] df_dx dx = ddot_32 m n p df_dx dx)
  ∧ (∀ (m n p : nat) (df_dx : list mat) (dx : vec),
     chain_rule_mat m n [p] df_dx dx = dot_t3v m n p df_dx dx)
  ∧ (∀ (m n p q : nat) (df_dx : list (list mat)) (dx : mat),
     chain_rule_mat m n [p; q] df_dx dx = ddot_42 m n p q df_dx dx).
Proof.
  split; [done|]. split.
  { intros shape df_dx dx. unfold chain_rule_td. symmetry.
    apply tensor_ext; [apply wf_scale_l|apply wf_scale_r|].
    intros I HI. rewrite tget_scale_l, tget_scale_r by done. ring. }
  split; [exact chain_rule_dot_vv|]. split; [exact chain_rule_inner|].
  split; [|split; [|split]].
  - intros m n df_dx dx.
    destruct (chain_rule_vec_spec m [n] df_dx dx) as [L1 E1].
    destruct (dot_mv_spec m n df_dx dx) as [L2 E2].
    apply (vec_ext m); [done..|]. intros i Hi.
    rewrite E1, E2 by done. rewrite chain_rule_spec. cbn [sum_box].
    apply sum_n_ext. intros j _.
    rewrite <- (tget_entry m n df_dx i j). reflexivity.
  - intros m n p df_dx dx.
    destruct (chain_rule_vec_spec m [n; p] df_dx dx) as [L1 E1].
    destruct (ddot_32_spec m n p df_dx dx) as [L2 E2].
    apply (vec_ext m); [done..|]. intros i Hi.
    rewrite E1, E2 by done. rewrite chain_rule_spec. cbn [sum_box].
    apply sum_n_ext. intros j _. apply sum_n_ext. intros k _.
    rewrite <- (tget_entry3 m n p df_dx i j k), <- (tget_entry n p dx j k).
    reflexivity.
  - intros m n p df_dx dx.
    destruct (chain_rule_mat_spec m n [p] df_dx dx) as [H1 E1].
    destruct (dot_t3v_spec m n p df_dx dx) as [H2 E2].
    apply (mat_ext m n); [done..|]. intros i j Hi Hj.
    rewrite E1, E2 by done. rewrite chain_rule_spec. cbn [sum_box].
    apply sum_n_ext. intros k _.
    rewrite <- (tget_entry n p (df_dx !!! i) j k). reflexivity.
  - intros m n p q df_dx dx.
    destruct (chain_rule_mat_spec m n [p; q] df_dx dx) as [H1 E1].
    destruct (ddot_42_spec m n p q df_dx dx) as [H2 E2].
    apply (mat_ext m n); [done..|]. intros i j Hi Hj.
    rewrite E1, E2 by done. rewrite chain_rule_spec. cbn [sum_box].
    apply sum_n_ext. intros k _. apply sum_n_ext. intros l _.
    rewrite <- (tget_entry3 n p q (df_dx !!! i) j k l),
      <- (tget_entry p q dx k l).
    reflexivity.
Qed.
(** ** The inverse of 2 by 2 and 3 by 3 matrices *)

Lemma inverse_unique_r (n : nat) (A X B : mat) :
  is_mat n n X → is_mat n n B →
  dot_mm n n n X A = DenseIdentity n →
  dot_mm n n n A B = DenseIdentity n → B = X.
Proof.
  intros HX HB HXA HAB.
  rewrite <- (dot_mm_identity_l n n B HB), <- HXA, dot_mm_assoc_eq, HAB.
  by apply dot_mm_identity_r.
Qed.

Lemma inverse_unique_l (n : nat) (A X B : mat) :
  is_mat n n X → is_mat n n B →
  dot_mm n n n A X = DenseIdentity n →
  dot_mm n n n B A = DenseIdentity n → B = X.
Proof.
  intros HX HB HAX HBA.
  rewrite <- (dot_mm_identity_r n n B HB), <- HAX, <- dot_mm_assoc_eq, HBA.
  by apply dot_mm_identity_l.
Qed.

(** The result of [inv] is determined by either of its two products
    with [A]. *)
Lemma inv_closed_form_eq (n : nat) (A X : mat) :
  (n = 2 ∨ n = 3)%nat → is_mat n n A → is_mat n n X →
  dot_mm n n n A X = DenseIdentity n →
  dot_mm n n n X A = DenseIdentity n →
  inv n A = Some X.
Proof.
  intros Hn HA HX Hr Hl.
  assert (invertible n A) as Hinv by by exists X.
  destruct (inv_closed_form n A Hn HA Hinv) as (Y & HY & HmY & HrY & HlY).
  rewrite HY. f_equal. by apply (inverse_unique_r n A).
Qed.

(** X17.  In exact arithmetic, on an invertible 2 by 2 or 3 by 3
    matrix [inv] returns the only inverse: every left or right inverse
    of [A] equals [inv(A)]; hence [inv] is an involution and the inverse
    of a product is the product of the inverses in the other order. *)
Theorem inv_unique_involutive (n : nat) (A : mat) :
  (n = 2 ∨ n = 3)%nat → is_mat n n A → invertible n A →
  ∃ X : mat, inv n A = Some X ∧ is_mat n n X
    ∧ (∀ B, is_mat n n B → dot_mm n n n A B = DenseIdentity n → B = X)
    ∧ (∀ B, is_mat n n B → dot_mm n n n B A = DenseIdentity n → B = X)
    ∧ inv n X = Some A
    ∧ (∀ B, is_mat n n B → invertible n B →
         ∃ Y : mat, inv n B = Some Y
           ∧ inv n (dot_mm n n n A B) = Some (dot_mm n n n Y X)).
Proof.
  intros Hn HA Hinv.
  destruct (inv_closed_form n A Hn HA Hinv) as (X & HX & HmX & Hr & Hl).
  exists X. split; [done|]. split; [done|]. split; [|split; [|split]].
  - intros B HB HAB. by apply (inverse_unique_r n A).
  - intros B HB HBA. by apply (inverse_unique_l n A).
  - by apply inv_closed_form_eq.
  - intros B HB HinvB.
    destruct (inv_closed_form n B Hn HB HinvB) as (Y & HY & HmY & HrB & HlB).
    exists Y. split; [done|].
    destruct (dot_mm_spec n n n A B) as [HAB _].
    destruct (dot_mm_spec n n n Y X) as [HYX _].
    apply inv_closed_form_eq; [done..| |].
    + rewrite dot_mm_assoc_eq, <- (dot_mm_assoc_eq n n n n B), HrB.
      by rewrite dot_mm_identity_l.
    + rewrite dot_mm_assoc_eq, <- (dot_mm_assoc_eq n n n n X), Hl.
      by rewrite dot_mm_identity_l.
Qed.

Lemma inv_unique_involutive_witness :
  ∃ X : mat, inv 3 example_matrix3 = Some X ∧ inv 3 X = Some example_matrix3.
Proof.
  destruct (inv_unique_involutive 3 example_matrix3) as (X & HX & _ & _ & _ & HXX & _).
  - by right.
  - unfold is_mat. compute_done.
  - exists (inv3 example_matrix3). unfold is_mat. repeat split; compute_done.
  - by exists X.
Defined.

(** ** Builders at every order *)

Lemma make_tensor1_spec (n1 : nat) (f : nat → double) :
  make_tensor1 n1 f = f <$> seq 0 n1.
Proof. unfold make_tensor1. apply for_insert, (length_tzero _ []). Qed.

(** The inner loop of a builder fills one row. *)
Lemma for_insert_row {T : Type} `{Inhabited T} (n2 i : nat) (g : nat → T)
    (A : list (list T)) :
  (i < length A)%nat → length (A !!! i) = n2 →
  for_ 0 n2 (λ j (A : list (list T)), <[i := <[j := g j]> (A !!! i)]> A) A
  = <[i := g <$> seq 0 n2]> A.
Proof.
  intros Hi Hrow.
  assert (∀ k,
    for_ 0 k (λ j (A : list (list T)), <[i := <[j := g j]> (A !!! i)]> A) A
    = <[i := for_ 0 k (λ j (row : list T), <[j := g j]> row) (A !!! i)]> A)
    as Hgen.
  { intros k. induction k as [|k IH].
    - rewrite !for_nil by lia. symmetry. apply list_insert_id.
      by apply list_lookup_lookup_total_lt.
    - rewrite !for_S by lia. rewrite IH.
      rewrite list_lookup_total_insert_eq by done.
      by rewrite list_insert_insert_eq. }
  rewrite Hgen. by rewrite for_insert.
Qed.

Lemma make_tensor2_of_spec {T : Type} `{Inhabited T} (n1 n2 : nat)
    (f : nat → nat → T) :
  make_tensor2_of n1 n2 f = (λ i, f i <$> seq 0 n2) <$> seq 0 n1.
Proof.
  unfold make_tensor2_of.
  rewrite (for_ext_inv
    (λ A : list (list T), length A = n1 ∧ Forall (λ row, length row = n2) A)
    _ _ _ (λ i (A : list (list T)), <[i := f i <$> seq 0 n2]> A)).
  - apply for_insert, length_replicate.
  - split; [apply length_replicate|]. apply Forall_replicate, length_replicate.
  - intros i A Hi [Hlen Hrows]. rewrite for_insert_row.
    + split; [by rewrite length_insert|]. apply Forall_insert; [done|].
      by rewrite length_fmap, length_seq.
    + lia.
    + rewrite Forall_lookup in Hrows. apply (Hrows i).
      apply list_lookup_lookup_total_lt. lia.
  - intros i A Hi [Hlen Hrows]. apply for_insert_row; [lia|].
    rewrite Forall_lookup in Hrows. apply (Hrows i).
    apply list_lookup_lookup_total_lt. lia.
Qed.

Lemma tget_tset {T : Type} `{Inhabited T} (shape I J : list nat) (v : T)
    (t : tensor T shape) :
  wf shape t → in_range shape I → in_range shape J →
  tget shape (tset shape I v t) J
  = if bool_decide (I = J) then v else tget shape t J.
Proof. intros. unfold tset. by rewrite tget_talter. Qed.

Lemma wf_tset {T : Type} (shape I : list nat) (v : T) (t : tensor T shape) :
  wf shape t → wf shape (tset shape I v t).
Proof. apply wf_talter. Qed.

(** A builder of any order stores [f I] at every multi-index [I]. *)
Lemma for_constexpr_tset {T : Type} `{Inhabited T} (shape : list nat)
    (f : list nat → T) (t : tensor T shape) :
  wf shape t →
  let R := for_constexpr shape (λ I, tset shape I (f I)) t in
  wf shape R ∧ ∀ I, in_range shape I → tget shape R I = f I.
Proof.
  intros Ht. exact (for_constexpr_talter shape (λ I _, f I) t Ht).
Qed.

Lemma make_tensor3_spec (n1 n2 n3 : nat) (f : nat → nat → nat → double) :
  wf [n1; n2; n3] (make_tensor3 n1 n2 n3 f)
  ∧ ∀ i j k, (i < n1)%nat → (j < n2)%nat → (k < n3)%nat →
      tget [n1; n2; n3] (make_tensor3 n1 n2 n3 f) [i; j; k] = f i j k.
Proof.
  destruct (for_constexpr_tset [n1; n2; n3]
    (λ I, f (I !!! 0%nat) (I !!! 1%nat) (I !!! 2%nat))
    (tzero [n1; n2; n3]) (wf_tzero _)) as [Hwf Hent].
  split; [exact Hwf|]. intros i j k Hi Hj Hk.
  exact (Hent [i; j; k] ltac:(simpl; done)).
Qed.

Lemma make_tensor4_spec (n1 n2 n3 n4 : nat)
    (f : nat → nat → nat → nat → double) :
  wf [n1; n2; n3; n4] (make_tensor4 n1 n2 n3 n4 f)
  ∧ ∀ i j k l, (i < n1)%nat → (j < n2)%nat → (k < n3)%nat → (l < n4)%nat →
      tget [n1; n2; n3; n4] (make_tensor4 n1 n2 n3 n4 f) [i; j; k; l]
      = f i j k l.
Proof.
  destruct (for_constexpr_tset [n1; n2; n3; n4]
    (λ I, f (I !!! 0%nat) (I !!! 1%nat) (I !!! 2%nat) (I !!! 3%nat))
    (tzero [n1; n2; n3; n4]) (wf_tzero _)) as [Hwf Hent].
  split; [exact Hwf|]. intros i j k l Hi Hj Hk Hl.
  exact (Hent [i; j; k; l] ltac:(simpl; done)).
Qed.

(** X18.  [make_tensor] returns a tensor of the requested shape whose
    entry at every index is the value of the functor there, at the
    orders 1, 2, 3 and 4. *)
Theorem make_tensor_tabulates :
  (∀ (n1 : nat) (f : nat → double),
     length (make_tensor1 n1 f) = n1
     ∧ ∀ i, (i < n1)%nat → make_tensor1 n1 f !!! i = f i)
  ∧ (∀ (n1 n2 : nat) (f : nat → nat → double),
     is_mat n1 n2 (make_tensor2 n1 n2 f)
     ∧ ∀ i j, (i < n1)%nat → (j < n2)%nat →
         entry (make_tensor2 n1 n2 f) i j = f i j)
  ∧ (∀ (n1 n2 n3 : nat) (f : nat → nat → nat → double),
     wf [n1; n2; n3] (make_tensor3 n1 n2 n3 f)
     ∧ ∀ i j k, (i < n1)%nat → (j < n2)%nat → (k < n3)%nat →
         tget [n1; n2; n3] (make_tensor3 n1 n2 n3 f) [i; j; k] = f i j k)
  ∧ (∀ (n1 n2 n3 n4 : nat) (f : nat → nat → nat → nat → double),
     wf [n1; n2; n3; n4] (make_tensor4 n1 n2 n3 n4 f)
     ∧ ∀ i j k l,
         (i < n1)%nat → (j < n2)%nat → (k < n3)%nat → (l < n4)%nat →
         tget [n1; n2; n3; n4] (make_tensor4 n1 n2 n3 n4 f) [i; j; k; l]
         = f i j k l).
Proof.
  split; [|split; [|split]].
  - intros n1 f. rewrite make_tensor1_spec.
    split; [by rewrite length_fmap, length_seq|].
    intros i Hi. by rewrite lookup_total_fmap_seq.
  - intros n1 n2 f.
    split; [apply is_mat_make_tensor2|]. intros. by apply entry_make_tensor2.
  - exact make_tensor3_spec.
  - exact make_tensor4_spec.
Qed.

Lemma make_tensor_tabulates_witness :
  tget [2%nat; 2%nat; 2%nat]
    (make_tensor3 2 2 2 (λ i j k, of_nat (4 * i + 2 * j + k)))
    [1%nat; 0%nat; 1%nat]
  = of_nat (4 * 1 + 2 * 0 + 1).
Proof.
  apply (proj2 (proj1 (proj2 (proj2 make_tensor_tabulates))
                  2%nat 2%nat 2%nat (λ i j k, of_nat (4 * i + 2 * j + k)))
           1%nat 0%nat 1%nat); lia.
Defined.

(** ** The chain rule on the gradient that [make_dual] seeds *)

Lemma get_gradient_make_dual (shape : list nat) (A : tensor double shape)
    (I J : list nat) :
  in_range shape I → in_range shape J →
  tget (shape ++ shape) (get_gradient shape shape (make_dual shape A)) (I ++ J)
  = if bool_decide (I = J) then 1 else 0.
Proof.
  intros HI HJ. destruct (make_dual_spec shape A) as [Hwf Hent].
  destruct (get_gradient_spec shape shape (make_dual shape A)) as [_ Hg].
  { intros I' HI'. rewrite Hent by done. simpl. apply wf_talter, wf_tfill. }
  rewrite Hg, Hent by done. simpl. unfold tset.
  rewrite tget_talter by (done || apply wf_tfill).
  case_bool_decide; [done|]. apply tget_tzero.
Qed.

Lemma wf_get_gradient_make_dual (shape : list nat) (A : tensor double shape) :
  wf (shape ++ shape) (get_gradient shape shape (make_dual shape A)).
Proof.
  destruct (make_dual_spec shape A) as [Hwf Hent].
  apply get_gradient_spec.
  intros I' HI'. rewrite Hent by done. simpl. apply wf_talter, wf_tfill.
Qed.

(** [G(i, j, k...)] and [G[i][j](k...)] read the same entry. *)
Lemma tget_lookup2 {T : Type} `{Inhabited T} (m n : nat) (ps : list nat)
    (G : list (list (tensor T ps))) (i j : nat) (J : list nat) :
  wf (m :: n :: ps) (G : tensor T (m :: n :: ps)) →
  (i < m)%nat → (j < n)%nat →
  tget (m :: n :: ps) (G : tensor T (m :: n :: ps)) (i :: j :: J)
  = tget ps ((G !!! i) !!! j) J.
Proof.
  intros [Hlen Hrows] Hi Hj. cbn [tget]. list_form.
  destruct (lookup_lt_is_Some_2 G i ltac:(lia)) as [row Hrow].
  rewrite !(list_lookup_total_correct G i row) by done.
  rewrite Forall_lookup in Hrows. destruct (Hrows i row Hrow) as [Hlen' _].
  list_form.
  destruct (lookup_lt_is_Some_2 row j ltac:(lia)) as [x Hx].
  by rewrite !(list_lookup_total_correct row j x).
Qed.

(** X19.  The gradient that [make_dual] seeds is the derivative of the
    identity map: [chain_rule] applied to [get_gradient(make_dual(A))]
    and a change [dx] of the shape of [A] returns [dx], for a vector
    and for a matrix [A]. *)
Theorem chain_rule_of_seeded_gradient :
  (∀ (n : nat) (A dx : vec), length dx = n →
     chain_rule_vec n [n] (get_gradient [n] [n] (make_dual [n] A)) dx = dx)
  ∧ (∀ (m n : nat) (A dx : mat), is_mat m n dx →
     chain_rule_mat m n [m; n]
       (get_gradient [m; n] [m; n] (make_dual [m; n] A)) dx = dx).
Proof.
  split.
  - intros n A dx Hdx.
    destruct (chain_rule_vec_spec n [n]
      (get_gradient [n] [n] (make_dual [n] A)) dx) as [L1 E1].
    apply (vec_ext n); [done..|]. intros i Hi. rewrite E1 by done.
    rewrite chain_rule_spec.
    rewrite (sum_box_ext [n] _
      (λ J, (if bool_decide ([i] = J) then 1 else 0) * tget [n] dx J)).
    + exact (sum_box_delta [n] [i] (λ J, tget [n] dx J) ltac:(simpl; done)).
    + intros J HJ. f_equal.
      exact (get_gradient_make_dual [n] A [i] J ltac:(simpl; done) HJ).
  - intros m n A dx Hdx.
    destruct (chain_rule_mat_spec m n [m; n]
      (get_gradient [m; n] [m; n] (make_dual [m; n] A)) dx) as [H1 E1].
    apply (mat_ext m n); [done..|]. intros i j Hi Hj. rewrite E1 by done.
    rewrite chain_rule_spec.
    rewrite (sum_box_ext [m; n] _
      (λ J, (if bool_decide ([i; j] = J) then 1 else 0) * tget [m; n] dx J)).
    + rewrite (sum_box_delta [m; n] [i; j] (λ J, tget [m; n] dx J))
        by (simpl; done).
      apply tget_entry.
    + intros J HJ. f_equal.
      rewrite <- (tget_lookup2 m n [m; n])
        by (done || apply (wf_get_gradient_make_dual [m; n])).
      exact (get_gradient_make_dual [m; n] A [i; j] J ltac:(simpl; done) HJ).
Qed.

Lemma chain_rule_of_seeded_gradient_witness :
  chain_rule_vec 3 [3%nat]
    (get_gradient [3%nat] [3%nat]
       (make_dual [3%nat] [lit 1 1; lit 2 1; lit 3 1]))
    [lit 5 1; lit (-1) 2; lit 7 3]
  = [lit 5 1; lit (-1) 2; lit 7 3].
Proof. apply (proj1 chain_rule_of_seeded_gradient 3%nat). reflexivity. Defined.

(** ** The inverse of a matrix of dual numbers *)

Lemma for_sub_assign (gs : list nat) (n : nat) (t : nat → tensor double gs)
    (G0 : tensor double gs) :
  wf gs G0 →
  let R := for_ 0 n (λ l grad, sub_assign gs grad (t l)) G0 in
  wf gs R
  ∧ ∀ J, in_range gs J →
      tget gs R J = tget gs G0 J - sum_n n (λ l, tget gs (t l) J).
Proof.
  intros HG0 R. subst R.
  loop_inv (λ i (R : tensor double gs), wf gs R
    ∧ ∀ J, in_range gs J →
        tget gs R J = tget gs G0 J - sum_n i (λ l, tget gs (t l) J)); [lia| | |].
  - split; [done|]. intros J HJ. simpl. ring.
  - intros i R Hi [HR Hent]. rewrite sub_assign_tensor_sub by done.
    split; [apply wf_tensor_sub|]. intros J HJ.
    rewrite tget_tensor_sub, Hent by done. simpl. ring.
  - done.
Qed.

Lemma for_for_sub_assign (gs : list nat) (n : nat)
    (t : nat → nat → tensor double gs) (G0 : tensor double gs) :
  wf gs G0 →
  let R := for_ 0 n (λ k, for_ 0 n (λ l grad, sub_assign gs grad (t k l))) G0 in
  wf gs R
  ∧ ∀ J, in_range gs J →
      tget gs R J
      = tget gs G0 J - sum_n n (λ k, sum_n n (λ l, tget gs (t k l) J)).
Proof.
  intros HG0 R. subst R.
  loop_inv (λ i (R : tensor double gs), wf gs R
    ∧ ∀ J, in_range gs J →
        tget gs R J
        = tget gs G0 J - sum_n i (λ k, sum_n n (λ l, tget gs (t k l) J)));
    [lia| | |].
  - split; [done|]. intros J HJ. simpl. ring.
  - intros i R Hi [HR Hent].
    destruct (for_sub_assign gs n (t i) R HR) as [HR' Hent'].
    split; [done|]. intros J HJ. rewrite Hent', Hent by done. simpl. ring.
  - done.
Qed.

Lemma lookup_wf2 {T : Type} `{Inhabited T} (m n : nat) (A : list (list T))
    (i j : nat) :
  wf [m; n] A → (i < m)%nat → (j < n)%nat →
  tget [m; n] A [i; j] = (A !!! i) !!! j.
Proof.
  intros [Hlen Hrows] Hi Hj. cbn [tget]. list_form.
  change (tensor T []) with T in *.
  destruct (lookup_lt_is_Some_2 A i ltac:(lia)) as [row Hrow].
  rewrite !(list_lookup_total_correct A i row) by done.
  rewrite Forall_lookup in Hrows. destruct (Hrows i row Hrow) as [Hlen' _].
  change (tensor T []) with T in *.
  destruct (lookup_lt_is_Some_2 row j ltac:(lia)) as [x Hx].
  by rewrite !(list_lookup_total_correct row j x).
Qed.

Lemma inv_dual_entry (n : nat) (gs : list nat) (X : mat)
    (A : list (list (dual (tensor double gs)))) (i j : nat) :
  (i < n)%nat → (j < n)%nat →
  (inv_dual_result n gs X A !!! i) !!! j
  = mk_dual (entry X i j)
      (for_ 0 n (λ k, for_ 0 n (λ l grad,
         sub_assign gs grad
           (scale_r gs (entry X l j)
              (scale_l gs (entry X i k) (gradient ((A !!! k) !!! l))))))
         (tzero gs)).
Proof.
  intros Hi Hj. unfold inv_dual_result. rewrite make_tensor2_of_spec.
  rewrite lookup_total_fmap_seq by done.
  by rewrite lookup_total_fmap_seq by done.
Qed.

Lemma wf_inv_dual (n : nat) (gs : list nat) (X : mat)
    (A : list (list (dual (tensor double gs)))) :
  wf [n; n] (inv_dual_result n gs X A).
Proof.
  unfold inv_dual_result. rewrite make_tensor2_of_spec.
  apply (@wf_fmap_seq (dual (tensor double gs)) n [n]). intros i Hi.
  apply (@wf_fmap_seq (dual (tensor double gs)) n []). done.
Qed.

Lemma entry_get_value (n : nat) (gs : list nat)
    (A : list (list (dual (tensor double gs)))) (i j : nat) :
  wf [n; n] A → (i < n)%nat → (j < n)%nat →
  entry (get_value [n; n] A) i j = value ((A !!! i) !!! j).
Proof.
  intros HA Hi Hj. rewrite <- (tget_entry n n).
  destruct (get_value_spec [n; n] A) as [_ Hval].
  rewrite Hval by (simpl; done). by rewrite (lookup_wf2 n n).
Qed.

Lemma identity_entries (n : nat) (A X : mat) :
  dot_mm n n n A X = DenseIdentity n →
  ∀ r c, (r < n)%nat → (c < n)%nat → mmul n A X r c = delta r c.
Proof.
  intros Hr r c Hr' Hc'. destruct (dot_mm_spec n n n A X) as [_ Hent].
  unfold mmul. rewrite <- Hent, Hr by done. by apply entry_DenseIdentity.
Qed.

(** X20.  In exact arithmetic, for a 2 by 2 or 3 by 3 matrix of dual
    numbers whose values form an invertible matrix, [inv] returns the
    inverse of the values as its values and [- inv(A) . dA . inv(A)] as
    its gradients, so that the product rule gives [A . inv(A)] the
    gradient zero: [A . d(inv A) + dA . inv(A) = 0], in every component
    of the gradient type. *)
Theorem inv_dual_first_order (n : nat) (gs : list nat)
    (A : list (list (dual (tensor double gs)))) :
  (n = 2 ∨ n = 3)%nat →
  wf [n; n] A → invertible n (get_value [n; n] A) →
  ∃ (X : mat) (R : list (list (dual (tensor double gs)))),
    inv n (get_value [n; n] A) = Some X
    ∧ inv_dual n gs A = Some R
    ∧ wf [n; n] R
    ∧ get_value [n; n] R = X
    ∧ ∀ i j J, (i < n)%nat → (j < n)%nat → in_range gs J →
        tget gs (gradient ((R !!! i) !!! j)) J
        = - sum_n n (λ k, sum_n n (λ l,
              entry X i k
              * tget gs (gradient ((A !!! k) !!! l)) J
              * entry X l j))
        ∧ sum_n n (λ k,
            entry (get_value [n; n] A) i k
            * tget gs (gradient ((R !!! k) !!! j)) J
            + tget gs (gradient ((A !!! i) !!! k)) J
              * entry X k j) = 0.
Proof.
  intros Hn HA Hinv.
  set (V := get_value [n; n] A) in *.
  assert (is_mat n n V) as HV.
  { apply wf_is_mat. apply (get_value_spec [n; n] A). }
  destruct (inv_closed_form n V Hn HV Hinv) as (X & HinvX & HX & Hr & _).
  pose proof (identity_entries n V X Hr) as HVX.
  exists X, (inv_dual_result n gs X A).
  split; [done|]. split; [unfold inv_dual; fold V; by rewrite HinvX|].
  assert (∀ i j J, (i < n)%nat → (j < n)%nat → in_range gs J →
    tget gs (gradient ((inv_dual_result n gs X A !!! i) !!! j)) J
    = - sum_n n (λ k, sum_n n (λ l,
          entry X i k * tget gs (gradient ((A !!! k) !!! l)) J * entry X l j)))
    as Hgrad.
  { intros i j J Hi Hj HJ. rewrite inv_dual_entry by done. cbn [gradient].
    destruct (for_for_sub_assign gs n
      (λ k l, scale_r gs (entry X l j)
                (scale_l gs (entry X i k) (gradient ((A !!! k) !!! l))))
      (tzero gs) (wf_tzero gs)) as [_ Hent].
    rewrite Hent by done. rewrite tget_tzero.
    rewrite <- sum_n_opp.
    transitivity (sum_n n (λ k, - sum_n n (λ l,
      tget gs (scale_r gs (entry X l j)
        (scale_l gs (entry X i k) (gradient ((A !!! k) !!! l)))) J)));
      [rewrite sum_n_opp; ring|].
    apply sum_n_ext. intros k Hk. f_equal. apply sum_n_ext. intros l Hl.
    by rewrite tget_scale_r, tget_scale_l by done. }
  split; [apply wf_inv_dual|]. split.
  - apply tensor_ext;
      [apply (get_value_spec [n; n])|by apply wf_is_mat|].
    intros I HI.
    destruct (get_value_spec [n; n] (inv_dual_result n gs X A)) as [_ Hval].
    rewrite Hval by done.
    destruct I as [|i [|j [|? ?]]]; simpl in HI; try (by destruct HI);
      try (by destruct HI as [_ []]).
    destruct HI as (Hi & Hj & _).
    rewrite (lookup_wf2 n n) by (done || apply wf_inv_dual).
    rewrite inv_dual_entry by done. cbn [value]. symmetry. apply tget_entry.
  - intros i j J Hi Hj HJ. split; [by apply Hgrad|].
    set (d := λ k l, tget gs (gradient ((A !!! k) !!! l)) J).
    set (c := λ a, sum_n n (λ b, d a b * entry X b j)).
    rewrite sum_n_plus.
    rewrite (sum_n_ext n _ (λ k, - (entry V i k
      * sum_n n (λ a, entry X k a * c a)))).
    + rewrite sum_n_opp.
      rewrite <- (sum_n_assoc2 n n (λ k, entry V i k)
        (λ k a, entry X k a) c).
      rewrite (sum_n_ext n _ (λ a, delta i a * c a)).
      * rewrite (sum_n_delta_l n i c Hi). unfold c, d. ring.
      * intros a Ha. fold (mmul n V X i a). by rewrite HVX.
    + intros k Hk. rewrite Hgrad by done.
      transitivity (entry V i k * - sum_n n (λ a, entry X k a * c a));
        [|ring].
      do 2 f_equal. apply sum_n_ext. intros a Ha. unfold c.
      rewrite <- sum_n_scale_l. apply sum_n_ext. intros b Hb. unfold d. ring.
Qed.

Lemma inv_dual_first_order_witness :
  ∃ (X : mat) (R : list (list (dual (tensor double [])))),
    inv 2 (get_value [2%nat; 2%nat] example_dual_matrix) = Some X
    ∧ inv_dual 2 [] example_dual_matrix = Some R
    ∧ get_value [2%nat; 2%nat] R = X.
Proof.
  assert (wf [2%nat; 2%nat] example_dual_matrix) as Hwf
    by (simpl; repeat constructor).
  assert (invertible 2 (get_value [2%nat; 2%nat] example_dual_matrix)) as Hinv.
  { exists (inv2 (get_value [2%nat; 2%nat] example_dual_matrix)).
    unfold is_mat. repeat split; compute_done. }
  destruct (inv_dual_first_order 2 [] example_dual_matrix (or_introl eq_refl)
              Hwf Hinv) as (X & R & HX & HR & _ & HV & _).
  by exists X, R.
Defined.

(** ** The deviator *)

Lemma tr_dev_zero (n : nat) (A : mat) : is_mat n n A → tr n (dev n A) = 0.
Proof.
  intros HA. destruct (dev_spec n A HA) as [_ Hent].
  rewrite tr_sum.
  rewrite (sum_n_ext _ _ (λ i, entry A i i - tr n A / of_nat n)).
  - rewrite sum_n_minus, sum_n_const, <- tr_sum.
    destruct n as [|n].
    + rewrite tr_sum. simpl. rewrite of_nat_0. ring.
    + field. apply of_nat_nonzero. lia.
  - intros i Hi. rewrite Hent by done. by rewrite bool_decide_eq_true_2.
Qed.

(** X21.  In exact arithmetic the deviator of a square matrix is the
    matrix minus the mean of its diagonal times the identity; taking
    the deviator twice changes nothing more, and the deviator commutes
    with the transposition. *)
Theorem dev_removes_the_mean (n : nat) (A : mat) :
  is_mat n n A →
  dev n A
  = tensor_sub [n; n] A (scale_l [n; n] (tr n A / of_nat n) (DenseIdentity n))
  ∧ dev n (dev n A) = dev n A
  ∧ transpose n n (dev n A) = dev n (transpose n n A).
Proof.
  intros HA. destruct (dev_spec n A HA) as [HD ED].
  split; [|split].
  - apply (mat_ext n n); [done|apply is_mat_tensor_sub|].
    intros i j Hi Hj.
    rewrite ED, entry_tensor_sub, entry_scale_l, entry_DenseIdentity by done.
    case_bool_decide; ring.
  - destruct (dev_spec n (dev n A) HD) as [HDD EDD].
    apply (mat_ext n n); [done..|]. intros i j Hi Hj.
    rewrite EDD by done. rewrite tr_dev_zero by done.
    case_bool_decide; [|done]. unfold Qcdiv. ring.
  - destruct (transpose_spec n n A) as [HT ET].
    destruct (transpose_spec n n (dev n A)) as [HTD ETD].
    destruct (dev_spec n (transpose n n A) HT) as [HDT EDT].
    apply (mat_ext n n); [done..|]. intros i j Hi Hj.
    rewrite ETD, EDT, ED, ET, tr_transpose by done.
    repeat case_bool_decide; subst; try done; congruence.
Qed.

Lemma dev_removes_the_mean_witness :
  dev 3 (dev 3 [[lit 2 1; lit 1 1; 0]; [lit (-3) 1; lit (-1) 1; lit 5 1];
                [lit 1 1; lit 1 1; lit 1 1]])
  = dev 3 [[lit 2 1; lit 1 1; 0]; [lit (-3) 1; lit (-1) 1; lit 5 1];
           [lit 1 1; lit 1 1; lit 1 1]].
Proof.
  refine (proj1 (proj2 (dev_removes_the_mean 3 _ _))).
  split; [reflexivity|]. repeat constructor.
Defined.

(** ** Chopping *)

(** The test [x * x < 1.0e-20] of the code is the test [|x| < 1.0e-10]
    of the documentation. *)
Lemma chop_test (x : double) :
  ltb (x * x) chop_bound = bool_decide (abs x < chop_tolerance).
Proof.
  assert (chop_tolerance * chop_tolerance = chop_bound) as Hb by compute_done.
  assert (0 < chop_tolerance) as Ht by compute_done.
  assert (abs x * abs x = x * x) as Hsq.
  { unfold abs. destruct (ltb x 0); ring. }
  pose proof (abs_nonneg x) as Ha.
  unfold ltb. rewrite <- Hb, <- Hsq. apply bool_decide_ext.
  set (a := abs x) in *. set (b := chop_tolerance) in *.
  split; intros Hlt.
  - apply Qcnot_le_lt. intros Hle.
    assert (b * b ≤ a * a) as Hle2.
    { apply Qcle_trans with (b * a).
      - rewrite (Qcmult_comm b a).
        apply Qcmult_le_compat_r; [done|]. by apply Qclt_le_weak.
      - by apply Qcmult_le_compat_r. }
    by apply Qcle_not_lt in Hle2.
  - apply Qcle_lt_trans with (a * b).
    + rewrite (Qcmult_comm a b).
      apply Qcmult_le_compat_r; [by apply Qclt_le_weak|done].
    + by apply Qcmult_lt_compat_r.
Qed.

Lemma chop_v_spec (n : nat) (A : vec) :
  length A = n →
  length (chop_v n A) = n
  ∧ ∀ i, (i < n)%nat →
      chop_v n A !!! i
      = if bool_decide (abs (A !!! i) < chop_tolerance) then 0 else A !!! i.
Proof.
  intros HA. unfold chop_v.
  rewrite (for_ext 0 n _ (λ i (copy : vec),
    <[i := (λ _ x, if bool_decide (abs x < chop_tolerance) then 0 else x)
             i (copy !!! i)]> copy)).
  - exact (for_update_vec n
      (λ _ x, if bool_decide (abs x < chop_tolerance) then 0 else x) A HA).
  - intros i copy _. rewrite chop_test. case_bool_decide; [done|].
    destruct (decide (i < length copy)%nat) as [Hi|Hi].
    + symmetry. apply list_insert_id. by apply list_lookup_lookup_total_lt.
    + symmetry. apply list_insert_ge. lia.
Qed.

Lemma chop_m_spec (m n : nat) (A : mat) :
  is_mat m n A →
  is_mat m n (chop_m m n A)
  ∧ ∀ i j, (i < m)%nat → (j < n)%nat →
      entry (chop_m m n A) i j
      = if bool_decide (abs (entry A i j) < chop_tolerance) then 0
        else entry A i j.
Proof.
  intros HA. unfold chop_m.
  rewrite (for_ext 0 m _ (λ i, for_ 0 n (λ j copy,
    set_entry i j
      ((λ _ _ x, if bool_decide (abs x < chop_tolerance) then 0 else x)
         i j (entry copy i j)) copy))).
  - exact (for_for_update_entry m n
      (λ _ _ x, if bool_decide (abs x < chop_tolerance) then 0 else x) A HA).
  - intros i copy _. apply for_ext. intros j copy' _.
    rewrite chop_test. case_bool_decide; [done|].
    symmetry. apply set_entry_id.
Qed.

Lemma chop_value_idempotent (x : double) :
  let y := if bool_decide (abs x < chop_tolerance) then 0 else x in
  (if bool_decide (abs y < chop_tolerance) then 0 else y) = y.
Proof.
  cbv zeta. destruct (decide (abs x < chop_tolerance)) as [Hx|Hx].
  - rewrite (bool_decide_eq_true_2 _ Hx).
    destruct (bool_decide (abs 0 < chop_tolerance)); reflexivity.
  - rewrite (bool_decide_eq_false_2 _ Hx).
    rewrite (bool_decide_eq_false_2 _ Hx). reflexivity.
Qed.

(** X22.  [chop] keeps the shape and replaces exactly the entries with
    [|x| < 1.0e-10] by zero, leaving every other entry as it is;
    chopping twice is chopping once. *)
Theorem chop_zeroes_small_entries :
  (∀ (n : nat) (A : vec), length A = n →
     length (chop_v n A) = n
     ∧ (∀ i, (i < n)%nat →
          chop_v n A !!! i
          = if bool_decide (abs (A !!! i) < chop_tolerance) then 0
            else A !!! i)
     ∧ chop_v n (chop_v n A) = chop_v n A)
  ∧ (∀ (m n : nat) (A : mat), is_mat m n A →
     is_mat m n (chop_m m n A)
     ∧ (∀ i j, (i < m)%nat → (j < n)%nat →
          entry (chop_m m n A) i j
          = if bool_decide (abs (entry A i j) < chop_tolerance) then 0
            else entry A i j)
     ∧ chop_m m n (chop_m m n A) = chop_m m n A).
Proof.
  split.
  - intros n A HA. destruct (chop_v_spec n A HA) as [HL HE].
    split; [done|]. split; [done|].
    destruct (chop_v_spec n (chop_v n A) HL) as [HL' HE'].
    apply (vec_ext n); [done..|]. intros i Hi.
    rewrite HE', HE by done. apply chop_value_idempotent.
  - intros m n A HA. destruct (chop_m_spec m n A HA) as [HM HE].
    split; [done|]. split; [done|].
    destruct (chop_m_spec m n (chop_m m n A) HM) as [HM' HE'].
    apply (mat_ext m n); [done..|]. intros i j Hi Hj.
    rewrite HE', HE by done. apply chop_value_idempotent.
Qed.

Lemma chop_zeroes_small_entries_witness :
  chop_v 3 (chop_v 3 [lit 1 1; lit 1 100000000000; lit (-1) 3])
  = chop_v 3 [lit 1 1; lit 1 100000000000; lit (-1) 3].
Proof.
  refine (proj2 (proj2 (proj1 chop_zeroes_small_entries 3%nat _ _))).
  reflexivity.
Defined.

(** ** Loops that run in step *)

Lemma for_sim {S T : Type} (R : S → T → Prop) (lo hi : nat)
    (f : nat → S → S) (g : nat → T → T) (s : S) (t : T) :
  R s t →
  (∀ i s t, (lo ≤ i < hi)%nat → R s t → R (f i s) (g i t)) →
  R (for_ lo hi f s) (for_ lo hi g t).
Proof.
  intros Hst Hstep. destruct (decide (lo ≤ hi)%nat) as [Hle|Hgt].
  - induction hi as [|hi IH].
    + by rewrite !for_nil by lia.
    + destruct (decide (lo = Datatypes.S hi)) as [->|Hne].
      * by rewrite !for_nil by lia.
      * rewrite !for_S by lia. apply Hstep; [lia|].
        apply IH; [|lia]. intros i s' t' Hi. apply Hstep. lia.
  - by rewrite !for_nil by lia.
Qed.

Lemma for_down_sim {S T : Type} (R : nat → S → T → Prop) (hi lo : nat)
    (f : nat → S → S) (g : nat → T → T) (s : S) (t : T) :
  (lo ≤ hi)%nat →
  R hi s t →
  (∀ i s t, (lo ≤ i < hi)%nat → R (Datatypes.S i) s t → R i (f i s) (g i t)) →
  R lo (for_down hi lo f s) (for_down hi lo g t).
Proof.
  intros Hle. revert s t. induction hi as [|hi IH]; intros s t Hst Hstep.
  - rewrite !for_down_nil by lia. by replace lo with 0%nat by lia.
  - destruct (decide (lo = Datatypes.S hi)) as [->|Hne].
    + by rewrite !for_down_nil by lia.
    + rewrite !for_down_S by lia. apply IH; [lia| |].
      * apply Hstep; [lia|done].
      * intros i s' t' Hi. apply Hstep. lia.
Qed.

(** ** The elimination of [linear_solve] on operands passed by value *)

Lemma swap_entries_spec (n : nat) (b : vec) (r1 r2 : nat) :
  length b = n → (r1 < n)%nat → (r2 < n)%nat →
  length (swap_entries r1 r2 b) = n
  ∧ ∀ r, (r < n)%nat → swap_entries r1 r2 b !!! r = b !!! transp r1 r2 r.
Proof.
  intros Hb Hr1 Hr2. unfold swap_entries. split.
  - by rewrite !length_insert.
  - intros r Hr. unfold transp.
    destruct (decide (r = r2)) as [->|Hne2].
    + rewrite bool_decide_eq_true_2 by done.
      rewrite list_lookup_total_insert_eq; [done|]. rewrite length_insert. lia.
    + rewrite bool_decide_eq_false_2 by done.
      rewrite list_lookup_total_insert_ne by done.
      destruct (decide (r = r1)) as [->|Hne1].
      * rewrite bool_decide_eq_true_2 by done.
        rewrite list_lookup_total_insert_eq; [done|]. lia.
      * rewrite bool_decide_eq_false_2 by done.
        by rewrite list_lookup_total_insert_ne.
Qed.

Lemma rhs_of_swap (n : nat) (b0 : vec) (B : mat) (b : vec) (p i : nat) :
  is_mat n n B → (p < n)%nat → (i < n)%nat →
  rhs_of n B b0 b → rhs_of n (swap_rows p i B) b0 (swap_entries p i b).
Proof.
  intros HB Hp Hi [Hlen Hent].
  destruct (swap_entries_spec n b p i Hlen Hp Hi) as [Hlen' Hent'].
  split; [done|]. intros r Hr. rewrite Hent' by done.
  rewrite Hent by (by apply transp_lt).
  apply sum_n_ext. intros k Hk. by rewrite (entry_swap_rows n).
Qed.

(** A row operation with the factor zero changes nothing. *)
Lemma row_axpy_zero (n : nat) (A : mat) (i j : nat) :
  is_mat n n A → (i < n)%nat → (j < n)%nat → entry A j i = 0 →
  set_entry j i 0
    (<[j := add_assign [n] (A !!! j) (scale_l [n] 0 (A !!! i))]> A)
  = A.
Proof.
  intros HA Hi Hj Hz.
  destruct (row_axpy n A i j 0 HA Hi Hj) as [HA' Hent].
  apply (mat_ext n n); [by apply is_mat_set_entry|done|].
  intros r k Hr Hk. rewrite (entry_set_entry n n) by done.
  case_bool_decide as Heq; [by destruct Heq as [-> ->]|].
  rewrite Hent by done. case_bool_decide; [subst; ring|done].
Qed.

Lemma eliminate_below_sim (n : nat) (b0 : vec) (i : nat)
    (AB : mat * mat) (Ab : mat * vec) :
  (i < n)%nat → forward_sim n b0 AB Ab →
  forward_sim n b0 (eliminate_below n i AB) (eliminate_below_rhs n i Ab).
Proof.
  intros Hi Hsim. unfold eliminate_below, eliminate_below_rhs.
  apply (for_sim (forward_sim n b0)); [done|].
  intros j [A B] [A' b] Hj (HA' & HA & HB & Hlen & Hent). simpl in *. subst A'.
  set (c := - entry A j i / entry A i i).
  destruct (neqb (entry A j i) 0) eqn:Hne.
  - destruct (row_axpy n A i j c) as [HA2 _]; [done|lia..|].
    destruct (row_axpy n B i j c) as [HB2 HentB]; [done|lia..|].
    split; [done|]. simpl. split; [by apply is_mat_set_entry|].
    split; [done|]. split; [by rewrite length_insert|].
    intros r Hr.
    rewrite (sum_n_ext n _ (λ k,
      if bool_decide (r = j)
      then entry B j k * b0 !!! k + c * (entry B i k * b0 !!! k)
      else entry B r k * b0 !!! k))
      by (intros k Hk; rewrite HentB by done; case_bool_decide; ring).
    destruct (decide (r = j)) as [->|Hrj].
    + rewrite bool_decide_eq_true_2 by done.
      rewrite list_lookup_total_insert_eq by lia.
      rewrite sum_n_plus, sum_n_scale_l. by rewrite !Hent by lia.
    + rewrite bool_decide_eq_false_2 by done.
      rewrite list_lookup_total_insert_ne by done. by apply Hent.
  - apply neqb_false in Hne.
    assert (c = 0) as -> by (unfold c; rewrite Hne; unfold Qcdiv; ring).
    split; [simpl; apply (row_axpy_zero n); (done || lia)|].
    simpl. split; [done|]. split; [done|]. split; [by rewrite length_insert|].
    intros r Hr. destruct (decide (r = j)) as [->|Hrj].
    + rewrite list_lookup_total_insert_eq by lia. rewrite <- Hent by done. ring.
    + rewrite list_lookup_total_insert_ne by done. by apply Hent.
Qed.

Lemma forward_step_sim (n : nat) (b0 : vec) (i : nat)
    (AB : mat * mat) (Ab : mat * vec) :
  (i < n)%nat → forward_sim n b0 AB Ab →
  forward_sim n b0 (forward_step n i AB) (forward_step_rhs n i Ab).
Proof.
  intros Hi Hsim. destruct AB as [A B], Ab as [A' b].
  destruct Hsim as (HA' & HA & HB & Hrhs). simpl in *. subst A'.
  unfold forward_step, forward_step_rhs.
  destruct (find_pivot_spec n i A Hi) as [Hp _].
  destruct (find_pivot n i A) as [max_val max_row]. simpl in Hp.
  apply eliminate_below_sim; [done|].
  split; [done|]. simpl.
  split; [by apply is_mat_swap_rows; (done || lia)|].
  split; [by apply is_mat_swap_rows; (done || lia)|].
  apply rhs_of_swap; (done || lia).
Qed.

(** ** The upper triangular solve of [linear_solve], likewise *)

Lemma backward_step_rhs_entries (n i : nat) (U : mat) (b x : vec) :
  (i < n)%nat → length b = n → length x = n →
  let bx := backward_step_rhs i U (b, x) in
  length bx.1 = n ∧ length bx.2 = n
  ∧ bx.2 = <[i := b !!! i / entry U i i]> x
  ∧ ∀ r, (r < n)%nat →
      bx.1 !!! r
      = if bool_decide (r < i)%nat
        then b !!! r - entry U r i * (b !!! i / entry U i i)
        else b !!! r.
Proof.
  intros Hi Hb Hx. unfold backward_step_rhs. cbn [fst snd].
  rewrite list_lookup_total_insert_eq by lia.
  set (xi := b !!! i / entry U i i).
  split; [|split; [by rewrite length_insert|split; [done|]]].
  - loop_inv (λ (_ : nat) (b' : vec), length b' = n); [lia|done| |done].
    intros j b' Hj Hb'. by rewrite length_insert.
  - loop_inv (λ j (b' : vec), length b' = n
      ∧ ∀ r, (r < n)%nat →
          b' !!! r = if bool_decide (j ≤ r < i)%nat
                     then b !!! r - entry U r i * xi else b !!! r); [lia| | |].
    + split; [done|]. intros r Hr. by rewrite bool_decide_eq_false_2 by lia.
    + intros j b' Hj [Hb' Hent]. split; [by rewrite length_insert|].
      intros r Hr. destruct (decide (r = j)) as [->|Hne].
      * rewrite list_lookup_total_insert_eq by lia. rewrite Hent by lia.
        rewrite bool_decide_eq_false_2 by lia.
        by rewrite bool_decide_eq_true_2 by lia.
      * rewrite list_lookup_total_insert_ne by done. rewrite Hent by done.
        repeat case_bool_decide; try lia; done.
    + intros b' [Hb' Hent] r Hr. rewrite Hent by done.
      repeat case_bool_decide; try lia; done.
Qed.

Lemma backward_step_sim (n : nat) (b0 : vec) (i : nat) (U B : mat)
    (bx : vec * vec) :
  (i < n)%nat → backward_sim n b0 (S i) B bx →
  backward_sim n b0 i (backward_step n i U B) (backward_step_rhs i U bx).
Proof.
  intros Hi (HB & Hb & Hx & Hdone & Htodo). destruct bx as [b x].
  cbn [fst snd] in *.
  destruct (backward_step_entries n i U B Hi HB) as [HB' HentB].
  destruct (backward_step_rhs_entries n i U b x Hi Hb Hx)
    as (Hb' & Hx' & Heqx & Hentb).
  assert (b !!! i / entry U i i
          = sum_n n (λ k, entry B i k / entry U i i * b0 !!! k)) as Hxi.
  { rewrite Htodo by lia. unfold Qcdiv. rewrite <- sum_n_scale_r.
    apply sum_n_ext. intros; ring. }
  split; [done|]. split; [done|]. split; [done|]. split.
  - intros r Hr. rewrite Heqx.
    rewrite (sum_n_ext n _ (λ k,
      (if bool_decide (r = i) then entry B i k / entry U i i
       else entry B r k) * b0 !!! k)).
    + destruct (decide (r = i)) as [->|Hne].
      * rewrite list_lookup_total_insert_eq by lia.
        by rewrite bool_decide_eq_true_2.
      * rewrite list_lookup_total_insert_ne by done.
        rewrite bool_decide_eq_false_2 by done. apply Hdone. lia.
    + intros k Hk. rewrite HentB by lia.
      repeat case_bool_decide; try lia; done.
  - intros r Hr. rewrite Hentb by lia. rewrite bool_decide_eq_true_2 by done.
    rewrite (sum_n_ext n _ (λ k,
      entry B r k * b0 !!! k
      - entry U r i * (entry B i k / entry U i i * b0 !!! k))).
    + rewrite sum_n_minus, sum_n_scale_l, <- Hxi. by rewrite Htodo by lia.
    + intros k Hk. rewrite HentB by lia.
      rewrite bool_decide_eq_false_2 by lia.
      rewrite bool_decide_eq_true_2 by done. ring.
Qed.

(** On operands passed by value, the statements of [linear_solve]
    follow those of the general [inv] step by step: their result is the
    product of the matrix that the elimination of [inv] returns with the
    right-hand side. *)
Lemma linear_solve_by_value_inv (n : nat) (A : mat) (b : vec) :
  is_mat n n A → length b = n →
  linear_solve_by_value n A b = dot_mv n n (inv_general_by_value n A) b.
Proof.
  intros HA Hb. unfold linear_solve_by_value, inv_general_by_value.
  assert (forward_sim n b (A, DenseIdentity n) (A, b)) as Hinit.
  { split; [done|]. split; [done|]. split; [apply is_mat_DenseIdentity|].
    split; [done|]. intros r Hr. simpl.
    rewrite (sum_n_ext n _ (λ k, delta r k * b !!! k)).
    - symmetry. exact (sum_n_delta_l n r (λ k, b !!! k) Hr).
    - intros k Hk. by rewrite entry_DenseIdentity. }
  pose proof (for_sim (forward_sim n b) 0 n (forward_step n)
    (forward_step_rhs n) _ _ Hinit) as Hfwd.
  destruct (for_ 0 n (forward_step n) (A, DenseIdentity n)) as [U B1].
  destruct (for_ 0 n (forward_step_rhs n) (A, b)) as [U' b1].
  destruct Hfwd as (HU' & HU & HB1 & Hlen & Hent).
  { intros i s t Hi. apply forward_step_sim. lia. }
  cbn [fst snd] in *. subst U'.
  assert (backward_sim n b n B1 (b1, tzero [n])) as Hinit'.
  { split; [done|]. split; [done|]. split; [apply (length_tzero _ [])|].
    split; [intros; lia|]. intros r Hr. by apply Hent. }
  pose proof (for_down_sim (backward_sim n b) n 0
    (λ i, backward_step n i U) (λ i, backward_step_rhs i U) _ _
    ltac:(lia) Hinit') as Hbwd.
  destruct (for_down n 0 (λ i, backward_step_rhs i U) (b1, tzero [n]))
    as [b2 x].
  destruct Hbwd as (HX & _ & Hx & Hdone & _).
  { intros i s t Hi. apply backward_step_sim. lia. }
  cbn [fst snd] in *.
  destruct (dot_mv_spec n n (for_down n 0 (λ i, backward_step n i U) B1) b)
    as [Hlen' Hent'].
  apply (vec_ext n); [done..|]. intros r Hr.
  rewrite Hent' by done. apply Hdone. lia.
Qed.

Lemma checked_eliminate_below_rhs_by_value (n i : nat) (Ab : mat * vec) :
  checked_eliminate_below_rhs by_value by_value n i Ab
  = Some (eliminate_below_rhs n i Ab).
Proof. apply for_opt_Some. by intros j [A b] _. Qed.

Lemma checked_forward_step_rhs_by_value (n i : nat) (Ab : mat * vec) :
  checked_forward_step_rhs by_value by_value n i Ab
  = Some (forward_step_rhs n i Ab).
Proof.
  destruct Ab as [A b]. unfold checked_forward_step_rhs, forward_step_rhs.
  destruct (find_pivot n i A) as [max_val max_row]. simpl.
  apply checked_eliminate_below_rhs_by_value.
Qed.

Lemma checked_backward_step_rhs_by_value (i : nat) (A : mat) (bx : vec * vec) :
  checked_backward_step_rhs by_value i A bx = Some (backward_step_rhs i A bx).
Proof.
  destruct bx as [b x]. unfold checked_backward_step_rhs, backward_step_rhs.
  set (x' := <[i := b !!! i / entry A i i]> x).
  by rewrite (for_down_opt_Some i 0 _
    (λ j (b : vec), <[j := b !!! j - entry A j i * x' !!! i]> b)) by done.
Qed.

Lemma bind_snd {S T : Type} (p : S * T) :
  Some p ≫= (λ '(_, x), Some x) = Some (let '(_, x) := p in x).
Proof. by destruct p. Qed.

Lemma linear_solve_body_by_value (n : nat) (A : mat) (b : vec) :
  linear_solve_body by_value by_value n A b
  = Some (linear_solve_by_value n A b).
Proof.
  unfold linear_solve_body, linear_solve_by_value.
  rewrite (for_opt_Some 0 n _ (forward_step_rhs n))
    by (intros; apply checked_forward_step_rhs_by_value).
  simpl. destruct (for_ 0 n (forward_step_rhs n) (A, b)) as [U b1].
  rewrite (for_down_opt_Some n 0 _ (λ i, backward_step_rhs i U))
    by (intros; apply checked_backward_step_rhs_by_value).
  exact (bind_snd _).
Qed.

(** The defect of [linear_solve] is confined to the declaration of its
    right-hand side: with [b] passed by value and not const, the same
    statements solve the system for every invertible matrix. *)
Lemma linear_solve_body_by_value_spec (n : nat) (A : mat) (b : vec) :
  is_mat n n A → invertible n A → length b = n →
  ∃ x : vec, linear_solve_body by_value by_value n A b = Some x
    ∧ length x = n ∧ dot_mv n n A x = b.
Proof.
  intros HA Hinv Hb. exists (linear_solve_by_value n A b).
  split; [apply linear_solve_body_by_value|].
  rewrite linear_solve_by_value_inv by done.
  destruct (inv_general_by_value_spec n A HA Hinv) as [Hr _].
  split; [apply dot_mv_spec|].
  by rewrite <- dot_mv_dot_mm, Hr, dot_mv_identity.
Qed.

(** ** [linear_solve] as it is declared *)

(** X23.  [linear_solve] declares its right-hand side as
    [const tensor<T, n> b] and assigns to it, first through
    [swap(b[max_row], b[i])] in the first iteration of the elimination:
    it has no result at any size [n >= 1], on any matrix and any
    right-hand side. *)
Theorem linear_solve_assigns_to_const (n : nat) (A : mat) (b : vec) :
  (0 < n)%nat → linear_solve n A b = None.
Proof.
  intros Hn. unfold linear_solve, linear_solve_body.
  rewrite (for_opt_first 0 n); [done|done|].
  unfold checked_forward_step_rhs. by destruct (find_pivot n 0 A).
Qed.

Lemma linear_solve_assigns_to_const_witness :
  linear_solve 4 example_matrix [lit 1 1; lit 2 1; lit 3 1; lit 4 1] = None.
Proof. apply linear_solve_assigns_to_const. lia. Defined.

(** ** Dispatch of the boundary integral *)

(** X25.  On a constructed integral with [trials] trial spaces,
    [Mult] reaches a kernel exactly for [which == -1] and for
    [0 <= which < trials], and [GradientMult] exactly for
    [which < trials]; every other index is outside the arrays of
    handles, as is the default [which = 0] of both on an integral
    without trial spaces.  The plain evaluation [which == -1] is given no
    derivative array and leaves all of them as they are. *)
Theorem dispatch_within_the_arrays (fe : finite_element)
    (trials elements dim Q : nat) (J : list (list double))
    (X N : list (list vec)) (qf : qexpr) (U : list (list vec))
    (dU : list vec) (st : store) :
  (∀ which : Z,
     is_Some (Mult (configure fe trials elements dim Q J X N qf).1 U which st)
     ↔ which = (-1)%Z ∨ (0 ≤ which < Z.of_nat trials)%Z)
  ∧ (∀ which : nat,
     is_Some (GradientMult (configure fe trials elements dim Q J X N qf).1
                dU which st)
     ↔ (which < trials)%nat)
  ∧ (∀ R st',
     Mult (configure fe trials elements dim Q J X N qf).1 U (-1) st
     = Some (R, st') → st' = st).
Proof.
  split; [|split].
  - intros which. unfold Mult, Mult_callee, resolve, configure. cbn [fst].
    case_bool_decide as Hw.
    + subst which. cbn. split; [by left|by eexists].
    + cbn [evaluation_with_AD_ subscript].
      case_bool_decide as Hnn.
      * destruct ((evaluation_with_AD_fn _ <$> seq 0 trials)
                    !! Z.to_nat which) as [k|] eqn:Hk.
        -- split; [|by eexists]. intros _. right.
           apply lookup_lt_Some in Hk.
           rewrite length_fmap, length_seq in Hk. lia.
        -- split; [by intros [? ?]|]. intros [?|Hr]; [done|].
           apply lookup_ge_None in Hk.
           rewrite length_fmap, length_seq in Hk. lia.
      * split; [by intros [? ?]|]. intros [?|Hr]; [done|lia].
  - intros which. unfold GradientMult, configure.
    cbn [fst action_of_gradient_ subscript].
    rewrite bool_decide_eq_true_2 by lia. rewrite Nat2Z.id.
    destruct ((action_of_gradient_fn _ <$> seq 0 trials) !! which)
      as [k|] eqn:Hk.
    + split; [|by eexists]. intros _. apply lookup_lt_Some in Hk.
      by rewrite length_fmap, length_seq in Hk.
    + split; [by intros [? ?]|]. intros Hlt. apply lookup_ge_None in Hk.
      rewrite length_fmap, length_seq in Hk. lia.
  - intros R st' HM. unfold Mult, Mult_callee, resolve, configure in HM.
    rewrite bool_decide_eq_true_2 in HM by done. cbn in HM. by simplify_eq.
Qed.

(** ** Filter views *)

Section filter_view_properties.
Context {T : Type} (pred_ : T → bool).

Lemma drop_lookup_cons (c : list T) (curr : nat) (x : T) (rest : list T) :
  drop curr c = x :: rest → c !! curr = Some x ∧ drop (S curr) c = rest.
Proof.
  intros Hd. assert (c !! curr = Some x) as Hx.
  { rewrite <- (Nat.add_0_r curr), <- lookup_drop, Hd. done. }
  split; [done|]. rewrite (drop_S c x curr Hx) in Hd. congruence.
Qed.

(** Where the skipping loop stops. *)
Lemma skip_from_spec (rest : list T) (curr e : nat) :
  (curr ≤ e)%nat → (e - curr ≤ length rest)%nat →
  ∃ p, skip_from pred_ rest curr e = Some p
    ∧ (curr ≤ p ≤ e)%nat
    ∧ (∀ k x, (k < p - curr)%nat → rest !! k = Some x → pred_ x = false)
    ∧ ((p < e)%nat → ∃ x, rest !! (p - curr)%nat = Some x ∧ pred_ x = true).
Proof.
  revert curr. induction rest as [|x rest IH]; intros curr Hle Hlen.
  - simpl in Hlen. exists curr. simpl.
    rewrite bool_decide_eq_false_2 by lia.
    split; [done|]. split; [lia|]. split; intros; lia.
  - simpl. case_bool_decide as Hne.
    + destruct (pred_ x) eqn:Hx; simpl.
      * exists curr. split; [done|]. split; [lia|]. split; [intros; lia|].
        intros _. exists x. by rewrite Nat.sub_diag.
      * destruct (IH (S curr)) as (p & Hp & Hrange & Hfail & Hhit);
          [lia|simpl in Hlen; lia|].
        exists p. split; [done|]. split; [lia|]. split.
        -- intros k y Hk Hy. destruct k as [|k]; [by simplify_eq/=|].
           simpl in Hy. apply (Hfail k y); [lia|done].
        -- intros Hlt. destruct (Hhit Hlt) as (y & Hy & Hpy). exists y.
           split; [|done].
           replace (p - curr)%nat with (S (p - S curr)) by lia. done.
    + exists curr. split; [done|]. split; [lia|]. split; intros; lia.
Qed.

(** The traversal, started at the position where the skipping loop
    stops, collects the elements that satisfy the predicate. *)
Lemma visit_from_skip (c : list T) (e : nat) (rest : list T)
    (curr fuel : nat) :
  drop curr c = rest → (curr ≤ e)%nat → (e ≤ length c)%nat →
  (e - curr < fuel)%nat →
  match skip_from pred_ rest curr e with
  | Some p => visit pred_ fuel c {| curr_ := p; it_end_ := e |}
                {| curr_ := e; it_end_ := e |}
  | None => None
  end = Some (List.filter pred_ (take (e - curr) rest)).
Proof.
  revert curr fuel. induction rest as [|x rest IH];
    intros curr fuel Hd Hle He Hfuel.
  - assert (curr = e) as ->.
    { apply (f_equal length) in Hd. rewrite length_drop in Hd.
      simpl in Hd. lia. }
    simpl. rewrite bool_decide_eq_false_2 by lia.
    destruct fuel as [|fuel]; [lia|]. simpl. unfold it_ne. simpl.
    rewrite bool_decide_eq_false_2 by lia. by rewrite take_nil.
  - destruct (drop_lookup_cons c curr x rest Hd) as [Hx Hd'].
    simpl. case_bool_decide as Hne.
    + replace (e - curr)%nat with (S (e - S curr)) by lia. simpl.
      destruct (pred_ x) eqn:Hpx; simpl.
      * destruct fuel as [|fuel]; [lia|]. simpl. unfold it_ne. simpl.
        rewrite bool_decide_eq_true_2 by done.
        unfold star, deref. simpl. rewrite Hx.
        unfold incr, skip. simpl. rewrite Hd'.
        specialize (IH (S curr) fuel Hd' ltac:(lia) He ltac:(lia)).
        destruct (skip_from pred_ rest (S curr) e) as [p|]; [|done].
        by rewrite IH.
      * apply (IH (S curr) fuel Hd'); lia.
    + assert (curr = e) as -> by lia.
      rewrite Nat.sub_diag. simpl.
      destruct fuel as [|fuel]; [lia|]. simpl. unfold it_ne. simpl.
      by rewrite bool_decide_eq_false_2 by lia.
Qed.
End filter_view_properties.

(** X26.  A range-based loop over a [FilterView] of the elements
    between [begin] and [end] of a container visits exactly the elements
    that satisfy the predicate, once each and in the order of the
    container, and it ends; over a whole container it yields the
    filtered container. *)
Theorem FilterView_visits_filtered_elements {T : Type} (pred_ : T → bool)
    (c : list T) (b e fuel : nat) :
  (b ≤ e ≤ length c)%nat → (e - b < fuel)%nat →
  ∃ v, make_FilterView pred_ c b e = Some v
    ∧ elements_of pred_ fuel c v
      = Some (List.filter pred_ (take (e - b) (drop b c)))
    ∧ (b = 0%nat → e = length c →
       elements_of pred_ fuel c v = Some (List.filter pred_ c)).
Proof.
  intros Hbe Hfuel.
  pose proof (visit_from_skip pred_ c e (drop b c) b fuel eq_refl
    ltac:(lia) ltac:(lia) Hfuel) as Hvisit.
  unfold make_FilterView, skip.
  destruct (skip_from pred_ (drop b c) b e) as [p|] eqn:Hp; [|done].
  eexists. split; [done|]. unfold elements_of, view_begin, view_end. simpl.
  split; [done|]. intros -> ->. rewrite Hvisit.
  by rewrite drop_0, Nat.sub_0_r, firstn_all.
Qed.

Lemma FilterView_visits_filtered_elements_witness :
  ∃ v, make_FilterView (λ x, bool_decide (2 < x)%nat) [1; 5; 2; 7; 3]%nat 0 5
       = Some v
    ∧ elements_of (λ x, bool_decide (2 < x)%nat) 6 [1; 5; 2; 7; 3]%nat v
      = Some (List.filter (λ x, bool_decide (2 < x)%nat)
                (take (5 - 0) (drop 0 [1; 5; 2; 7; 3]%nat)))
    ∧ (0%nat = 0%nat → 5%nat = length [1; 5; 2; 7; 3]%nat →
       elements_of (λ x, bool_decide (2 < x)%nat) 6 [1; 5; 2; 7; 3]%nat v
       = Some (List.filter (λ x, bool_decide (2 < x)%nat) [1; 5; 2; 7; 3]%nat)).
Proof.
  apply (FilterView_visits_filtered_elements
           (λ x, bool_decide (2 < x)%nat) [1; 5; 2; 7; 3]%nat 0 5 6);
    simpl; lia.
Defined.

(** X27.  The iterators of a [FilterView] stay inside the range: the
    constructor and [operator++] stop at the first element at or after
    their starting point that satisfies the predicate, or at [end], and
    do not read outside the container; incrementing an iterator that
    already stands at the end of the container does read past it. *)
Theorem FilterView_iterators_stay_in_range {T : Type} (pred_ : T → bool)
    (c : list T) (b e : nat) :
  (b ≤ e ≤ length c)%nat →
  (∃ v, make_FilterView pred_ c b e = Some v
     ∧ end_ v = e ∧ (b ≤ begin_ v ≤ e)%nat
     ∧ (∀ k x, (b ≤ k < begin_ v)%nat → c !! k = Some x → pred_ x = false)
     ∧ ((begin_ v < e)%nat →
        ∃ x, star c (view_begin v) = Some x ∧ pred_ x = true))
  ∧ (∀ p, (b ≤ p < e)%nat →
     ∃ it', incr pred_ c {| curr_ := p; it_end_ := e |} = Some it'
       ∧ it_end_ it' = e ∧ (p < curr_ it' ≤ e)%nat
       ∧ (∀ k x, (p < k < curr_ it')%nat → c !! k = Some x → pred_ x = false)
       ∧ ((curr_ it' < e)%nat → ∃ x, star c it' = Some x ∧ pred_ x = true))
  ∧ (e = length c → incr pred_ c (view_end {| begin_ := b; end_ := e |}) = None).
Proof.
  intros Hbe. split; [|split].
  - destruct (skip_from_spec pred_ (drop b c) b e)
      as (p & Hp & Hrange & Hfail & Hhit); [lia|rewrite length_drop; lia|].
    unfold make_FilterView, skip. rewrite Hp. eexists. split; [done|]. simpl.
    split; [done|]. split; [done|]. split.
    + intros k x Hk Hx. apply (Hfail (k - b)%nat x); [lia|].
      rewrite lookup_drop. by replace (b + (k - b))%nat with k by lia.
    + intros Hlt. destruct (Hhit Hlt) as (x & Hx & Hpx). exists x.
      split; [|done]. unfold star, deref. simpl.
      rewrite lookup_drop in Hx. by replace (b + (p - b))%nat with p in Hx by lia.
  - intros p Hp.
    destruct (skip_from_spec pred_ (drop (S p) c) (S p) e)
      as (q & Hq & Hrange & Hfail & Hhit); [lia|rewrite length_drop; lia|].
    unfold incr, skip. simpl. rewrite Hq. eexists. split; [done|]. simpl.
    split; [done|]. split; [lia|]. split.
    + intros k x Hk Hx. apply (Hfail (k - S p)%nat x); [lia|].
      rewrite lookup_drop. by replace (S p + (k - S p))%nat with k by lia.
    + intros Hlt. destruct (Hhit Hlt) as (x & Hx & Hpx). exists x.
      split; [|done]. unfold star, deref. simpl.
      rewrite lookup_drop in Hx.
      by replace (S p + (q - S p))%nat with q in Hx by lia.
  - intros ->. unfold incr, skip, view_end. simpl.
    rewrite drop_ge by lia. simpl.
    by rewrite bool_decide_eq_true_2 by lia.
Qed.

Lemma FilterView_iterators_stay_in_range_witness :
  incr (λ x, bool_decide (2 < x)%nat) [1; 5; 2; 7; 3]%nat
    (view_end {| begin_ := 0; end_ := 5 |}) = None.
Proof.
  refine (proj2 (proj2 (FilterView_iterators_stay_in_range
    (λ x, bool_decide (2 < x)%nat) [1; 5; 2; 7; 3]%nat 0 5 _)) _).
  - simpl. lia.
  - reflexivity.
Defined.

(** ** Contractions with the [zero] sentinel *)

Lemma dot_mv_tzero_r (m n : nat) (A : mat) : dot_mv m n A (tzero [n]) = tzero [m].
Proof.
  destruct (dot_mv_spec m n A (tzero [n])) as [HL HE].
  apply (vec_ext m); [done|apply (length_tzero _ [])|]. intros i Hi.
  rewrite HE by done. rewrite lookup_total_tzero_vec.
  apply sum_n_zero. intros j _. rewrite lookup_total_tzero_vec. ring.
Qed.

Lemma dot_vm_tzero_l (m n : nat) (B : mat) : dot_vm m n (tzero [m]) B = tzero [n].
Proof.
  destruct (dot_vm_spec m n (tzero [m]) B) as [HL HE].
  apply (vec_ext n); [done|apply (length_tzero _ [])|]. intros i Hi.
  rewrite HE by done. rewrite lookup_total_tzero_vec.
  apply sum_n_zero. intros j _. rewrite lookup_total_tzero_vec. ring.
Qed.

Lemma dot_mm_tzero_r (m n p : nat) (A : mat) :
  dot_mm m n p A (tzero [n; p]) = tzero [m; p].
Proof.
  destruct (dot_mm_spec m n p A (tzero [n; p])) as [HM HE].
  apply (mat_ext m p); [done|apply is_mat_tzero|]. intros i j Hi Hj.
  rewrite HE by done. rewrite entry_tzero.
  apply sum_n_zero. intros k _. rewrite entry_tzero. ring.
Qed.

Lemma dot_mm_tzero_l (m n p : nat) (B : mat) :
  dot_mm m n p (tzero [m; n]) B = tzero [m; p].
Proof.
  destruct (dot_mm_spec m n p (tzero [m; n]) B) as [HM HE].
  apply (mat_ext m p); [done|apply is_mat_tzero|]. intros i j Hi Hj.
  rewrite HE by done. rewrite entry_tzero.
  apply sum_n_zero. intros k _. rewrite entry_tzero. ring.
Qed.

Lemma outer_vv_tzero_r (m n : nat) (a : vec) :
  outer_vv m n a (tzero [n]) = tzero [m; n].
Proof.
  destruct (outer_vv_spec m n a (tzero [n])) as [HM HE].
  apply (mat_ext m n); [done|apply is_mat_tzero|]. intros i j Hi Hj.
  rewrite HE by done. rewrite entry_tzero, lookup_total_tzero_vec. ring.
Qed.

Lemma outer_vv_tzero_l (m n : nat) (b : vec) :
  outer_vv m n (tzero [m]) b = tzero [m; n].
Proof.
  destruct (outer_vv_spec m n (tzero [m]) b) as [HM HE].
  apply (mat_ext m n); [done|apply is_mat_tzero|]. intros i j Hi Hj.
  rewrite HE by done. rewrite entry_tzero, lookup_total_tzero_vec. ring.
Qed.

Lemma chain_rule_tzero_r (shape : list nat) (df_dx : tensor double shape) :
  chain_rule shape df_dx (tzero shape) = 0.
Proof.
  rewrite chain_rule_spec. rewrite (sum_box_ext shape _ (λ _, 0)).
  - apply sum_box_zero.
  - intros I _. rewrite tget_tzero. ring.
Qed.

Lemma chain_rule_tzero_l (shape : list nat) (dx : tensor double shape) :
  chain_rule shape (tzero shape) dx = 0.
Proof.
  rewrite chain_rule_spec. rewrite (sum_box_ext shape _ (λ _, 0)).
  - apply sum_box_zero.
  - intros I _. rewrite tget_tzero. ring.
Qed.

(** X28.  Eliding the [zero] sentinel in contractions is sound: [dot],
    [outer] and [chain_rule] with a [zero] operand return [zero], and
    the same functions on the zero tensor that the sentinel converts to
    return the zero tensor, or the zero scalar, of the shape of the
    result. *)
Theorem zero_contraction_elision :
  (∀ (m n : nat) (A : mat),
     dot_mv m n A (zero_to_tensor [n] Zero)
     = zero_to_tensor [m] (dot_zero_r A Zero))
  ∧ (∀ (m n : nat) (B : mat),
     dot_vm m n (zero_to_tensor [m] Zero) B
     = zero_to_tensor [n] (dot_zero_l Zero B))
  ∧ (∀ (m : nat) (a : vec),
     dot_vv m a (zero_to_tensor [m] Zero) = zero_to_double (dot_zero_r a Zero)
     ∧ dot_vv m (zero_to_tensor [m] Zero) a
       = zero_to_double (dot_zero_l Zero a))
  ∧ (∀ (m n p : nat) (A B : mat),
     dot_mm m n p A (zero_to_tensor [n; p] Zero)
     = zero_to_tensor [m; p] (dot_zero_r A Zero)
     ∧ dot_mm m n p (zero_to_tensor [m; n] Zero) B
       = zero_to_tensor [m; p] (dot_zero_l Zero B))
  ∧ (∀ (m n : nat) (a b : vec),
     outer_vv m n a (zero_to_tensor [n] Zero)
     = zero_to_tensor [m; n] (outer_zero_r a Zero)
     ∧ outer_vv m n (zero_to_tensor [m] Zero) b
       = zero_to_tensor [m; n] (outer_zero_l Zero b))
  ∧ (∀ (shape : list nat) (t : tensor double shape),
     chain_rule shape t (zero_to_tensor shape Zero)
     = zero_to_double (chain_rule_zero_r t Zero)
     ∧ chain_rule shape (zero_to_tensor shape Zero) t
       = zero_to_double (chain_rule_zero_l Zero t)
     ∧ chain_rule shape (zero_to_tensor shape Zero) (zero_to_tensor shape Zero)
       = zero_to_double (chain_rule_zero_zero Zero Zero)).
Proof.
  unfold zero_to_tensor, zero_to_double.
  split; [exact dot_mv_tzero_r|]. split; [exact dot_vm_tzero_l|].
  split; [|split; [|split]].
  - intros m a. rewrite !dot_vv_spec.
    split; apply sum_n_zero; intros i _; rewrite lookup_total_tzero_vec; ring.
  - intros m n p A B. split; [apply dot_mm_tzero_r|apply dot_mm_tzero_l].
  - intros m n a b. split; [apply outer_vv_tzero_r|apply outer_vv_tzero_l].
  - intros shape t. split; [apply chain_rule_tzero_r|].
    split; apply chain_rule_tzero_l.
Qed.

(** ** The overloads of [dot] *)

Lemma dot_vm_transpose (m n : nat) (v : vec) (B : mat) :
  dot_vm m n v B = dot_mv n m (transpose m n B) v.
Proof.
  destruct (dot_vm_spec m n v B) as [L1 E1].
  destruct (dot_mv_spec n m (transpose m n B) v) as [L2 E2].
  destruct (transpose_spec m n B) as [_ ET].
  apply (vec_ext n); [done..|]. intros i Hi. rewrite E1, E2 by done.
  apply sum_n_ext. intros j Hj. rewrite ET by done. ring.
Qed.

Lemma dot_mm_row (m n p : nat) (A B : mat) (i : nat) :
  (i < m)%nat → dot_mm m n p A B !!! i = dot_vm n p (A !!! i) B.
Proof.
  intros Hi. destruct (dot_mm_spec m n p A B) as [HM E1].
  destruct (dot_vm_spec n p (A !!! i) B) as [L2 E2].
  apply (vec_ext p); [by apply (is_mat_row m p)|done|]. intros j Hj.
  rewrite E2 by done. exact (E1 i j Hi Hj).
Qed.

Lemma dot_t3v_row (m n p : nat) (T : list mat) (v : vec) (i : nat) :
  (i < m)%nat → dot_t3v m n p T v !!! i = dot_mv n p (T !!! i) v.
Proof.
  intros Hi. destruct (dot_t3v_spec m n p T v) as [HM E1].
  destruct (dot_mv_spec n p (T !!! i) v) as [L2 E2].
  apply (vec_ext n); [by apply (is_mat_row m n)|done|]. intros j Hj.
  rewrite E2 by done. exact (E1 i j Hi Hj).
Qed.

(** X29.  The overloads of [dot] are slices of one another: [dot] of
    two vectors is symmetric, vector . matrix is the transposed matrix
    applied to the vector, entry [i] of matrix . vector is the dot
    product with row [i], row [i] of a matrix product is row [i] times
    the right factor, and slice [i] of 3rd-order-tensor . vector is
    slice [i] applied to the vector. *)
Theorem dot_overloads_are_slices :
  (∀ (m : nat) (a b : vec), dot_vv m a b = dot_vv m b a)
  ∧ (∀ (m n : nat) (v : vec) (B : mat),
     dot_vm m n v B = dot_mv n m (transpose m n B) v)
  ∧ (∀ (m n : nat) (A : mat) (v : vec) (i : nat), (i < m)%nat →
     dot_mv m n A v !!! i = dot_vv n (A !!! i) v)
  ∧ (∀ (m n p : nat) (A B : mat) (i : nat), (i < m)%nat →
     dot_mm m n p A B !!! i = dot_vm n p (A !!! i) B)
  ∧ (∀ (m n p : nat) (T : list mat) (v : vec) (i : nat), (i < m)%nat →
     dot_t3v m n p T v !!! i = dot_mv n p (T !!! i) v).
Proof.
  split; [|split; [exact dot_vm_transpose|split; [|split]]].
  - intros m a b. rewrite !dot_vv_spec. apply sum_n_ext. intros; ring.
  - intros m n A v i Hi. rewrite dot_vv_spec. by apply dot_mv_spec.
  - exact dot_mm_row.
  - exact dot_t3v_row.
Qed.

Lemma dot_overloads_are_slices_witness :
  dot_mm 4 4 4 example_matrix example_matrix !!! 2%nat
  = dot_vm 4 4 (example_matrix !!! 2%nat) example_matrix.
Proof.
  apply (proj1 (proj2 (proj2 (proj2 dot_overloads_are_slices))) 4%nat). lia.
Defined.

(** ** Normalization *)

Lemma sum_box_scale_r (shape : list nat) (g : list nat → double) (c : double) :
  sum_box shape (λ I, g I * c) = sum_box shape g * c.
Proof.
  revert g. induction shape as [|n ns IH]; intros g; simpl; [done|].
  rewrite <- sum_n_scale_r. apply sum_n_ext. intros i _. apply IH.
Qed.

(** X30.  In exact arithmetic [normalize] returns a tensor of the same
    shape whose squared norm is 1, and scaling it by [norm(A)] gives [A]
    back, whenever the square root returned for [sqnorm(A)] is exact and
    [sqnorm(A)] is not zero. *)
Theorem normalize_is_unit (sqrt_ : double → double) (shape : list nat)
    (A : tensor double shape) :
  wf shape A →
  sqrt_ (sqnorm_t shape A) * sqrt_ (sqnorm_t shape A) = sqnorm_t shape A →
  sqnorm_t shape A ≠ 0 →
  wf shape (normalize sqrt_ shape A)
  ∧ sqnorm_t shape (normalize sqrt_ shape A) = 1
  ∧ scale_l shape (norm sqrt_ shape A) (normalize sqrt_ shape A) = A.
Proof.
  intros HA Hs Hnz. unfold normalize, norm.
  set (N := sqnorm_t shape A) in *. set (s := sqrt_ N) in *.
  assert (s ≠ 0) as Hsnz.
  { intros Hz. apply Hnz. rewrite <- Hs, Hz. ring. }
  split; [apply wf_div_r|]. split.
  - rewrite sqnorm_t_spec.
    rewrite (sum_box_ext shape _
      (λ I, tget shape A I * tget shape A I * / (s * s))).
    + rewrite sum_box_scale_r, <- sqnorm_t_spec. fold N. rewrite Hs.
      by field.
    + intros I HI. rewrite tget_div_r by done. by field.
  - apply tensor_ext; [apply wf_scale_l|done|]. intros I HI.
    rewrite tget_scale_l, tget_div_r by done. by field.
Qed.

Lemma normalize_is_unit_witness :
  sqnorm_t [2%nat] (normalize example_sqrt [2%nat] [lit 3 1; lit 4 1]) = 1.
Proof.
  refine (proj1 (proj2 (normalize_is_unit example_sqrt [2%nat]
                          [lit 3 1; lit 4 1] _ _ _))).
  - simpl. repeat constructor.
  - compute_done.
  - compute_done.
Defined.
